(** * LearnWords: the review scheduler, the grading operations, the answer
      matcher and the word extractor of [word_app.py]

    The development follows the Python source function by function.
    - Python [str] values are sequences of code points ([list N]): [len],
      slicing, [in], [split] and the comparison used by [sorted] all work on
      code points.
    - The store [WordManager.words] is a dictionary: a [gmap] from words to
      records.  [today_completed] is a Python set: a [gset].  [today_tasks]
      is a list.
    - [datetime] (calendar arithmetic, [strftime], [strptime]) is written out
      for the two formats the program uses.
    - The module [random], [str.lower] and the table of the decimal digits
      that [\d] and [int] read are standard-library collaborators that are
      not part of the repository; they are interfaces ([Random], [Lowering],
      [Decimals]) with the laws the library documents.
    - [save_data] writes the store to a file after each change; it has no
      part in the values the operations compute and is left out. *)

From Stdlib Require Import ZArith Lia Ascii.
From stdpp Require Import gmap strings list fin_maps sorting.

Open Scope Z_scope.

(** ** Text *)

(** A Python string, as its code points. *)
Abbreviation str := (list N).

(** An ASCII literal as a Python string. *)
Fixpoint py (s : string) : str :=
  match s with
  | EmptyString => []
  | String a r => Ascii.N_of_ascii a :: py r
  end.

(** [a < b] and [a <= b] on strings: lexicographic on code points. *)
Fixpoint str_leb (a b : str) : bool :=
  match a, b with
  | [], _ => true
  | _ :: _, [] => false
  | x :: a', y :: b' => (x <? y)%N || ((x =? y)%N && str_leb a' b')
  end.

(** ** Calendar: [datetime.date] *)

Record date := Date { year : Z; month : Z; day : Z }.

(** [datetime.datetime], to the minute (the program formats nothing finer). *)
Record datetime := DateTime { dt_date : date; hour : Z; minute : Z }.

Definition is_leap (y : Z) : bool :=
  (y mod 4 =? 0) && (negb (y mod 100 =? 0) || (y mod 400 =? 0)).

Definition days_before_year (y : Z) : Z :=
  let y' := y - 1 in y' * 365 + y' / 4 - y' / 100 + y' / 400.

Definition DAYS_IN_MONTH : list Z :=
  [31; 28; 31; 30; 31; 30; 31; 31; 30; 31; 30; 31].

Definition days_in_month (y m : Z) : Z :=
  if (m =? 2) && is_leap y then 29
  else nth (Z.to_nat (m - 1)) DAYS_IN_MONTH 0.

Definition days_before_month (y m : Z) : Z :=
  foldr Z.add 0 (take (Z.to_nat (m - 1)) DAYS_IN_MONTH)
  + (if (2 <? m) && is_leap y then 1 else 0).

Definition ymd2ord (y m d : Z) : Z :=
  days_before_year y + days_before_month y m + d.

Definition toordinal (d : date) : Z := ymd2ord (year d) (month d) (day d).

(** [(a - b).days] *)
Definition days_between (a b : date) : Z := toordinal a - toordinal b.

(** *** Formatting *)

Definition digit (n : Z) : N := (48 + Z.to_N (n mod 10))%N.

Definition pad2 (n : Z) : str := [digit (n / 10); digit n].

Definition pad4 (n : Z) : str :=
  [digit (n / 1000); digit (n / 100); digit (n / 10); digit n].

Definition HYPHEN : N := 45%N.
Definition SPACE : N := 32%N.
Definition COLON : N := 58%N.

(** [d.strftime("%Y-%m-%d")] (years 1000 to 9999; the clock of the program
    never gives another). *)
Definition strftime_ymd (d : date) : str :=
  pad4 (year d) ++ [HYPHEN] ++ pad2 (month d) ++ [HYPHEN] ++ pad2 (day d).

(** [t.strftime("%Y-%m-%d %H:%M")] *)
Definition strftime_ymd_hm (t : datetime) : str :=
  strftime_ymd (dt_date t) ++ [SPACE] ++ pad2 (hour t) ++ [COLON] ++ pad2 (minute t).

(** *** Parsing: [datetime.strptime(s, "%Y-%m-%d").date()]

    [strptime] compiles the format to the regular expression
    [(\d\d\d\d)-(1[0-2]|0[1-9]|[1-9])-(3[01]|[12]\d|0[1-9]|[1-9]| [1-9])],
    matches it at the start of the text, refuses text that is left over,
    reads the three groups with [int], and then builds the date, which
    refuses year 0 and a day the month does not have.  Every refusal is a
    [ValueError]: [None] here.  The alternatives are tried in the order of
    the expression, as lists of successes. *)

(** The characters of a class such as [[1-9]] are the ASCII digits. *)
Definition digit_val (c : N) : option Z :=
  if ((48 <=? c) && (c <=? 57))%N then Some (Z.of_N c - 48) else None.

(** [\d] in a pattern over text matches the decimal digits of every
    script, and [int] reads them: [２０２４] is 2024.  Which characters they
    are is the table of the Unicode database of the interpreter, a
    collaborator that is not part of the repository.  [decimal c] is the
    value of [c] when [c] is a decimal digit.  The laws: the ASCII digits are
    decimal digits with their values, and a value is below ten. *)
Class Decimals := {
  decimal : N → option Z;
  decimal_ascii : ∀ c, (48 ≤ c ≤ 57)%N → decimal c = Some (Z.of_N c - 48);
  decimal_value : ∀ c v, decimal c = Some v → 0 ≤ v ≤ 9
}.

Definition in_range (lo hi : Z) (c : N) : option Z :=
  match digit_val c with
  | Some v => if (lo <=? v) && (v <=? hi) then Some v else None
  | None => None
  end.

(** One alternative of two characters: a first digit in [lo1..hi1], a
    second in [lo2..hi2]. *)
Definition two_digits (lo1 hi1 lo2 hi2 : Z) (s : str) : list (Z * str) :=
  match s with
  | a :: b :: rest =>
      match in_range lo1 hi1 a, in_range lo2 hi2 b with
      | Some x, Some y => [(10 * x + y, rest)]
      | _, _ => []
      end
  | _ => []
  end.

Definition one_digit (lo hi : Z) (s : str) : list (Z * str) :=
  match s with
  | a :: rest =>
      match in_range lo hi a with
      | Some x => [(x, rest)]
      | None => []
      end
  | _ => []
  end.

Definition literal (c : N) (s : str) : list str :=
  match s with
  | a :: rest => if (a =? c)%N then [rest] else []
  | [] => []
  end.

(** [1[0-2]|0[1-9]|[1-9]] *)
Definition re_month (s : str) : list (Z * str) :=
  two_digits 1 1 0 2 s ++ two_digits 0 0 1 9 s ++ one_digit 1 9 s.

Section Parsing.
Context `{Decimals}.

(** The alternative [[lo-hi]\d]: a first digit of the class, then any
    decimal digit. *)
Definition range_then_decimal (lo hi : Z) (s : str) : list (Z * str) :=
  match s with
  | a :: b :: rest =>
      match in_range lo hi a, decimal b with
      | Some x, Some y => [(10 * x + y, rest)]
      | _, _ => []
      end
  | _ => []
  end.

(** [\d\d\d\d] *)
Definition re_year (s : str) : list (Z * str) :=
  match s with
  | a :: b :: c :: d :: rest =>
      match decimal a, decimal b, decimal c, decimal d with
      | Some x, Some y, Some z, Some w => [(1000 * x + 100 * y + 10 * z + w, rest)]
      | _, _, _, _ => []
      end
  | _ => []
  end.

(** [3[0-1]|[1-2]\d|0[1-9]|[1-9]| [1-9]] *)
Definition re_day (s : str) : list (Z * str) :=
  two_digits 3 3 0 1 s ++ range_then_decimal 1 2 s ++ two_digits 0 0 1 9 s
  ++ one_digit 1 9 s
  ++ (s' ← literal SPACE s; one_digit 1 9 s').

(** All the ways the expression matches a prefix of [s], first match first. *)
Definition re_ymd (s : str) : list (date * str) :=
  '(y, s1) ← re_year s;
  s2 ← literal HYPHEN s1;
  '(m, s3) ← re_month s2;
  s4 ← literal HYPHEN s3;
  '(d, s5) ← re_day s4;
  [(Date y m d, s5)].

Definition valid_date (d : date) : bool :=
  (1 <=? year d) && (year d <=? 9999)
  && (1 <=? month d) && (month d <=? 12)
  && (1 <=? day d) && (day d <=? days_in_month (year d) (month d)).

Definition strptime_ymd (s : str) : option date :=
  match re_ymd s with
  | (d, []) :: _ => if valid_date d then Some d else None
  | _ => None
  end.
End Parsing.

(** ** The store *)

(** One entry of [WordManager.words].  [examples] holds the ["en"] and
    ["cn"] texts of each example. *)
Record WordRecord := {
  meaning : str;
  examples : list (str * str);
  review_count : Z;
  last_review : str;
  last_review_date : str;
  today_reviewed : bool
}.

(** The fields of [WordManager]. *)
Record WordManager := {
  words : gmap str WordRecord;
  today_tasks : list str;
  today_completed : gset str
}.

(** [self.words[w]["review_count"]]; the scheduler only asks for words it
    has just read from the store. *)
Definition count_of (ws : gmap str WordRecord) (w : str) : Z :=
  from_option review_count 0 (ws !! w).

(** [self.words[w].get("last_review_date", "")] *)
Definition date_of (ws : gmap str WordRecord) (w : str) : str :=
  from_option last_review_date [] (ws !! w).

(** ** The module [random]

    [seed] is [random.seed(text)], [sample] is [random.sample(population, k)]
    and [shuffle] is [random.shuffle(x)], each as a function of the state of
    the generator.  The laws are those of the library: a sample of [k] is [k]
    elements taken at distinct positions of the population, a shuffle is a
    rearrangement. *)
Class Random := {
  rng : Type;
  seed : str → rng;
  sample : rng → list str → nat → list str;
  shuffle : rng → list str → list str;
  sample_length : ∀ g pop k, (k ≤ length pop)%nat → length (sample g pop k) = k;
  sample_sub : ∀ g pop k, (k ≤ length pop)%nat → ∃ rest, sample g pop k ++ rest ≡ₚ pop;
  shuffle_perm : ∀ g l, shuffle g l ≡ₚ l
}.

(** ** [sorted(words, key=lambda w: (self.words[w]["review_count"], w))] *)

(** Python's order on the key tuples. *)
Definition key_leb (k1 k2 : Z * str) : bool :=
  (k1.1 <? k2.1) || ((k1.1 =? k2.1) && str_leb k1.2 k2.2).

Section Sorted.
Context {A : Type} (key : A → Z * str).

(** [x] goes before the first element whose key is not smaller. *)
Fixpoint insert_by (x : A) (l : list A) : list A :=
  match l with
  | [] => [x]
  | y :: l' => if key_leb (key x) (key y) then x :: y :: l' else y :: insert_by x l'
  end.

(** [sorted] is stable: the elements are inserted from the last to the
    first, so that of two equal keys the earlier element stays first. *)
Definition sorted (l : list A) : list A := foldr insert_by [] l.
End Sorted.

(** ** [WordManager.init_today_tasks] *)

Definition ebbinghaus_intervals : gmap Z Z :=
  <[3 := 2]> (<[4 := 4]> (<[5 := 7]> (<[6 := 15]> ∅))).

Definition default_interval : Z := 30.

(** [ebbinghaus_intervals.get(review_count, default_interval)] *)
Definition required_interval (rc : Z) : Z :=
  default default_interval (ebbinghaus_intervals !! rc).

(** The local lists of the function, and the set it fills. *)
Record buckets := {
  unreviewed : list str;
  reviewing : list str;
  mastered : list str;
  mastered_due : list str;
  completed : gset str
}.

Definition no_buckets : buckets :=
  {| unreviewed := []; reviewing := []; mastered := []; mastered_due := [];
     completed := ∅ |}.

(** [if last_review_date == today.strftime("%Y-%m-%d"): self.today_completed.add(word)] *)
Definition mark_if_today (today : date) (lrd w : str) (c : gset str) : gset str :=
  if bool_decide (lrd = strftime_ymd today) then {[w]} ∪ c else c.

Section Due.
Context `{Decimals}.

(** The test of lines 286 to 305: is this mastered word appended to
    [mastered_due]? *)
Definition is_due (today : date) (rc : Z) (lrd : str) : bool :=
  if bool_decide (lrd ≠ []) then
    match strptime_ymd lrd with
    | Some last_date =>
        let days_since_review := days_between today last_date in
        required_interval rc <=? days_since_review
    | None => true
    end
  else true.

(** The body of the loop over [self.words.items()]. *)
Definition classify (today : date) (b : buckets) (item : str * WordRecord) : buckets :=
  let '(word, data) := item in
  let lrd := last_review_date data in
  let rc := review_count data in
  if rc =? 0 then
    {| unreviewed := unreviewed b ++ [word]; reviewing := reviewing b;
       mastered := mastered b; mastered_due := mastered_due b;
       completed := mark_if_today today lrd word (completed b) |}
  else if rc <? 3 then
    {| unreviewed := unreviewed b; reviewing := reviewing b ++ [word];
       mastered := mastered b; mastered_due := mastered_due b;
       completed := mark_if_today today lrd word (completed b) |}
  else
    if bool_decide (lrd ≠ []) then
      match strptime_ymd lrd with
      | Some last_date =>
          let days_since_review := days_between today last_date in
          if required_interval rc <=? days_since_review then
            {| unreviewed := unreviewed b; reviewing := reviewing b;
               mastered := mastered b ++ [word];
               mastered_due := mastered_due b ++ [word];
               completed := mark_if_today today lrd word (completed b) |}
          else
            {| unreviewed := unreviewed b; reviewing := reviewing b;
               mastered := mastered b ++ [word];
               mastered_due := mastered_due b; completed := completed b |}
      | None =>
          {| unreviewed := unreviewed b; reviewing := reviewing b;
             mastered := mastered b ++ [word];
             mastered_due := mastered_due b ++ [word]; completed := completed b |}
      end
    else
      {| unreviewed := unreviewed b; reviewing := reviewing b;
         mastered := mastered b ++ [word];
         mastered_due := mastered_due b ++ [word]; completed := completed b |}.

(** The whole loop.  A dictionary yields its items in the order of their
    insertion and [map_to_list] in an order of its own; each word is met
    once either way.  The order only shows in the two lists [unreviewed] and
    [reviewing], which reach [today_tasks] through the shuffle. *)
Definition partition_words (ws : gmap str WordRecord) (today : date) : buckets :=
  foldl (classify today) no_buckets (map_to_list ws).
End Due.

(** [sorted(l, key=lambda w: (self.words[w]["review_count"], w))] *)
Definition sorted_by_count (ws : gmap str WordRecord) (l : list str) : list str :=
  sorted (λ w, (count_of ws w, w)) l.

(** [[w for w in mastered if w not in mastered_due]] *)
Definition not_due_of (b : buckets) : list str :=
  filter (λ w, w ∉ mastered_due b) (mastered b).

(** [not_due_sorted[:candidate_count]] *)
Definition candidates_of (ws : gmap str WordRecord) (not_due : list str) : list str :=
  let not_due_sorted := sorted_by_count ws not_due in
  let candidate_count := Z.max 10 (Z.of_nat (length not_due_sorted) / 3) in
  take (Z.to_nat candidate_count) not_due_sorted.

(** [sample_count] *)
Definition sample_count_of (b : buckets) (candidates : list str) : Z :=
  let need_count := 10 - Z.of_nat (length (mastered_due b)) in
  Z.min need_count (Z.of_nat (length candidates)).

(** Does the function reach the seeded draw?  It does when fewer than ten
    mastered words are due and some mastered word is not due. *)
Definition backfills (b : buckets) : bool :=
  (Z.of_nat (length (mastered_due b)) <? 10)
  && bool_decide (mastered b ≠ [])
  && bool_decide (not_due_of b ≠ []).

Section Scheduler.
Context `{Decimals} `{Random}.

(** [sampled]: the words drawn with the generator seeded by today's date
    text; nothing when the draw is not reached. *)
Definition sampled_of (ws : gmap str WordRecord) (today : date) (b : buckets) : list str :=
  if backfills b then
    let candidates := candidates_of ws (not_due_of b) in
    sample (seed (strftime_ymd today)) candidates
           (Z.to_nat (sample_count_of b candidates))
  else [].

(** [self.today_tasks] just before the shuffle. *)
Definition tasks_in_order (ws : gmap str WordRecord) (today : date) : list str :=
  let b := partition_words ws today in
  unreviewed b ++ reviewing b
  ++ (if bool_decide (mastered_due b ≠ []) then sorted_by_count ws (mastered_due b) else [])
  ++ sampled_of ws today b.

(** The loop over [sampled] that marks the words reviewed today. *)
Definition mark_sampled (ws : gmap str WordRecord) (today : date)
    (sampled : list str) (c : gset str) : gset str :=
  foldl (λ c w, mark_if_today today (date_of ws w) w c) c sampled.

(** The generator is the ambient state of the module [random] when the
    function starts ([ambient]); [random.seed()] replaces it by fresh
    entropy of the system ([entropy]) after the seeded draw.  The final
    [random.shuffle] uses whichever is current. *)
Definition shuffle_state (b : buckets) (ambient entropy : rng) : rng :=
  if backfills b then entropy else ambient.

(** The function: the store is read, the two task fields are replaced. *)
Definition init_today_tasks (today : date) (ambient entropy : rng)
    (m : WordManager) : WordManager :=
  let ws := words m in
  let b := partition_words ws today in
  let sampled := sampled_of ws today b in
  {| words := ws;
     today_tasks := shuffle (shuffle_state b ambient entropy) (tasks_in_order ws today);
     today_completed := mark_sampled ws today sampled (completed b) |}.
End Scheduler.

(** ** Whitespace and [str.strip] *)

(** [c.isspace()], which is also the class [\s] of [re] on text. *)
Definition isspace (c : N) : bool :=
  ((9 <=? c) && (c <=? 13) || (28 <=? c) && (c <=? 32)
   || (c =? 0x85) || (c =? 0xA0) || (c =? 0x1680)
   || (0x2000 <=? c) && (c <=? 0x200A)
   || (c =? 0x2028) || (c =? 0x2029) || (c =? 0x202F) || (c =? 0x205F)
   || (c =? 0x3000))%N.

Fixpoint lstrip_by (f : N → bool) (s : str) : str :=
  match s with
  | c :: s' => if f c then lstrip_by f s' else s
  | [] => []
  end.

(** [s.strip(chars)] for the characters accepted by [f]. *)
Definition strip_by (f : N → bool) (s : str) : str :=
  reverse (lstrip_by f (reverse (lstrip_by f s))).

(** [s.strip()] *)
Definition strip (s : str) : str := strip_by isspace s.

(** ** The other operations of [WordManager] *)

(** [add_word] (the manager after the call): the new record, when the
    stripped word is not empty and not a key yet. *)
Definition add_word (word meaning : str) (exs : list (str * str)) (m : WordManager) : WordManager :=
  let word := strip word in
  if bool_decide (word ≠ []) && bool_decide (words m !! word = None) then
    {| words := <[word := {| meaning := strip meaning; examples := exs;
                            review_count := 0; last_review := [];
                            last_review_date := []; today_reviewed := false |}]> (words m);
       today_tasks := today_tasks m;
       today_completed := today_completed m |}
  else m.

(** [review_word]: the first reading of the clock gives [last_review], the
    second gives [last_review_date]. *)
Definition review_word (t1 t2 : datetime) (word : str) (m : WordManager) : WordManager :=
  match words m !! word with
  | Some r =>
      {| words := <[word := {| meaning := meaning r; examples := examples r;
                              review_count := review_count r + 1;
                              last_review := strftime_ymd_hm t1;
                              last_review_date := strftime_ymd (dt_date t2);
                              today_reviewed := true |}]> (words m);
         today_tasks := today_tasks m;
         today_completed := {[word]} ∪ today_completed m |}
  | None => m
  end.

(** [mark_reviewed_without_count] *)
Definition mark_reviewed_without_count (t1 t2 : datetime) (word : str) (m : WordManager) : WordManager :=
  match words m !! word with
  | Some r =>
      {| words := <[word := {| meaning := meaning r; examples := examples r;
                              review_count := review_count r;
                              last_review := strftime_ymd_hm t1;
                              last_review_date := strftime_ymd (dt_date t2);
                              today_reviewed := true |}]> (words m);
         today_tasks := today_tasks m;
         today_completed := {[word]} ∪ today_completed m |}
  | None => m
  end.

(** [delete_word] (the manager after the call; the Boolean result is whether
    the word was a key). *)
Definition delete_word (word : str) (m : WordManager) : WordManager :=
  {| words := delete word (words m);
     today_tasks := today_tasks m;
     today_completed := today_completed m |}.

(** [delete_words] *)
Definition delete_words (l : list str) (m : WordManager) : WordManager :=
  foldl (λ m w, delete_word w m) m l.

(** [get_words_to_review] *)
Definition get_words_to_review (m : WordManager) : list str :=
  filter (λ w, w ∉ today_completed m) (today_tasks m).

(** The two outcomes of a grading, [mark_as_known] and [mark_as_unknown]. *)
Inductive outcome := Known | Unknown.

Definition grade (o : outcome) (t1 t2 : datetime) (word : str) (m : WordManager) : WordManager :=
  match o with
  | Known => review_word t1 t2 word m
  | Unknown => mark_reviewed_without_count t1 t2 word m
  end.

(** ** [str.lower]

    The case mapping of Unicode is the library's.  What the program relies
    on is its action on ASCII text. *)
Definition ascii_lower (c : N) : N :=
  if ((65 <=? c) && (c <=? 90))%N then (c + 32)%N else c.

Definition is_ascii (c : N) : Prop := (c < 128)%N.

Definition all_ascii (s : str) : bool := forallb (λ c, (c <? 128)%N) s.

Class Lowering := {
  lower : str → str;
  lower_ascii : ∀ s, Forall is_ascii s → lower s = map ascii_lower s
}.

(** ** [MainWindow.fuzzy_match] *)

Fixpoint startswith (s p : str) : bool :=
  match p, s with
  | [], _ => true
  | _ :: _, [] => false
  | x :: p', y :: s' => (x =? y)%N && startswith s' p'
  end.

(** [needle in hay] *)
Fixpoint contains (hay needle : str) : bool :=
  startswith hay needle
  || match hay with
     | [] => false
     | _ :: hay' => contains hay' needle
     end.

(** [s.replace(" ", "")] *)
Definition remove_spaces (s : str) : str := filter (λ c, c ≠ SPACE) s.

(** [s.split(sep)[0]] for a separator of one character: the text before its
    first occurrence, all the text when it does not occur. *)
Fixpoint split_head (sep : N) (s : str) : str :=
  match s with
  | [] => []
  | c :: s' => if (c =? sep)%N then [] else c :: split_head sep s'
  end.

Definition FULLWIDTH_SEMICOLON : N := 0xFF1B%N.
Definition FULLWIDTH_COMMA : N := 0xFF0C%N.
Definition IDEOGRAPHIC_COMMA : N := 0x3001%N.
Definition SEMICOLON : N := 59%N.

(** [s[i:i+2]] *)
Definition slice2 (s : str) (i : nat) : str := take 2 (drop i s).

Section Matcher.
Context `{Lowering}.

(** [s.lower().replace(" ", "")] *)
Definition normalize (s : str) : str := remove_spaces (lower s).

(** [a in b or b in a] *)
Definition either_contains (a b : str) : bool := contains b a || contains a b.

(** The first test, line 1059. *)
Definition whole_test (user_input correct : str) : bool :=
  either_contains (normalize user_input) (normalize correct).

(** [keywords], lines 1062 and 1063. *)
Definition keywords_of (correct : str) : str :=
  let keywords :=
    split_head SEMICOLON
      (split_head IDEOGRAPHIC_COMMA
         (split_head FULLWIDTH_COMMA
            (split_head FULLWIDTH_SEMICOLON correct))) in
  lower (remove_spaces keywords).

(** The second test, line 1064. *)
Definition keywords_test (user_input correct : str) : bool :=
  either_contains (normalize user_input) (keywords_of correct).

(** The third test, lines 1067 to 1070. *)
Definition bigram_test (user_input correct : str) : bool :=
  let user_input := normalize user_input in
  let correct_lower := normalize correct in
  (2 <=? length user_input)%nat
  && existsb (λ i, contains user_input (slice2 correct_lower i))
             (seq 0 (length correct_lower - 1)).

Definition fuzzy_match (user_input correct : str) : bool :=
  if whole_test user_input correct then true
  else if keywords_test user_input correct then true
  else if bigram_test user_input correct then true
  else false.
End Matcher.

(** ** [WordManager.import_words_only] *)

Definition CR : N := 13%N.
Definition LF : N := 10%N.

(** [text.replace('\r\n', '\n')] *)
Fixpoint replace_crlf (s : str) : str :=
  match s with
  | [] => []
  | c :: s' =>
      if (c =? CR)%N && bool_decide (head s' = Some LF) then replace_crlf s'
      else c :: replace_crlf s'
  end.

(** [text.replace('\r', '\n')] *)
Definition replace_cr (s : str) : str :=
  map (λ c, if (c =? CR)%N then LF else c) s.

(** [text.split(sep)] for a separator of one character. *)
Fixpoint split_on (sep : N) (s : str) : list str :=
  match s with
  | [] => [[]]
  | c :: s' =>
      if (c =? sep)%N then [] :: split_on sep s'
      else match split_on sep s' with
           | piece :: more => (c :: piece) :: more
           | [] => [[c]]
           end
  end.

(** The class [[,;，；\t、/|]]. *)
Definition is_delimiter (c : N) : bool :=
  ((c =? 44) || (c =? 59) || (c =? 0xFF0C) || (c =? 0xFF1B) || (c =? 9)
   || (c =? 0x3001) || (c =? 47) || (c =? 124))%N.

(** [re.split(r'[,;，；\t、/|]+', line)]: the text is cut at each maximal run
    of delimiters; [in_run] tells that the character before was one. *)
Fixpoint re_split_from (in_run : bool) (s : str) : list str :=
  match s with
  | [] => [[]]
  | c :: s' =>
      if is_delimiter c then
        if in_run then re_split_from true s' else [] :: re_split_from true s'
      else match re_split_from false s' with
           | piece :: more => (c :: piece) :: more
           | [] => [[c]]
           end
  end.

Definition re_split (s : str) : list str := re_split_from false s.

(** The class [[A-Za-z]]. *)
Definition is_alpha (c : N) : bool :=
  ((65 <=? c) && (c <=? 90) || (97 <=? c) && (c <=? 122))%N.

(** [re.match(r'^[A-Za-z]+(?:\s+[A-Za-z]+)+$', part)], as the automaton of
    the expression: letters, then at least once white space and letters.
    Letters and white space are disjoint, so the match is deterministic. *)
Inductive phrase_state :=
  | AtStart        (* nothing read *)
  | InFirstWord    (* in the first run of letters *)
  | InGap          (* in white space after a word *)
  | InLaterWord    (* in a run of letters after a gap: accepting *)
  | Rejected.

Definition phrase_step (q : phrase_state) (c : N) : phrase_state :=
  match q with
  | AtStart => if is_alpha c then InFirstWord else Rejected
  | InFirstWord =>
      if is_alpha c then InFirstWord else if isspace c then InGap else Rejected
  | InGap =>
      if is_alpha c then InLaterWord else if isspace c then InGap else Rejected
  | InLaterWord =>
      if is_alpha c then InLaterWord else if isspace c then InGap else Rejected
  | Rejected => Rejected
  end.

Definition is_phrase (part : str) : bool :=
  match foldl phrase_step AtStart part with
  | InLaterWord => true
  | _ => false
  end.

(** The class [[-']]. *)
Definition is_joiner (c : N) : bool := ((c =? 45) || (c =? 39))%N.

Definition flush (cur : str) (found : list str) : list str :=
  if bool_decide (cur ≠ []) then found ++ [cur] else found.

(** [re.findall(r"[A-Za-z]+(?:[-'][A-Za-z]+)*", part)]: [cur] is the match
    being read (it ends with a letter when it is not empty); a joiner
    extends it only when a letter follows. *)
Fixpoint findall_from (cur : str) (found : list str) (s : str) : list str :=
  match s with
  | [] => flush cur found
  | c :: s' =>
      if is_alpha c then findall_from (cur ++ [c]) found s'
      else if is_joiner c && bool_decide (cur ≠ [])
              && from_option is_alpha false (head s')
      then findall_from (cur ++ [c]) found s'
      else findall_from [] (flush cur found) s'
  end.

Definition findall_words (part : str) : list str := findall_from [] [] part.

(** [word.isdigit()] on the matches of the expression above: they hold no
    character outside letters, [-] and [']. *)
Definition isdigit (s : str) : bool :=
  bool_decide (s ≠ []) && forallb (λ c, (48 <=? c) && (c <=? 57))%N s.

Definition skip_words : list str :=
  [ [0x5355; 0x8BCD]%N; py "word"; py "words"; [0x8BCD; 0x6C47]%N;
    [0x82F1; 0x8BED]%N; py "english"; py "vocabulary";
    [0x8BE6; 0x7EC6; 0x542B; 0x4E49]%N; [0x542B; 0x4E49]%N;
    [0x610F; 0x601D]%N; py "meaning"; py "definition" ].

Section Importer.
Context `{Lowering}.

(** [any(w.lower() == word_lower for w in self.words.keys())] *)
Definition exists_lower (ws : gmap str WordRecord) (word_lower : str) : bool :=
  existsb (λ w, bool_decide (lower w = word_lower)) (map_to_list ws).*1.

(** The body of the loop over [matches]. *)
Definition take_word (ws : gmap str WordRecord) (acc : gset str) (word : str) : gset str :=
  let word := strip_by is_joiner word in
  let word_lower := lower word in
  if (2 <=? length word)%nat && negb (isdigit word)
     && bool_decide (lower word ∉ skip_words)
     && negb (exists_lower ws word_lower)
  then {[word]} ∪ acc else acc.

(** The body of the loop over [parts]. *)
Definition take_part (ws : gmap str WordRecord) (acc : gset str) (part : str) : gset str :=
  let part := strip part in
  if bool_decide (part = []) then acc
  else if is_phrase part then
    let phrase_lower := lower part in
    if (3 <=? length part)%nat
       && bool_decide (lower part ∉ skip_words)
       && negb (exists_lower ws phrase_lower)
    then {[part]} ∪ acc else acc
  else foldl (take_word ws) acc (findall_words part).

(** The body of the loop over the lines. *)
Definition take_line (ws : gmap str WordRecord) (acc : gset str) (line : str) : gset str :=
  let line := strip line in
  if bool_decide (line = []) then acc
  else foldl (take_part ws) acc (re_split line).

(** The set [words] when the function returns. *)
Definition import_words_set (ws : gmap str WordRecord) (text : str) : gset str :=
  let text := replace_cr (replace_crlf text) in
  foldl (take_line ws) ∅ (split_on LF text).

(** [import_words_only]: [list(words)]; Python fixes no order for it. *)
Definition import_words_only (ws : gmap str WordRecord) (text : str) : list str :=
  elements (import_words_set ws text).
End Importer.

(** ** [MainWindow.check_answer], up to the verdict *)

(** What a call comes to: the hint of line 997 when no word is current, the
    silent return of line 1002 when the answer is empty once stripped, the
    [KeyError] of line 1004 when the current word is not a key of the store,
    or the verdict of the matcher, which the result label then shows. *)
Inductive checked :=
  | NoCurrentWord
  | NoAnswer
  | NotStored
  | Verdict (is_correct : bool).

Section Checking.
Context `{Lowering}.

(** [current_word] is [self.current_word], [None] at the start and when
    the tasks of the day are done; [not self.current_word] also holds of
    the empty text.  [answer] is the text of the input field. *)
Definition check_answer (current_word : option str) (ws : gmap str WordRecord)
    (answer : str) : checked :=
  match current_word with
  | None | Some [] => NoCurrentWord
  | Some word =>
      let user_answer := strip answer in
      if bool_decide (user_answer = []) then NoAnswer
      else
        match ws !! word with
        | Some word_data =>
            let correct_meaning := meaning word_data in
            Verdict (fuzzy_match user_answer correct_meaning)
        | None => NotStored
        end
  end.
End Checking.

(** ** Values to run the model on *)

(** The decimal digits of Python 3.11 (Unicode 14.0), by the zero of each
    script: a zero is followed by the digits one to nine of its script. *)
Definition decimal_zeros : list N :=
  [0x30; 0x660; 0x6F0; 0x7C0; 0x966; 0x9E6; 0xA66; 0xAE6; 0xB66; 0xBE6;
   0xC66; 0xCE6; 0xD66; 0xDE6; 0xE50; 0xED0; 0xF20; 0x1040; 0x1090; 0x17E0;
   0x1810; 0x1946; 0x19D0; 0x1A80; 0x1A90; 0x1B50; 0x1BB0; 0x1C40; 0x1C50;
   0xA620; 0xA8D0; 0xA900; 0xA9D0; 0xA9F0; 0xAA50; 0xABF0; 0xFF10; 0x104A0;
   0x10D30; 0x11066; 0x110F0; 0x11136; 0x111D0; 0x112F0; 0x11450; 0x114D0;
   0x11650; 0x116C0; 0x11730; 0x118E0; 0x11950; 0x11C50; 0x11D50; 0x11DA0;
   0x16A60; 0x16AC0; 0x16B50; 0x1D7CE; 0x1D7D8; 0x1D7E2; 0x1D7EC; 0x1D7F6;
   0x1E140; 0x1E2F0; 0x1E950; 0x1FBF0]%N.

Definition unicode_decimal (c : N) : option Z :=
  match find (λ z, (z <=? c) && (c <? z + 10))%N decimal_zeros with
  | Some z => Some (Z.of_N (c - z))
  | None => None
  end.

(** [str.lower] on text whose cased letters are ASCII. *)
#[export] Instance ascii_lowering : Lowering :=
  {| lower := map ascii_lower; lower_ascii := λ s _, eq_refl |}.

(** A generator state is a number; drawing turns the list by it. *)
Definition turn (g : nat) (l : list str) : list str :=
  drop (g `mod` length l) l ++ take (g `mod` length l) l.

Definition code_sum (s : str) : nat := N.to_nat (foldr N.add 0%N s).

(** A record as [add_word] makes it, with a count and a date of review. *)
Definition entry (rc : Z) (lrd : str) : WordRecord :=
  {| meaning := py "-"; examples := []; review_count := rc;
     last_review := []; last_review_date := lrd; today_reviewed := false |}.

Definition start (ws : gmap str WordRecord) : WordManager :=
  {| words := ws; today_tasks := []; today_completed := ∅ |}.

Definition march_16 : date := Date 2024 3 16.
Definition noon (d : date) : datetime := DateTime d 12 0.

(** One word, six reviews, the last fifteen days before [march_16]. *)
Definition lucid_store : gmap str WordRecord :=
  {[ py "lucid" := entry 6 (py "2024-03-01") ]}.

(** Ten mastered words never dated, and one reviewed the day before
    [march_16]. *)
Definition crowded_store : gmap str WordRecord :=
  list_to_map
    ((py "fresh", entry 3 (py "2024-03-15"))
     :: map (λ w, (py w, entry 3 []))
          ["w0"; "w1"; "w2"; "w3"; "w4"; "w5"; "w6"; "w7"; "w8"; "w9"]%string).

(** One mastered word that is due on [march_16] and two that are not:
    [keen] was reviewed the day before, [apex] six days before. *)
Definition backfill_store : gmap str WordRecord :=
  {[ py "lucid" := entry 6 (py "2024-03-01");
     py "keen" := entry 3 (py "2024-03-15");
     py "apex" := entry 7 (py "2024-03-10") ]}.

(** The text of the import scenario: [apple, 苹果], a line feed,
    [apple,duplicate]. *)
Definition scenario_text : str :=
  py "apple, " ++ [0x82F9; 0x679C; LF]%N ++ py "apple,duplicate".

(** [completed ⊆ tasks] *)
Definition completed_in_tasks (m : WordManager) : Prop :=
  ∀ w, w ∈ today_completed m → w ∈ today_tasks m.

(** The order of [sorted]: the key of [a] is at most the key of [b]. *)
Definition key_le (ws : gmap str WordRecord) (a b : str) : Prop :=
  key_leb (count_of ws a, a) (count_of ws b, b) = true.

(** What is marked completed in the loop has been put in a list that goes
    to the tasks. *)
Definition marked_listed (b : buckets) : Prop :=
  ∀ w, w ∈ completed b →
       w ∈ unreviewed b ∨ w ∈ reviewing b ∨ w ∈ mastered_due b.

(** The words of [today_tasks] that come from the draw: those of the
    mastered words that are not due. *)
Definition backfilled_of `{Decimals} (ws : gmap str WordRecord) (today : date)
    (m : WordManager) : gset str :=
  list_to_set (filter (λ w, w ∈ not_due_of (partition_words ws today)) (today_tasks m)).

(** The parts of a text that [import_words_only] takes whole, as phrases. *)
Definition phrases_of (text : str) : list str :=
  line ← split_on LF (replace_cr (replace_crlf text));
  part ← re_split (strip line);
  if is_phrase (strip part) then [strip part] else [].

(** What [findall] returns is made of letters, [-] and [']. *)
Definition word_char (c : N) : Prop := is_alpha c = true ∨ is_joiner c = true.

(** A character that is not of the class [[A-Za-z]]. *)
Definition no_letter (c : N) : Prop := is_alpha c = false.

(** ** What the deletions return *)

(** The Boolean [delete_word] returns: was the word a key? *)
Definition delete_word_result (word : str) (m : WordManager) : bool :=
  bool_decide (is_Some (words m !! word)).

(** The body of the loop of [delete_words], on the store and [count]. *)
Definition delete_counting (acc : gmap str WordRecord * Z) (word : str) :
    gmap str WordRecord * Z :=
  if bool_decide (is_Some (acc.1 !! word)) then (delete word acc.1, acc.2 + 1) else acc.

(** The number [delete_words] returns. *)
Definition delete_words_count (l : list str) (m : WordManager) : Z :=
  (foldl delete_counting (words m, 0) l).2.

(** ** The numbers of [MainWindow.update_stats] *)

(** [get_mastered_words] *)
Definition get_mastered_words (m : WordManager) : gmap str WordRecord :=
  filter (λ i, 3 ≤ review_count i.2) (words m).

(** [get_unreviewed_words] *)
Definition get_unreviewed_words (m : WordManager) : gmap str WordRecord :=
  filter (λ i, review_count i.2 = 0) (words m).

(** The numbers put in the label, in its order. *)
Record stats := {
  total : Z;
  unreviewed_total : Z;
  reviewing_total : Z;
  mastered_total : Z;
  today_done : Z;
  today_total : Z
}.

Definition update_stats (m : WordManager) : stats :=
  let total := Z.of_nat (size (words m)) in
  let unreviewed := Z.of_nat (size (get_unreviewed_words m)) in
  let mastered := Z.of_nat (size (get_mastered_words m)) in
  let reviewing := total - unreviewed - mastered in
  {| total := total; unreviewed_total := unreviewed; reviewing_total := reviewing;
     mastered_total := mastered;
     today_done := Z.of_nat (size (today_completed m));
     today_total := Z.of_nat (length (today_tasks m)) |}.

(** The words [update_table] shows for the entry [filter_idx] of the
    filter: all, not reviewed, reviewed once or twice, mastered. *)
Definition table_words (filter_idx : Z) (m : WordManager) : gmap str WordRecord :=
  if filter_idx =? 0 then words m
  else if filter_idx =? 1 then get_unreviewed_words m
  else if filter_idx =? 2 then
    filter (λ i, 0 < review_count i.2 ∧ review_count i.2 < 3) (words m)
  else get_mastered_words m.

(** No record has a negative count. *)
Definition counts_nonneg (ws : gmap str WordRecord) : Prop :=
  ∀ w r, ws !! w = Some r → 0 ≤ review_count r.

(** ** [WordManager.load_data]: the records of older files

    A record read from the file may lack the keys [last_review],
    [last_review_date] and [today_reviewed]; [None] is a key that is not
    there. *)
Record RawRecord := {
  raw_meaning : str;
  raw_examples : list (str * str);
  raw_review_count : Z;
  raw_last_review : option str;
  raw_last_review_date : option str;
  raw_today_reviewed : option bool
}.

(** The body of the loop of [load_data]. *)
Definition migrate (info : RawRecord) : RawRecord :=
  let date_key :=
    match raw_last_review_date info with
    | Some d => Some d
    | None =>
        let last_review := default [] (raw_last_review info) in
        if bool_decide (last_review ≠ []) && (10 <=? length last_review)%nat
        then Some (take 10 last_review)
        else Some []
    end in
  let reviewed_key :=
    match raw_today_reviewed info with
    | Some f => Some f
    | None => Some false
    end in
  {| raw_meaning := raw_meaning info; raw_examples := raw_examples info;
     raw_review_count := raw_review_count info;
     raw_last_review := raw_last_review info;
     raw_last_review_date := date_key;
     raw_today_reviewed := reviewed_key |}.

(** The store [load_data] keeps (and saves), from the one it reads. *)
Definition load_data (data : gmap str RawRecord) : gmap str RawRecord :=
  migrate <$> data.

(** A record as the program writes it: every key is there. *)
Definition to_raw (r : WordRecord) : RawRecord :=
  {| raw_meaning := meaning r; raw_examples := examples r;
     raw_review_count := review_count r;
     raw_last_review := Some (last_review r);
     raw_last_review_date := Some (last_review_date r);
     raw_today_reviewed := Some (today_reviewed r) |}.

(** ** [should_backup_today]

    [flag] is the text of the file [last_backup.txt], [None] when the file
    is not there or cannot be read. *)
Definition should_backup_today (flag : option str) (today : date) : bool :=
  match flag with
  | None => true
  | Some last_backup => bool_decide (strip last_backup ≠ strftime_ymd today)
  end.

(** What [backup_to_mysql] writes in the file when it has succeeded. *)
Definition backup_flag (today : date) : option str := Some (strftime_ymd today).

(** ** [WordManager.import_from_text] and [export_to_text] *)

Definition COMMA : N := 44%N.

(** The word of the header line, [单词]. *)
Definition HEADER_WORD : str := [0x5355; 0x8BCD]%N.

(** The header line of the export, [单词,详细含义]. *)
Definition HEADER_LINE : str :=
  HEADER_WORD ++ [COMMA] ++ [0x8BE6; 0x7EC6; 0x542B; 0x4E49]%N.

(** [line.split(sep, 1)] when [sep] is in the line: the text before the
    first separator and the text after it; [None] when it is not in the
    line. *)
Fixpoint split_once (sep : N) (s : str) : option (str * str) :=
  match s with
  | [] => None
  | c :: s' =>
      if (c =? sep)%N then Some ([], s')
      else match split_once sep s' with
           | Some (first, second) => Some (c :: first, second)
           | None => None
           end
  end.

(** The Boolean [add_word] and [add_word_auto] return: the stripped word
    is not empty and not a key. *)
Definition add_word_ok (word : str) (m : WordManager) : bool :=
  bool_decide (strip word ≠ []) && bool_decide (words m !! strip word = None).

(** The manager and the three values [import_from_text] returns. *)
Record import_result := {
  imported : WordManager;
  import_count : Z;
  added_words : list (str * str);
  import_skipped : Z
}.

Section TextImport.
Context `{Lowering}.

(** The body of the loop over the lines. *)
Definition import_line (st : import_result) (line : str) : import_result :=
  match split_once COMMA line with
  | Some (first, second) =>
      if bool_decide (strip first ≠ HEADER_WORD) then
        let word := strip first in
        let word_lower := lower word in
        if exists_lower (words (imported st)) word_lower then
          {| imported := imported st; import_count := import_count st;
             added_words := added_words st;
             import_skipped := import_skipped st + 1 |}
        else if add_word_ok word (imported st) then
          {| imported := add_word word second [] (imported st);
             import_count := import_count st + 1;
             added_words := added_words st ++ [(word, second)];
             import_skipped := import_skipped st |}
        else st
      else st
  | None => st
  end.

Definition import_from_text (text : str) (m : WordManager) : import_result :=
  foldl import_line
    {| imported := m; import_count := 0; added_words := []; import_skipped := 0 |}
    (split_on LF (strip text)).
End TextImport.

(** ['\n'.join(lines)] *)
Fixpoint join_lines (lines : list str) : str :=
  match lines with
  | [] => []
  | [line] => line
  | line :: more => line ++ LF :: join_lines more
  end.

(** [export_to_text], from the items of the store in the order in which
    the dictionary yields them. *)
Definition export_to_text (items : list (str * WordRecord)) : str :=
  join_lines (HEADER_LINE :: map (λ i, i.1 ++ COMMA :: meaning i.2) items).

(** ** [WordManager.add_word_auto] and [FetchWorker.run] *)

(** The meaning stored when the look-up finds none, [(未找到释义)]. *)
Definition NOT_FOUND : str := [0x28; 0x672A; 0x627E; 0x5230; 0x91CA; 0x4E49; 0x29]%N.

(** [add_word_auto]; [fetch] is what [fetch_meaning] answers for the
    stripped word, which is asked only when the word is to be stored. *)
Definition add_word_auto (fetch : str → str * list (str * str)) (word : str)
    (m : WordManager) : WordManager * (bool * str) :=
  let word := strip word in
  if bool_decide (word = []) || bool_decide (is_Some (words m !! word)) then
    (m, (false, []))
  else
    let '(found, exs) := fetch word in
    let meaning_text := if bool_decide (found = []) then NOT_FOUND else found in
    ({| words := <[word := {| meaning := meaning_text; examples := exs;
                              review_count := 0; last_review := [];
                              last_review_date := []; today_reviewed := false |}]> (words m);
        today_tasks := today_tasks m;
        today_completed := today_completed m |},
     (true, meaning_text)).

(** The state of [FetchWorker.run]: the manager, [count], [added_words]. *)
Record fetch_result := {
  fetched_into : WordManager;
  fetch_count : Z;
  fetched_words : list (str * str)
}.

(** The body of the loop, for a word that the flag [cancelled] lets
    through. *)
Definition fetch_one (fetch : str → str * list (str * str)) (st : fetch_result)
    (word : str) : fetch_result :=
  let '(m, (success, meaning_text)) := add_word_auto fetch word (fetched_into st) in
  if success then
    {| fetched_into := m; fetch_count := fetch_count st + 1;
       fetched_words := fetched_words st ++ [(word, meaning_text)] |}
  else
    {| fetched_into := m; fetch_count := fetch_count st;
       fetched_words := fetched_words st |}.

(** [run]: the flag [cancelled], which is only ever set, is found set
    when [seen] words have been handled (never, when [seen] is at least
    their number). *)
Definition run (fetch : str → str * list (str * str)) (seen : nat)
    (word_list : list str) (m : WordManager) : fetch_result :=
  foldl (fetch_one fetch)
    {| fetched_into := m; fetch_count := 0; fetched_words := [] |}
    (take seen word_list).

(** The keys of the store are told apart by their lowered text. *)
Definition lower_distinct `{Lowering} (ws : gmap str WordRecord) : Prop :=
  ∀ k1 k2, is_Some (ws !! k1) → is_Some (ws !! k2) → lower k1 = lower k2 → k1 = k2.

(** The record of a word that has just been added. *)
Definition fresh_record (meaning_text : str) (exs : list (str * str)) : WordRecord :=
  {| meaning := meaning_text; examples := exs; review_count := 0;
     last_review := []; last_review_date := []; today_reviewed := false |}.

(** [s.rstrip(chars)] for the characters accepted by [f]; [strip_by] is
    [rstrip_by] after [lstrip_by]. *)
Definition rstrip_by (f : N → bool) (s : str) : str :=
  reverse (lstrip_by f (reverse s)).

(** The line [export_to_text] writes for a word and a meaning. *)
Definition export_line (p : str * str) : str := p.1 ++ COMMA :: p.2.

(** The words and meanings of the lines of an export once the text is
    stripped as a whole: the last meaning loses its trailing white space. *)
Fixpoint rstrip_last (pairs : list (str * str)) : list (str * str) :=
  match pairs with
  | [] => []
  | [p] => [(p.1, rstrip_by isspace p.2)]
  | p :: more => p :: rstrip_last more
  end.

(** * Properties *)

(** ** The table of decimal digits *)

Lemma unicode_decimal_ascii c :
  (48 ≤ c ≤ 57)%N → unicode_decimal c = Some (Z.of_N c - 48).
Proof.
  intros Hc. unfold unicode_decimal, decimal_zeros. cbn [find].
  destruct (N.leb_spec 48 c) as [_|?]; [|lia].
  destruct (N.ltb_spec c (48 + 10)) as [_|?]; [|lia].
  cbn [andb]. f_equal. lia.
Qed.

Lemma unicode_decimal_value c v : unicode_decimal c = Some v → 0 ≤ v ≤ 9.
Proof.
  unfold unicode_decimal.
  destruct (find _ _) as [z|] eqn:Hz; [|done].
  apply find_some in Hz as [_ Hz]. apply andb_true_iff in Hz as [Hlo Hhi].
  apply N.leb_le in Hlo. apply N.ltb_lt in Hhi.
  intros [= <-]. lia.
Qed.

#[export] Instance unicode_decimals : Decimals :=
  {| decimal := unicode_decimal;
     decimal_ascii := unicode_decimal_ascii;
     decimal_value := unicode_decimal_value |}.

(** ** The calendar, on examples *)

Example strptime_plain : strptime_ymd (py "2024-03-01") = Some (Date 2024 3 1).
Proof. reflexivity. Qed.

Example strptime_short : strptime_ymd (py "2024-3-1") = Some (Date 2024 3 1).
Proof. reflexivity. Qed.

Example strptime_feb30 : strptime_ymd (py "2024-02-30") = None.
Proof. reflexivity. Qed.

Example strptime_left_over : strptime_ymd (py "2024-03-015") = None.
Proof. reflexivity. Qed.

Example strptime_words : strptime_ymd (py "yesterday") = None.
Proof. reflexivity. Qed.

(** The digits of the year, and the second digit of a day from 10 to 29,
    may be of any script: here the full-width ones.  The classes of the
    month take the ASCII digits only. *)
Example strptime_fullwidth_year :
  strptime_ymd ([0xFF12; 0xFF10; 0xFF12; 0xFF14]%N ++ py "-03-15") = Some (Date 2024 3 15).
Proof. reflexivity. Qed.

Example strptime_fullwidth_day :
  strptime_ymd (py "2024-03-1" ++ [0xFF15]%N) = Some (Date 2024 3 15).
Proof. reflexivity. Qed.

Example strptime_fullwidth_month :
  strptime_ymd (py "2024-0" ++ [0xFF13]%N ++ py "-15") = None.
Proof. reflexivity. Qed.

Example strptime_year_zero : strptime_ymd (py "0000-01-01") = None.
Proof. reflexivity. Qed.

(** A date in full-width digits is a date: reviewed the day before, a word
    with three reviews is not due. *)
Example fullwidth_date_not_due :
  is_due (Date 2024 3 16) 3 ([0xFF12; 0xFF10; 0xFF12; 0xFF14]%N ++ py "-03-15") = false.
Proof. reflexivity. Qed.

Example strftime_example : strftime_ymd (Date 2024 3 1) = py "2024-03-01".
Proof. reflexivity. Qed.

Example toordinal_example : toordinal (Date 2024 3 16) = 738961.
Proof. reflexivity. Qed.

Example days_between_example :
  days_between (Date 2024 3 16) (Date 2024 3 1) = 15.
Proof. reflexivity. Qed.

(** ** The order of the keys *)

Lemma str_leb_total a b : str_leb a b = false → str_leb b a = true.
Proof.
  revert b. induction a as [|x a IH]; intros [|y b]; simpl; try done.
  intros Hab. apply orb_false_iff in Hab as [Hlt Hrest].
  apply N.ltb_ge in Hlt.
  destruct (N.eqb_spec x y) as [->|Hne].
  - rewrite N.eqb_refl, N.ltb_irrefl. simpl in *. by apply IH.
  - assert ((y <? x)%N = true) as -> by (apply N.ltb_lt; lia). done.
Qed.

Lemma str_leb_refl a : str_leb a a = true.
Proof.
  induction a as [|x a IH]; simpl; [done|].
  by rewrite N.eqb_refl, IH, orb_true_r.
Qed.

Lemma str_leb_trans a b c :
  str_leb a b = true → str_leb b c = true → str_leb a c = true.
Proof.
  revert b c. induction a as [|x a IH]; intros [|y b] [|z c]; simpl; try done.
  intros Hab Hbc.
  apply orb_true_iff in Hab as [Hxy|Hxy]; apply orb_true_iff in Hbc as [Hyz|Hyz].
  - apply N.ltb_lt in Hxy, Hyz.
    assert ((x <? z)%N = true) as -> by (apply N.ltb_lt; lia). done.
  - apply andb_true_iff in Hyz as [Heq _]. apply N.eqb_eq in Heq as <-.
    by rewrite Hxy.
  - apply andb_true_iff in Hxy as [Heq _]. apply N.eqb_eq in Heq as ->.
    by rewrite Hyz.
  - apply andb_true_iff in Hxy as [Heq1 H1], Hyz as [Heq2 H2].
    apply N.eqb_eq in Heq1 as ->. apply N.eqb_eq in Heq2 as ->.
    rewrite N.eqb_refl, (IH _ _ H1 H2). by rewrite orb_true_r.
Qed.

Lemma key_leb_total k1 k2 : key_leb k1 k2 = false → key_leb k2 k1 = true.
Proof.
  destruct k1 as [r1 w1], k2 as [r2 w2]. unfold key_leb; simpl.
  intros Hk. apply orb_false_iff in Hk as [Hlt Hrest].
  apply Z.ltb_ge in Hlt.
  destruct (Z.eqb_spec r1 r2) as [->|Hne].
  - rewrite Z.eqb_refl, Z.ltb_irrefl. simpl in *. by apply str_leb_total.
  - assert ((r2 <? r1) = true) as -> by (apply Z.ltb_lt; lia). done.
Qed.

Lemma key_leb_trans k1 k2 k3 :
  key_leb k1 k2 = true → key_leb k2 k3 = true → key_leb k1 k3 = true.
Proof.
  destruct k1 as [r1 w1], k2 as [r2 w2], k3 as [r3 w3]. unfold key_leb; simpl.
  intros H12 H23.
  apply orb_true_iff in H12 as [H12|H12]; apply orb_true_iff in H23 as [H23|H23].
  - apply Z.ltb_lt in H12, H23.
    assert ((r1 <? r3) = true) as -> by (apply Z.ltb_lt; lia). done.
  - apply andb_true_iff in H23 as [Heq _]. apply Z.eqb_eq in Heq as <-.
    by rewrite H12.
  - apply andb_true_iff in H12 as [Heq _]. apply Z.eqb_eq in Heq as ->.
    by rewrite H23.
  - apply andb_true_iff in H12 as [Heq1 H1], H23 as [Heq2 H2].
    apply Z.eqb_eq in Heq1 as ->. apply Z.eqb_eq in Heq2 as ->.
    rewrite Z.eqb_refl, (str_leb_trans _ _ _ H1 H2). by rewrite orb_true_r.
Qed.

(** ** [sorted] rearranges and orders *)

Section SortedFacts.
Context {A : Type} (key : A → Z * str).

Let le (a b : A) : Prop := key_leb (key a) (key b) = true.

Lemma insert_by_perm x l : insert_by key x l ≡ₚ x :: l.
Proof.
  induction l as [|y l IH]; simpl; [done|].
  destruct (key_leb (key x) (key y)); [done|].
  rewrite IH. apply Permutation_swap.
Qed.

Lemma sorted_perm l : sorted key l ≡ₚ l.
Proof.
  induction l as [|x l IH]; simpl; [done|].
  unfold sorted in *. simpl. by rewrite insert_by_perm, IH.
Qed.

Lemma insert_by_ordered x l :
  StronglySorted le l → StronglySorted le (insert_by key x l).
Proof.
  induction 1 as [|y l Hl IH Hy]; simpl.
  - repeat constructor.
  - destruct (key_leb (key x) (key y)) eqn:Hxy.
    + constructor; [by constructor|].
      constructor; [done|].
      eapply Forall_impl; [exact Hy|].
      intros z Hz. by eapply key_leb_trans.
    + apply key_leb_total in Hxy.
      constructor; [done|].
      rewrite Forall_forall. intros z Hz.
      rewrite insert_by_perm in Hz. apply elem_of_cons in Hz as [->|Hz]; [done|].
      by eapply Forall_forall in Hy.
Qed.

Lemma sorted_ordered l : StronglySorted le (sorted key l).
Proof.
  induction l as [|x l IH]; simpl; [constructor|].
  by apply insert_by_ordered.
Qed.
End SortedFacts.

Lemma sorted_by_count_perm ws l : sorted_by_count ws l ≡ₚ l.
Proof. apply sorted_perm. Qed.

Lemma sorted_by_count_ordered ws l : StronglySorted (key_le ws) (sorted_by_count ws l).
Proof. apply (sorted_ordered (λ w, (count_of ws w, w))). Qed.

(** ** The table of intervals *)

Lemma required_interval_table rc :
  required_interval rc =
    if rc =? 3 then 2 else if rc =? 4 then 4 else if rc =? 5 then 7
    else if rc =? 6 then 15 else 30.
Proof.
  unfold required_interval, ebbinghaus_intervals.
  repeat (rewrite lookup_insert; case_decide; [subst rc; reflexivity|]).
  rewrite lookup_empty. simpl.
  destruct (Z.eqb_spec rc 3); [congruence|].
  destruct (Z.eqb_spec rc 4); [congruence|].
  destruct (Z.eqb_spec rc 5); [congruence|].
  destruct (Z.eqb_spec rc 6); [congruence|].
  reflexivity.
Qed.

Lemma required_interval_default rc :
  rc ≠ 3 → rc ≠ 4 → rc ≠ 5 → rc ≠ 6 → required_interval rc = 30.
Proof.
  intros. rewrite required_interval_table.
  destruct (Z.eqb_spec rc 3); [congruence|].
  destruct (Z.eqb_spec rc 4); [congruence|].
  destruct (Z.eqb_spec rc 5); [congruence|].
  destruct (Z.eqb_spec rc 6); [congruence|].
  reflexivity.
Qed.

(** ** The loop: what each list holds when it ends *)

Lemma is_due_cases `{Decimals} today rc lrd :
  is_due today rc lrd = true ↔
    lrd = [] ∨ strptime_ymd lrd = None
    ∨ ∃ d, strptime_ymd lrd = Some d ∧ required_interval rc ≤ days_between today d.
Proof.
  unfold is_due. case_bool_decide as Hset.
  - destruct (strptime_ymd lrd) as [d|] eqn:Hparse.
    + rewrite Z.leb_le. split.
      * intros Hle. right; right. by exists d.
      * intros [?|[?|(d' & [= <-] & Hle)]]; done.
    + split; [by right; left|done].
  - assert (lrd = []) as -> by (destruct lrd; [done|by destruct Hset]).
    split; [by left|done].
Qed.

Section Loop.
Context `{Decimals} (today : date).

Lemma classify_unreviewed b i :
  unreviewed (classify today b i)
  = unreviewed b ++ (if decide (review_count i.2 = 0) then [i.1] else []).
Proof.
  destruct i as [w r]; unfold classify; simpl.
  destruct (Z.eqb_spec (review_count r) 0) as [Heq|Hne].
  - by rewrite decide_True.
  - rewrite decide_False by done. rewrite app_nil_r.
    destruct (review_count r <? 3); [done|].
    case_bool_decide; [|done].
    destruct (strptime_ymd _); [|done].
    by destruct (_ <=? _).
Qed.

Lemma classify_reviewing b i :
  reviewing (classify today b i)
  = reviewing b
    ++ (if decide (review_count i.2 ≠ 0 ∧ review_count i.2 < 3) then [i.1] else []).
Proof.
  destruct i as [w r]; unfold classify; simpl.
  destruct (Z.eqb_spec (review_count r) 0) as [Heq|Hne].
  - rewrite decide_False by tauto. by rewrite app_nil_r.
  - destruct (Z.ltb_spec (review_count r) 3) as [Hlt|Hge].
    + by rewrite decide_True.
    + rewrite decide_False by lia. rewrite app_nil_r.
      case_bool_decide; [|done].
      destruct (strptime_ymd _); [|done].
      by destruct (_ <=? _).
Qed.

Lemma classify_mastered b i :
  mastered (classify today b i)
  = mastered b ++ (if decide (3 ≤ review_count i.2) then [i.1] else []).
Proof.
  destruct i as [w r]; unfold classify; simpl.
  destruct (Z.eqb_spec (review_count r) 0) as [Heq|Hne].
  - rewrite decide_False by lia. by rewrite app_nil_r.
  - destruct (Z.ltb_spec (review_count r) 3) as [Hlt|Hge].
    + rewrite decide_False by lia. by rewrite app_nil_r.
    + rewrite decide_True by done.
      case_bool_decide; [|done].
      destruct (strptime_ymd _); [|done].
      by destruct (_ <=? _).
Qed.

Lemma classify_mastered_due b i :
  mastered_due (classify today b i)
  = mastered_due b
    ++ (if decide (3 ≤ review_count i.2
                   ∧ is_due today (review_count i.2) (last_review_date i.2) = true)
        then [i.1] else []).
Proof.
  destruct i as [w r]; unfold classify, is_due; simpl.
  destruct (Z.eqb_spec (review_count r) 0) as [Heq|Hne].
  - rewrite decide_False by lia. by rewrite app_nil_r.
  - destruct (Z.ltb_spec (review_count r) 3) as [Hlt|Hge].
    + rewrite decide_False by lia. by rewrite app_nil_r.
    + case_bool_decide.
      * destruct (strptime_ymd _).
        -- destruct (_ <=? _).
           ++ by rewrite decide_True.
           ++ rewrite decide_False by (intros [_ ?]; done). by rewrite app_nil_r.
        -- by rewrite decide_True.
      * by rewrite decide_True.
Qed.

(** A list of the loop that grows by the words of the items that
    satisfy [P] holds, at the end, the words of those items. *)
Lemma foldl_classify (f : buckets → list str) (P : str * WordRecord → Prop)
    `{!∀ i, Decision (P i)} :
  (∀ b i, f (classify today b i) = f b ++ (if decide (P i) then [i.1] else [])) →
  ∀ l b, f (foldl (classify today) b l) = f b ++ (filter P l).*1.
Proof.
  intros Hstep l. induction l as [|i l IH]; intros b; simpl.
  - by rewrite app_nil_r.
  - rewrite IH, Hstep, filter_cons.
    destruct (decide (P i)); simpl.
    + by rewrite <-app_assoc.
    + by rewrite app_nil_r.
Qed.

Lemma mark_if_today_elem lrd w c x :
  x ∈ mark_if_today today lrd w c → x = w ∨ x ∈ c.
Proof. unfold mark_if_today. case_bool_decide; set_solver. Qed.

Lemma classify_marked_listed b i : marked_listed b → marked_listed (classify today b i).
Proof.
  intros Hb x. destruct i as [w r]. unfold classify.
  repeat (first [case_bool_decide | destruct (_ =? _) | destruct (_ <? _)
                | destruct (_ <=? _) | destruct (strptime_ymd _)]); simpl;
    intros Hx; try apply mark_if_today_elem in Hx as [->|Hx];
    rewrite ?elem_of_app, ?list_elem_of_singleton;
    try (specialize (Hb x Hx)); tauto.
Qed.

Lemma foldl_marked_listed l b :
  marked_listed b → marked_listed (foldl (classify today) b l).
Proof.
  revert b. induction l as [|i l IH]; intros b Hb; simpl; [done|].
  by apply IH, classify_marked_listed.
Qed.
End Loop.

(** ** The lists of [partition_words] *)

Section Buckets.
Context `{Decimals} (ws : gmap str WordRecord) (today : date).

Lemma elem_filter_items (P : str * WordRecord → Prop) `{!∀ i, Decision (P i)} w :
  w ∈ (filter P (map_to_list ws)).*1 ↔ ∃ r, ws !! w = Some r ∧ P (w, r).
Proof.
  rewrite list_elem_of_fmap. split.
  - intros ([w' r] & -> & Hin). apply list_elem_of_filter in Hin as [HP Hin].
    apply elem_of_map_to_list in Hin. by exists r.
  - intros (r & Hr & HP). exists (w, r). split; [done|].
    apply list_elem_of_filter. split; [done|]. by apply elem_of_map_to_list.
Qed.

Lemma NoDup_filter_items (P : str * WordRecord → Prop) `{!∀ i, Decision (P i)} :
  NoDup (filter P (map_to_list ws)).*1.
Proof.
  eapply sublist_NoDup; [apply (NoDup_fst_map_to_list ws)|].
  apply fmap_sublist, sublist_filter.
Qed.

Let b := partition_words ws today.

Lemma unreviewed_items :
  unreviewed b = (filter (λ i, review_count i.2 = 0) (map_to_list ws)).*1.
Proof.
  unfold b, partition_words.
  by rewrite (foldl_classify today unreviewed _ (classify_unreviewed today)).
Qed.

Lemma reviewing_items :
  reviewing b
  = (filter (λ i, review_count i.2 ≠ 0 ∧ review_count i.2 < 3) (map_to_list ws)).*1.
Proof.
  unfold b, partition_words.
  by rewrite (foldl_classify today reviewing _ (classify_reviewing today)).
Qed.

Lemma mastered_items :
  mastered b = (filter (λ i, 3 ≤ review_count i.2) (map_to_list ws)).*1.
Proof.
  unfold b, partition_words.
  by rewrite (foldl_classify today mastered _ (classify_mastered today)).
Qed.

Lemma mastered_due_items :
  mastered_due b
  = (filter (λ i, 3 ≤ review_count i.2
                  ∧ is_due today (review_count i.2) (last_review_date i.2) = true)
       (map_to_list ws)).*1.
Proof.
  unfold b, partition_words.
  by rewrite (foldl_classify today mastered_due _ (classify_mastered_due today)).
Qed.

Lemma elem_unreviewed w :
  w ∈ unreviewed b ↔ ∃ r, ws !! w = Some r ∧ review_count r = 0.
Proof. rewrite unreviewed_items. apply elem_filter_items. Qed.

Lemma elem_reviewing w :
  w ∈ reviewing b ↔ ∃ r, ws !! w = Some r ∧ review_count r ≠ 0 ∧ review_count r < 3.
Proof. rewrite reviewing_items. apply elem_filter_items. Qed.

Lemma elem_mastered w :
  w ∈ mastered b ↔ ∃ r, ws !! w = Some r ∧ 3 ≤ review_count r.
Proof. rewrite mastered_items. apply elem_filter_items. Qed.

Lemma elem_mastered_due w :
  w ∈ mastered_due b ↔
  ∃ r, ws !! w = Some r ∧ 3 ≤ review_count r
       ∧ is_due today (review_count r) (last_review_date r) = true.
Proof. rewrite mastered_due_items. apply elem_filter_items. Qed.

Lemma NoDup_unreviewed : NoDup (unreviewed b).
Proof. rewrite unreviewed_items. apply NoDup_filter_items. Qed.

Lemma NoDup_reviewing : NoDup (reviewing b).
Proof. rewrite reviewing_items. apply NoDup_filter_items. Qed.

Lemma NoDup_mastered : NoDup (mastered b).
Proof. rewrite mastered_items. apply NoDup_filter_items. Qed.

Lemma NoDup_mastered_due : NoDup (mastered_due b).
Proof. rewrite mastered_due_items. apply NoDup_filter_items. Qed.

Lemma elem_not_due w :
  w ∈ not_due_of b ↔ w ∈ mastered b ∧ w ∉ mastered_due b.
Proof. unfold not_due_of. rewrite list_elem_of_filter. tauto. Qed.

Lemma NoDup_not_due : NoDup (not_due_of b).
Proof. apply NoDup_filter, NoDup_mastered. Qed.

Lemma elem_not_due_test w :
  w ∈ not_due_of b ↔
  ∃ r, ws !! w = Some r ∧ 3 ≤ review_count r
       ∧ is_due today (review_count r) (last_review_date r) = false.
Proof.
  rewrite elem_not_due, elem_mastered, elem_mastered_due. split.
  - intros [(r & Hr & Hrc) Hnot]. exists r. split_and!; [done|done|].
    destruct (is_due _ _ _) eqn:Hdue; [|done]. destruct Hnot. by exists r.
  - intros (r & Hr & Hrc & Hdue). split; [by exists r|].
    intros (r' & Hr' & _ & Hdue'). simplify_eq. congruence.
Qed.

Lemma partition_marked_listed : marked_listed b.
Proof. apply foldl_marked_listed. intros w Hw. set_solver. Qed.
End Buckets.

(** ** C1, C8: when a mastered word is due *)

(** C1. A mastered word (three reviews or more) of the store is put in
    [mastered]; it is put in [mastered_due] when its date of review is
    unset, when [strptime] refuses the date, and otherwise exactly when the
    days since that date reach the interval of its count, whatever table of
    decimal digits [strptime] reads the date with.  The interval is
    2, 4, 7, 15 days for 3, 4, 5, 6 reviews and 30 days for seven reviews or
    more and for every count that the table does not hold.  So a word with
    six reviews whose date is fifteen days before today is in
    [mastered_due]. *)
Theorem due_classification `{Decimals} (ws : gmap str WordRecord) (today : date)
    (w : str) (r : WordRecord) :
  ws !! w = Some r →
  3 ≤ review_count r →
  let b := partition_words ws today in
  w ∈ mastered b
  ∧ (last_review_date r = [] → w ∈ mastered_due b)
  ∧ (strptime_ymd (last_review_date r) = None → w ∈ mastered_due b)
  ∧ (∀ d, strptime_ymd (last_review_date r) = Some d →
       (w ∈ mastered_due b ↔ required_interval (review_count r) ≤ days_between today d))
  ∧ required_interval 3 = 2 ∧ required_interval 4 = 4
  ∧ required_interval 5 = 7 ∧ required_interval 6 = 15
  ∧ (∀ rc, 7 ≤ rc → required_interval rc = 30)
  ∧ (∀ rc, rc ≠ 3 → rc ≠ 4 → rc ≠ 5 → rc ≠ 6 → required_interval rc = 30)
  ∧ (∀ d, review_count r = 6 → strptime_ymd (last_review_date r) = Some d →
       days_between today d = 15 → w ∈ mastered_due b).
Proof.
  intros Hw Hrc b.
  assert (w ∈ mastered_due b ↔
          is_due today (review_count r) (last_review_date r) = true) as Hdue.
  { unfold b. rewrite elem_mastered_due. split.
    - intros (r' & Hr' & _ & Hd). by simplify_eq.
    - intros Hd. by exists r. }
  split; [apply elem_mastered; by exists r|].
  split; [intros Hunset; apply Hdue, is_due_cases; by left|].
  split; [intros Hbad; apply Hdue, is_due_cases; by right; left|].
  split.
  { intros d Hparse. rewrite Hdue, is_due_cases. split.
    - intros [Hunset|[?|(d' & Hd' & Hle)]]; [|congruence|by simplify_eq].
      by rewrite Hunset in Hparse.
    - intros Hle. right; right. by exists d. }
  repeat (split; [reflexivity|]).
  split; [intros rc ?; apply required_interval_default; lia|].
  split; [apply required_interval_default|].
  intros d Hsix Hparse Hdays. apply Hdue, is_due_cases. right; right.
  exists d. split; [done|]. rewrite Hsix, Hdays. by compute.
Qed.

(** The scenario of the specification: [lucid], six reviews, reviewed on
    1 March, on 16 March. *)
Lemma due_classification_witness :
  lucid_store !! py "lucid" = Some (entry 6 (py "2024-03-01"))
  ∧ py "lucid" ∈ mastered_due (partition_words lucid_store march_16).
Proof.
  split; [reflexivity|].
  refine (proj2 (proj2 (proj2 (proj2 (proj2 (proj2 (proj2 (proj2 (proj2 (proj2
    (due_classification lucid_store march_16 (py "lucid")
       (entry 6 (py "2024-03-01")) _ _))))))))))
    (Date 2024 3 1) _ _ _);
    [reflexivity | by compute | reflexivity | reflexivity | reflexivity].
Defined.

(** Membership, subset and equality goals on concrete values are decided
    by running the model. *)
Ltac run := apply (bool_decide_unpack _); vm_compute; exact I.

(** C8, as the code has it.  For a mastered word whose stored date parses:
    reviewed exactly the interval ago it is due; reviewed one day earlier
    than that (interval + 1 days ago) it is due; reviewed one day later
    (interval - 1 days ago) it is not due. *)
Theorem due_boundary `{Decimals} (ws : gmap str WordRecord) (today : date) (w : str)
    (r : WordRecord) (d : date) :
  ws !! w = Some r →
  3 ≤ review_count r →
  strptime_ymd (last_review_date r) = Some d →
  let b := partition_words ws today in
  let interval := required_interval (review_count r) in
  (toordinal d = toordinal today - interval → w ∈ mastered_due b)
  ∧ (toordinal d = toordinal today - interval - 1 → w ∈ mastered_due b)
  ∧ (toordinal d = toordinal today - interval + 1 → w ∉ mastered_due b).
Proof.
  intros Hw Hrc Hparse b interval.
  destruct (due_classification ws today w r Hw Hrc) as (_ & _ & _ & Hiff & _).
  specialize (Hiff d Hparse). fold b interval in Hiff.
  unfold days_between in Hiff.
  repeat split; intros Hd; rewrite Hiff; lia.
Qed.

Lemma due_boundary_witness :
  let ws : gmap str WordRecord := {[ py "late" := entry 3 (py "2024-03-13") ]} in
  toordinal (Date 2024 3 13) = toordinal march_16 - required_interval 3 - 1
  ∧ py "late" ∈ mastered_due (partition_words ws march_16).
Proof.
  split; [reflexivity|].
  refine (proj1 (proj2
    (due_boundary _ march_16 (py "late") (entry 3 (py "2024-03-13"))
       (Date 2024 3 13) _ _ _)) _);
    [reflexivity | by compute | reflexivity | reflexivity].
Defined.

(** C8 as the specification words it fails on both sides of the boundary:
    with three reviews (interval 2) on 16 March, a word dated 13 March
    (today - 2 - 1) is due, and a word dated 15 March (today - 2 + 1) is
    not. *)
Lemma due_boundary_counterexample :
  let early : gmap str WordRecord := {[ py "w" := entry 3 (py "2024-03-13") ]} in
  let late : gmap str WordRecord := {[ py "w" := entry 3 (py "2024-03-15") ]} in
  strptime_ymd (py "2024-03-13") = Some (Date 2024 3 13)
  ∧ toordinal (Date 2024 3 13) = toordinal march_16 - required_interval 3 - 1
  ∧ ¬ (py "w" ∉ mastered_due (partition_words early march_16))
  ∧ strptime_ymd (py "2024-03-15") = Some (Date 2024 3 15)
  ∧ toordinal (Date 2024 3 15) = toordinal march_16 - required_interval 3 + 1
  ∧ ¬ (py "w" ∈ mastered_due (partition_words late march_16)).
Proof.
  repeat split; try reflexivity; run.
Qed.

(** ** A generator that satisfies the laws *)

Lemma turn_perm g l : turn g l ≡ₚ l.
Proof.
  unfold turn. rewrite Permutation_app_comm. by rewrite take_drop.
Qed.

Lemma take_turn_rest g l k : take k (turn g l) ++ drop k (turn g l) ≡ₚ l.
Proof. by rewrite take_drop, turn_perm. Qed.

#[export] Instance turning_random : Random := {|
  rng := nat;
  seed := code_sum;
  sample g pop k := take k (turn g pop);
  shuffle := turn;
  sample_length g pop k Hk :=
    eq_trans (length_take_le (turn g pop) k
                (eq_ind_r (λ n, (k ≤ n)%nat) Hk (Permutation_length (turn_perm g pop))))
             eq_refl;
  sample_sub g pop k _ := ex_intro _ (drop k (turn g pop)) (take_turn_rest g pop k);
  shuffle_perm := turn_perm
|}.

(** ** The draw and the tasks *)

Lemma count_once (l : list str) w :
  NoDup l → w ∈ l → length (filter (λ x, x = w) l) = 1%nat.
Proof.
  induction 1 as [|x l Hx Hl IH]; [by intros ?%elem_of_nil|].
  rewrite filter_cons. intros [->|Hin]%elem_of_cons.
  - rewrite decide_True by done. simpl. f_equal.
    apply length_zero_iff_nil. apply elem_of_nil_inv. intros y Hy.
    apply list_elem_of_filter in Hy as [-> Hy]. done.
  - rewrite decide_False by (intros ->; done). by apply IH.
Qed.

Lemma elem_candidates ws l w : w ∈ candidates_of ws l → w ∈ l.
Proof.
  unfold candidates_of. intros Hw.
  rewrite <-(sorted_by_count_perm ws l).
  eapply elem_of_sublist; [exact Hw|apply sublist_take].
Qed.

Lemma NoDup_candidates ws l : NoDup l → NoDup (candidates_of ws l).
Proof.
  intros Hl. unfold candidates_of.
  eapply sublist_NoDup; [|apply sublist_take].
  by rewrite sorted_by_count_perm.
Qed.

Lemma length_candidates ws l : (length (candidates_of ws l) ≤ length l)%nat.
Proof.
  unfold candidates_of. rewrite length_take.
  rewrite (Permutation_length (sorted_by_count_perm ws l)). lia.
Qed.

(** The slice, with the integer division of the source. *)
Lemma candidates_slice ws l :
  candidates_of ws l = take (Nat.max 10 (length l `div` 3)) (sorted_by_count ws l).
Proof.
  unfold candidates_of. f_equal.
  rewrite (Permutation_length (sorted_by_count_perm ws l)).
  rewrite <-(Nat2Z.id (Nat.max 10 (length l `div` 3))). f_equal.
  rewrite Nat2Z.inj_max, Nat2Z.inj_div. reflexivity.
Qed.

Section Draw.
Context `{Decimals} `{Random} (ws : gmap str WordRecord) (today : date).

Let b := partition_words ws today.
Let cand := candidates_of ws (not_due_of b).
Let s := sampled_of ws today b.

Lemma sample_count_fits : (Z.to_nat (sample_count_of b cand) ≤ length cand)%nat.
Proof. unfold sample_count_of. lia. Qed.

Lemma sampled_rest : ∃ rest, s ++ rest ≡ₚ cand.
Proof.
  unfold s, sampled_of. destruct (backfills b).
  - apply sample_sub, sample_count_fits.
  - by exists cand.
Qed.

Lemma length_sampled :
  length s = if backfills b then Z.to_nat (sample_count_of b cand) else 0%nat.
Proof.
  unfold s, sampled_of. destruct (backfills b); [|done].
  apply sample_length, sample_count_fits.
Qed.

Lemma elem_sampled w : w ∈ s → w ∈ cand.
Proof.
  destruct sampled_rest as [rest Hrest]. intros Hw.
  rewrite <-Hrest. apply elem_of_app. by left.
Qed.

Lemma NoDup_sampled : NoDup s.
Proof.
  destruct sampled_rest as [rest Hrest].
  assert (NoDup (s ++ rest)) as Hnd.
  { rewrite Hrest. apply NoDup_candidates, NoDup_not_due. }
  by apply NoDup_app in Hnd as [? _].
Qed.

Lemma sampled_not_due w : w ∈ s → w ∈ mastered b ∧ w ∉ mastered_due b.
Proof. intros Hw%elem_sampled%elem_candidates. by apply elem_not_due. Qed.

(** Nothing is drawn when ten mastered words are due. *)
Lemma sampled_only_below_ten : s ≠ [] → (length (mastered_due b) < 10)%nat.
Proof.
  unfold s, sampled_of, backfills.
  destruct (Z.ltb_spec (Z.of_nat (length (mastered_due b))) 10); simpl; [lia|done].
Qed.

(** Below ten, the draw has [min(10 - len(mastered_due), len(candidates))]
    words (none when there is no candidate). *)
Lemma length_sampled_below_ten :
  (length (mastered_due b) < 10)%nat →
  length s = Nat.min (10 - length (mastered_due b)) (length cand).
Proof.
  intros Hlt. rewrite length_sampled. unfold sample_count_of.
  destruct (backfills b) eqn:Hb; [lia|].
  assert (not_due_of b = []) as Hnone.
  { unfold backfills in Hb.
    destruct (Z.ltb_spec (Z.of_nat (length (mastered_due b))) 10); [|lia].
    simpl in Hb. apply andb_false_iff in Hb as [Hb|Hb].
    - apply bool_decide_eq_false in Hb. unfold not_due_of.
      destruct (mastered b); [done|]. by destruct Hb.
    - apply bool_decide_eq_false in Hb.
      destruct (not_due_of b); [done|]. by destruct Hb. }
  unfold cand. rewrite Hnone. simpl. lia.
Qed.

Lemma tasks_in_order_perm :
  tasks_in_order ws today ≡ₚ unreviewed b ++ reviewing b ++ mastered_due b ++ s.
Proof.
  unfold tasks_in_order. fold b s.
  case_bool_decide as Hdue.
  - by rewrite sorted_by_count_perm.
  - assert (mastered_due b = []) as ->; [|done].
    destruct (mastered_due b); [done|]. by destruct Hdue.
Qed.

Lemma NoDup_tasks_in_order : NoDup (tasks_in_order ws today).
Proof.
  rewrite tasks_in_order_perm.
  repeat (apply NoDup_app; split; [|split]);
    try first [apply NoDup_unreviewed | apply NoDup_reviewing
              | apply NoDup_mastered_due | apply NoDup_sampled].
  - intros w (r & Hr & Hzero)%elem_unreviewed.
    rewrite !elem_of_app.
    intros [(r' & ? & ? & ?)%elem_reviewing
           |[(r' & ? & ? & ?)%elem_mastered_due
            |[(r' & ? & ?)%elem_mastered _]%sampled_not_due]];
      simplify_eq; lia.
  - intros w (r & Hr & ? & ?)%elem_reviewing.
    rewrite !elem_of_app.
    intros [(r' & ? & ? & ?)%elem_mastered_due
           |[(r' & ? & ?)%elem_mastered _]%sampled_not_due];
      simplify_eq; lia.
  - intros w Hdue [_ Hnot]%sampled_not_due. done.
Qed.

Lemma elem_tasks_in_order w :
  w ∈ tasks_in_order ws today ↔
  w ∈ unreviewed b ∨ w ∈ reviewing b ∨ w ∈ mastered_due b ∨ w ∈ s.
Proof. rewrite tasks_in_order_perm, !elem_of_app. tauto. Qed.
End Draw.

(** ** [init_today_tasks] *)

Section Build.
Context `{Decimals} `{Random}.

Lemma elem_mark_sampled ws today sampled c x :
  x ∈ mark_sampled ws today sampled c → x ∈ sampled ∨ x ∈ c.
Proof.
  unfold mark_sampled. revert c.
  induction sampled as [|w l IH]; intros c; simpl; [by right|].
  intros [Hx|Hx]%IH.
  - left. by right.
  - apply mark_if_today_elem in Hx as [->|Hx]; [left; by left|by right].
Qed.

Lemma init_tasks_perm today ambient entropy m :
  today_tasks (init_today_tasks today ambient entropy m) ≡ₚ tasks_in_order (words m) today.
Proof. apply shuffle_perm. Qed.

Lemma init_completed_in_tasks today ambient entropy m :
  completed_in_tasks (init_today_tasks today ambient entropy m).
Proof.
  intros w Hw. rewrite init_tasks_perm, elem_tasks_in_order.
  simpl in Hw. apply elem_mark_sampled in Hw as [Hw|Hw]; [tauto|].
  apply partition_marked_listed in Hw. tauto.
Qed.

Lemma init_backfilled today ambient entropy m :
  backfilled_of (words m) today (init_today_tasks today ambient entropy m)
  = list_to_set (sampled_of (words m) today (partition_words (words m) today)).
Proof.
  apply set_eq. intros w. unfold backfilled_of.
  rewrite !elem_of_list_to_set, list_elem_of_filter, init_tasks_perm,
    elem_tasks_in_order, elem_not_due.
  split.
  - intros [[Hm Hnd] [Hw|[Hw|[Hw|Hw]]]]; [| |done|done].
    + apply elem_unreviewed in Hw as (r & ? & ?).
      apply elem_mastered in Hm as (r' & ? & ?). simplify_eq; lia.
    + apply elem_reviewing in Hw as (r & ? & ? & ?).
      apply elem_mastered in Hm as (r' & ? & ?). simplify_eq; lia.
  - intros Hw. split; [by apply sampled_not_due|tauto].
Qed.
End Build.

(** C2. After [init_today_tasks], every word of the store with fewer than
    three reviews is in [today_tasks], and it is there once (the list has
    no word twice); the date of its last review plays no part. *)
Theorem low_count_scheduled_once `{Decimals} `{Random} (today : date) (ambient entropy : rng)
    (m : WordManager) (w : str) (r : WordRecord) :
  words m !! w = Some r →
  review_count r < 3 →
  let tasks := today_tasks (init_today_tasks today ambient entropy m) in
  w ∈ tasks ∧ NoDup tasks ∧ length (filter (λ x, x = w) tasks) = 1%nat.
Proof.
  intros Hw Hrc tasks.
  assert (NoDup tasks) as Hnd.
  { unfold tasks. rewrite init_tasks_perm. apply NoDup_tasks_in_order. }
  assert (w ∈ tasks) as Hin.
  { unfold tasks. rewrite init_tasks_perm, elem_tasks_in_order.
    destruct (decide (review_count r = 0)) as [Hzero|Hpos].
    - left. apply elem_unreviewed. by exists r.
    - right; left. apply elem_reviewing. by exists r. }
  auto using count_once.
Qed.

Lemma low_count_scheduled_once_witness :
  let ws : gmap str WordRecord :=
    {[ py "new" := entry 0 []; py "weak" := entry 2 (py "2024-03-16") ]} in
  let tasks := today_tasks (init_today_tasks march_16 0%nat 1%nat (start ws)) in
  py "weak" ∈ tasks ∧ NoDup tasks ∧ length (filter (λ x, x = py "weak") tasks) = 1%nat.
Proof.
  refine (low_count_scheduled_once march_16 0%nat 1%nat (start _) (py "weak")
            (entry 2 (py "2024-03-16")) _ _);
    [reflexivity | by compute].
Defined.

(** C3. The mastered words that go to the tasks are the due ones and the
    drawn ones.  Together they are at most [max(len(mastered_due), 10)];
    the drawn ones are no more than the mastered words that are not due;
    a word is drawn only when fewer than ten are due; the draw is taken
    from the first [max(10, len // 3)] of the not-due words sorted by
    (count, word); and it holds [min(10 - len(mastered_due),
    len(candidates))] words, all different.  The due words are the stored
    words with three reviews or more that pass the due test, the not-due
    words are those that fail it, each listed once; so whenever fewer than
    ten words are due and some mastered word is not due, words are drawn. *)
Theorem mastery_cap `{Decimals} `{Random} (today : date) (ambient entropy : rng)
    (m : WordManager) :
  let ws := words m in
  let b := partition_words ws today in
  let due := mastered_due b in
  let not_due := not_due_of b in
  let candidates := candidates_of ws not_due in
  let sampled := sampled_of ws today b in
  today_tasks (init_today_tasks today ambient entropy m)
    ≡ₚ unreviewed b ++ reviewing b ++ due ++ sampled
  ∧ (length due + length sampled ≤ Nat.max (length due) 10)%nat
  ∧ (length sampled ≤ length not_due)%nat
  ∧ (sampled ≠ [] → (length due < 10)%nat)
  ∧ ((length due < 10)%nat →
       length sampled = Nat.min (10 - length due) (length candidates))
  ∧ candidates = take (Nat.max 10 (length not_due `div` 3)) (sorted_by_count ws not_due)
  ∧ sorted_by_count ws not_due ≡ₚ not_due
  ∧ StronglySorted (key_le ws) (sorted_by_count ws not_due)
  ∧ NoDup sampled
  ∧ (∃ rest, sampled ++ rest ≡ₚ candidates)
  ∧ (∀ w, w ∈ sampled → w ∈ not_due)
  ∧ (∀ w, w ∈ due ↔
       ∃ r, (ws !! w) = Some r ∧ 3 ≤ review_count r
            ∧ is_due today (review_count r) (last_review_date r) = true)
  ∧ (∀ w, w ∈ not_due ↔
       ∃ r, (ws !! w) = Some r ∧ 3 ≤ review_count r
            ∧ is_due today (review_count r) (last_review_date r) = false)
  ∧ NoDup due
  ∧ NoDup not_due
  ∧ ((length due < 10)%nat → not_due ≠ [] → sampled ≠ []).
Proof.
  intros ws b due not_due candidates sampled.
  assert ((length due < 10)%nat →
          length sampled = Nat.min (10 - length due) (length candidates)) as Hlen
    by apply length_sampled_below_ten.
  assert (sampled ≠ [] → (length due < 10)%nat) as Hbelow
    by apply sampled_only_below_ten.
  assert (length candidates ≤ length not_due)%nat as Hcand
    by apply length_candidates.
  assert (length sampled ≤ length candidates)%nat as Hsc.
  { destruct (sampled_rest ws today) as [rest Hrest].
    apply Permutation_length in Hrest. rewrite length_app in Hrest.
    unfold candidates, sampled, not_due, b. lia. }
  split; [rewrite init_tasks_perm; apply tasks_in_order_perm|].
  split.
  { destruct (decide (sampled = [])) as [->|Hne]; [simpl; lia|].
    specialize (Hbelow Hne). specialize (Hlen Hbelow). lia. }
  split; [lia|].
  split; [done|].
  split; [done|].
  split; [apply candidates_slice|].
  split; [apply sorted_by_count_perm|].
  split; [apply sorted_by_count_ordered|].
  split; [apply NoDup_sampled|].
  split; [apply sampled_rest|].
  split; [intros w Hw; by apply elem_candidates with ws, elem_sampled|].
  split; [apply elem_mastered_due|].
  split; [apply elem_not_due_test|].
  split; [apply NoDup_mastered_due|].
  split; [apply NoDup_not_due|].
  intros Hfew Hsome Hnone.
  specialize (Hlen Hfew). rewrite Hnone in Hlen. simpl in Hlen.
  assert (length candidates ≠ 0)%nat as Hcandidates.
  { unfold candidates. rewrite candidates_slice, length_take.
    rewrite (Permutation_length (sorted_by_count_perm ws not_due)).
    destruct not_due; [done|]. simpl. lia. }
  lia.
Qed.

(** With one word due and two not due, both of them are drawn. *)
Lemma mastery_cap_witness :
  let b := partition_words backfill_store march_16 in
  let sampled := sampled_of backfill_store march_16 b in
  mastered_due b = [py "lucid"]
  ∧ length sampled = 2%nat
  ∧ (length (mastered_due b) + length sampled ≤ Nat.max (length (mastered_due b)) 10)%nat.
Proof.
  intros b sampled.
  destruct (@mastery_cap unicode_decimals turning_random march_16 0%nat 0%nat
              (start backfill_store)) as (_ & Hcap & _ & _ & Hcount & _).
  split; [by vm_compute|]. split; [|exact Hcap].
  apply Hcount. vm_compute. lia.
Defined.

(** C4. Two builds on the same date from stores with the same contents,
    whatever the state of the generator before each of them and whatever
    entropy each reseeding gets, put the same words in the tasks through the
    draw: the draw is made with the generator seeded by the text of today's
    date.  The two task lists hold the same words, and the completed sets
    are equal.  The order of each list is the shuffle of the same sequence
    under the generator of that run, which is the ambient state or the fresh
    entropy and never the seeded state, so the orders need not agree. *)
Theorem backfill_determinism `{Decimals} `{Random} (today : date) (m1 m2 : WordManager)
    (ambient1 entropy1 ambient2 entropy2 : rng) :
  words m1 = words m2 →
  let ws := words m1 in
  let b := partition_words ws today in
  let run1 := init_today_tasks today ambient1 entropy1 m1 in
  let run2 := init_today_tasks today ambient2 entropy2 m2 in
  backfilled_of ws today run1 = backfilled_of ws today run2
  ∧ backfilled_of ws today run1 = list_to_set (sampled_of ws today b)
  ∧ today_tasks run1 ≡ₚ today_tasks run2
  ∧ today_completed run1 = today_completed run2
  ∧ today_tasks run1 = shuffle (shuffle_state b ambient1 entropy1) (tasks_in_order ws today)
  ∧ today_tasks run2 = shuffle (shuffle_state b ambient2 entropy2) (tasks_in_order ws today)
  ∧ (shuffle_state b ambient1 entropy1 = ambient1 ∨ shuffle_state b ambient1 entropy1 = entropy1)
  ∧ (shuffle_state b ambient2 entropy2 = ambient2 ∨ shuffle_state b ambient2 entropy2 = entropy2).
Proof.
  intros Hsame ws b run1 run2.
  assert (∀ a e, shuffle_state b a e = a ∨ shuffle_state b a e = e) as Hstate.
  { intros a e. unfold shuffle_state. destruct (backfills b); auto. }
  split; [|split; [|split; [|split; [|split; [|split; [|split]]]]]]; auto.
  - transitivity (list_to_set (C:=gset str) (sampled_of ws today b));
      [apply init_backfilled|].
    unfold run2, b, ws. rewrite Hsame. symmetry. apply init_backfilled.
  - apply init_backfilled.
  - unfold run1, run2. rewrite !init_tasks_perm. by rewrite Hsame.
  - unfold run1, run2, init_today_tasks; simpl. by rewrite Hsame.
  - unfold run2, init_today_tasks; simpl. unfold b, ws. by rewrite Hsame.
Qed.

Lemma backfill_determinism_witness :
  let mastered_store : gmap str WordRecord :=
    {[ py "keen" := entry 3 (py "2024-03-15");
       py "lucid" := entry 6 (py "2024-03-10");
       py "new" := entry 0 [] ]} in
  let run1 := init_today_tasks march_16 0%nat 1%nat (start mastered_store) in
  let run2 := init_today_tasks march_16 5%nat 2%nat run1 in
  backfilled_of mastered_store march_16 run1 = backfilled_of mastered_store march_16 run2.
Proof.
  intros mastered_store run1 run2.
  exact (proj1 (backfill_determinism march_16 (start mastered_store) run1
                  0%nat 1%nat 5%nat 2%nat eq_refl)).
Defined.

(** With the generator [turning_random], two builds of one store on one
    date draw the same words and order the tasks differently. *)
Example order_may_differ :
  let mastered_store : gmap str WordRecord :=
    {[ py "keen" := entry 3 (py "2024-03-15");
       py "lucid" := entry 6 (py "2024-03-10");
       py "new" := entry 0 [] ]} in
  let run1 := init_today_tasks march_16 0%nat 1%nat (start mastered_store) in
  let run2 := init_today_tasks march_16 0%nat 2%nat (start mastered_store) in
  backfilled_of mastered_store march_16 run1 = {[ py "keen"; py "lucid" ]}
  ∧ backfilled_of mastered_store march_16 run2 = {[ py "keen"; py "lucid" ]}
  ∧ today_tasks run1 ≠ today_tasks run2.
Proof. repeat split; run. Qed.

(** ** Grading *)

(** C5. Grading a stored word Known adds one to its [review_count], sets
    [last_review] to the text of the clock, [last_review_date] to the text
    of the clock's date and [today_reviewed] to true, and puts the word in
    [today_completed]; grading it Unknown does the same and leaves
    [review_count] as it was.  Either way the word is no longer among the
    words to review.  From two reviews, Known gives three and Unknown
    leaves two.  No other record and no task is touched. *)
Theorem grading_semantics (m : WordManager) (t1 t2 : datetime) (w : str) (r : WordRecord) :
  words m !! w = Some r →
  let known := grade Known t1 t2 w m in
  let unknown := grade Unknown t1 t2 w m in
  words known !! w
    = Some {| meaning := meaning r; examples := examples r;
              review_count := review_count r + 1;
              last_review := strftime_ymd_hm t1;
              last_review_date := strftime_ymd (dt_date t2);
              today_reviewed := true |}
  ∧ words unknown !! w
    = Some {| meaning := meaning r; examples := examples r;
              review_count := review_count r;
              last_review := strftime_ymd_hm t1;
              last_review_date := strftime_ymd (dt_date t2);
              today_reviewed := true |}
  ∧ w ∈ today_completed known ∧ w ∈ today_completed unknown
  ∧ (w ∉ get_words_to_review known) ∧ (w ∉ get_words_to_review unknown)
  ∧ today_tasks known = today_tasks m ∧ today_tasks unknown = today_tasks m
  ∧ (∀ w', w' ≠ w → (words known !! w') = (words m !! w')
                    ∧ (words unknown !! w') = (words m !! w'))
  ∧ (review_count r = 2 →
       count_of (words known) w = 3 ∧ count_of (words unknown) w = 2).
Proof.
  intros Hw known unknown.
  unfold known, unknown, grade, review_word, mark_reviewed_without_count,
    get_words_to_review, count_of.
  rewrite Hw; simpl. rewrite !lookup_insert_eq; simpl.
  repeat split; try set_solver.
  - rewrite list_elem_of_filter. intros [Hnot _]. apply Hnot.
    by apply elem_of_union_l, elem_of_singleton.
  - rewrite list_elem_of_filter. intros [Hnot _]. apply Hnot.
    by apply elem_of_union_l, elem_of_singleton.
  - by rewrite lookup_insert_ne.
  - by rewrite lookup_insert_ne.
  - lia.
Qed.

Lemma grading_semantics_witness :
  let m := start {[ py "weak" := entry 2 (py "2024-03-10") ]} in
  count_of (words (grade Known (noon march_16) (noon march_16) (py "weak") m)) (py "weak") = 3
  ∧ count_of (words (grade Unknown (noon march_16) (noon march_16) (py "weak") m)) (py "weak") = 2.
Proof.
  intros m.
  refine (proj2 (proj2 (proj2 (proj2 (proj2 (proj2 (proj2 (proj2 (proj2
    (grading_semantics m (noon march_16) (noon march_16) (py "weak")
       (entry 2 (py "2024-03-10")) _))))))))) _); reflexivity.
Defined.

(** ** C10: the completed words and the tasks *)

Lemma grade_keeps_completed_in_tasks o t1 t2 w m :
  completed_in_tasks m →
  w ∈ today_tasks m ∨ (words m !! w) = None →
  completed_in_tasks (grade o t1 t2 w m).
Proof.
  intros Hm Hw x.
  destruct o; simpl; unfold review_word, mark_reviewed_without_count;
    destruct (words m !! w) eqn:Hlook; simpl; try apply Hm;
    (destruct Hw as [Hw|?]; [|done]);
    intros [->%elem_of_singleton|Hx]%elem_of_union; auto.
Qed.

Lemma delete_words_fields l m :
  today_tasks (delete_words l m) = today_tasks m
  ∧ today_completed (delete_words l m) = today_completed m.
Proof.
  unfold delete_words. revert m. induction l as [|w l IH]; intros m; simpl; [done|].
  destruct (IH (delete_word w m)) as [-> ->]. done.
Qed.

(** C10, as the code has it.  [init_today_tasks] leaves every completed
    word among the tasks.  Grading keeps that when the graded word is a task
    (or is not stored, when nothing changes); adding and deleting words keep
    it, since they touch neither field. *)
Theorem completed_subset_tasks `{Decimals} `{Random} (today : date)
    (ambient entropy : rng) (m : WordManager) :
  completed_in_tasks (init_today_tasks today ambient entropy m)
  ∧ (∀ o t1 t2 w m0, completed_in_tasks m0 →
       w ∈ today_tasks m0 ∨ (words m0 !! w) = None →
       completed_in_tasks (grade o t1 t2 w m0))
  ∧ (∀ w meaning exs m0, completed_in_tasks m0 →
       completed_in_tasks (add_word w meaning exs m0))
  ∧ (∀ w m0, completed_in_tasks m0 → completed_in_tasks (delete_word w m0))
  ∧ (∀ l m0, completed_in_tasks m0 → completed_in_tasks (delete_words l m0)).
Proof.
  split; [apply init_completed_in_tasks|].
  split; [intros; by apply grade_keeps_completed_in_tasks|].
  split.
  { intros w mn exs m0 Hm0. unfold add_word.
    destruct (_ && _); [|done]. exact Hm0. }
  split; [intros w m0 Hm0; exact Hm0|].
  intros l m0 Hm0 x. destruct (delete_words_fields l m0) as [-> ->]. apply Hm0.
Qed.

Lemma completed_subset_tasks_witness :
  let m := init_today_tasks march_16 0%nat 0%nat (start lucid_store) in
  completed_in_tasks (grade Known (noon march_16) (noon march_16) (py "lucid") m).
Proof.
  intros m.
  destruct (@completed_subset_tasks unicode_decimals turning_random march_16 0%nat 0%nat (start lucid_store))
    as (Hinit & Hgrade & _).
  apply Hgrade; [exact Hinit|]. left. run.
Defined.

(** C10 as the specification words it fails: with ten mastered words due
    and an eleventh reviewed the day before, the eleventh is stored and is
    not a task; grading it puts it in [today_completed]. *)
Lemma completed_subset_counterexample :
  let m := init_today_tasks march_16 0%nat 0%nat (start crowded_store) in
  let graded := grade Known (noon march_16) (noon march_16) (py "fresh") m in
  is_Some (words m !! py "fresh")
  ∧ (py "fresh" ∉ today_tasks m)
  ∧ py "fresh" ∈ today_completed graded
  ∧ (py "fresh" ∉ today_tasks graded)
  ∧ ¬ completed_in_tasks graded.
Proof.
  split; [run|]. split; [run|]. split; [run|]. split; [run|].
  intros Hsub. specialize (Hsub (py "fresh")).
  assert (py "fresh" ∈ today_tasks
            (grade Known (noon march_16) (noon march_16) (py "fresh")
               (init_today_tasks march_16 0%nat 0%nat (start crowded_store)))) as Hin
    by (apply Hsub; run).
  revert Hin. run.
Qed.

(** ** The matcher *)

Lemma all_ascii_Forall s : all_ascii s = true → Forall is_ascii s.
Proof.
  unfold all_ascii. rewrite forallb_forall, Forall_forall.
  intros Hs c Hc. apply N.ltb_lt, Hs. by apply list_elem_of_In.
Qed.

Lemma startswith_nil s : startswith s [] = true.
Proof. by destruct s. Qed.

Lemma startswith_refl s : startswith s s = true.
Proof. induction s as [|c s IH]; simpl; [done|]. by rewrite N.eqb_refl. Qed.

Lemma contains_nil s : contains s [] = true.
Proof. destruct s; simpl; [done|]. done. Qed.

Lemma contains_refl s : contains s s = true.
Proof. destruct s; simpl; [done|]. by rewrite N.eqb_refl, startswith_refl. Qed.

Section MatcherFacts.
Context `{Lowering}.

Lemma lower_nil : lower [] = [].
Proof. by rewrite lower_ascii. Qed.

Lemma lower_plain s : all_ascii s = true → lower s = map ascii_lower s.
Proof. intros Hs. by apply lower_ascii, all_ascii_Forall. Qed.

Lemma fuzzy_match_same reference : fuzzy_match reference reference = true.
Proof.
  unfold fuzzy_match, whole_test, either_contains.
  by rewrite contains_refl.
Qed.

Lemma fuzzy_match_empty reference : fuzzy_match [] reference = true.
Proof.
  unfold fuzzy_match, whole_test, either_contains, normalize.
  rewrite lower_nil. simpl. by rewrite contains_nil.
Qed.

Lemma check_answer_blank current_word ws answer :
  strip answer = [] →
  check_answer current_word ws answer
  = match current_word with
    | None | Some [] => NoCurrentWord
    | Some _ => NoAnswer
    end.
Proof.
  intros Hblank. unfold check_answer. rewrite Hblank.
  by destruct current_word as [[|c word]|].
Qed.
End MatcherFacts.

(** C6, as the code has it.  Every reference matches itself, the empty one
    too.  The empty text matches every reference: the first test asks
    whether one text is in the other, and the empty text is in every text.
    An answer that is empty once stripped does not reach the matcher:
    whatever the current word and the store, [check_answer] returns before,
    at the silent return when a word is current and at the hint when none
    is, and gives no verdict. *)
Theorem matcher_round_trip `{Lowering} (reference : str) :
  fuzzy_match reference reference = true
  ∧ fuzzy_match [] reference = true
  ∧ (∀ current_word ws answer, strip answer = [] →
       (check_answer current_word ws answer = NoAnswer
        ∨ check_answer current_word ws answer = NoCurrentWord)
       ∧ (∀ word, current_word = Some word → word ≠ [] →
            check_answer current_word ws answer = NoAnswer)
       ∧ (∀ is_correct, check_answer current_word ws answer ≠ Verdict is_correct)).
Proof.
  split; [apply fuzzy_match_same|].
  split; [apply fuzzy_match_empty|].
  intros current_word ws answer Hblank.
  rewrite (check_answer_blank _ _ _ Hblank).
  destruct current_word as [[|c word]|]; split_and!; try done; auto;
    by intros word [= <-].
Qed.

Lemma matcher_round_trip_witness :
  fuzzy_match (py "lucid") (py "lucid") = true
  ∧ fuzzy_match [] (py "lucid") = true
  ∧ check_answer (Some (py "lucid")) lucid_store (py "   ") = NoAnswer.
Proof.
  pose proof (@matcher_round_trip ascii_lowering (py "lucid")) as (Hsame & Hempty & Hblank).
  split; [exact Hsame|]. split; [exact Hempty|].
  destruct (Hblank (Some (py "lucid")) lucid_store (py "   ") eq_refl) as (_ & Hsilent & _).
  by apply (Hsilent (py "lucid")).
Defined.

(** C6 as the specification words it fails: the reference [abc] does not
    reduce to the empty text, and the empty text matches it. *)
Lemma matcher_round_trip_counterexample :
  normalize (py "abc") ≠ [] ∧ fuzzy_match [] (py "abc") ≠ false.
Proof. split; run. Qed.

(** C7, as the code has it.  [blue color] matches [a shade of blue; color
    term], through the last test.  The first test fails.  The text kept
    before the first separator is [a shade of blue], [ashadeofblue] once
    normalized, and the second test fails on it: neither of [bluecolor]
    and [ashadeofblue] is in the other.  The slice [bl] of the normalized
    reference is in [bluecolor]. *)
Theorem blue_color_match `{Lowering} :
  let user_input := py "blue color" in
  let correct := py "a shade of blue; color term" in
  fuzzy_match user_input correct = true
  ∧ normalize user_input = py "bluecolor"
  ∧ normalize correct = py "ashadeofblue;colorterm"
  ∧ keywords_of correct = py "ashadeofblue"
  ∧ whole_test user_input correct = false
  ∧ keywords_test user_input correct = false
  ∧ bigram_test user_input correct = true
  ∧ slice2 (normalize correct) 8 = py "bl"
  ∧ contains (normalize user_input) (py "bl") = true.
Proof.
  intros user_input correct.
  assert (normalize user_input = py "bluecolor") as Huser.
  { unfold normalize. by rewrite lower_plain. }
  assert (normalize correct = py "ashadeofblue;colorterm") as Hcorrect.
  { unfold normalize. by rewrite lower_plain. }
  assert (keywords_of correct = py "ashadeofblue") as Hkeywords.
  { unfold keywords_of. by rewrite lower_plain. }
  assert (whole_test user_input correct = false) as Hwhole.
  { unfold whole_test. by rewrite Huser, Hcorrect. }
  assert (keywords_test user_input correct = false) as Hkey.
  { unfold keywords_test. by rewrite Huser, Hkeywords. }
  assert (bigram_test user_input correct = true) as Hbigram.
  { unfold bigram_test. by rewrite Huser, Hcorrect. }
  unfold fuzzy_match. rewrite Hwhole, Hkey, Hbigram, Huser, Hcorrect.
  done.
Qed.

Lemma blue_color_match_witness :
  @bigram_test ascii_lowering (py "blue color") (py "a shade of blue; color term") = true.
Proof.
  exact (proj1 (proj2 (proj2 (proj2 (proj2 (proj2 (proj2
    (@blue_color_match ascii_lowering)))))))).
Defined.

(** C7 as the specification words it fails: on these two texts the test on
    the text before the separator does not succeed. *)
Lemma blue_color_match_counterexample :
  keywords_of (py "a shade of blue; color term") = py "ashadeofblue"
  ∧ keywords_test (py "blue color") (py "a shade of blue; color term") ≠ true.
Proof. split; [reflexivity|run]. Qed.

(** ** The extractor *)

Lemma foldl_agree {A B} (f g : A → B → A) (l : list B) (a : A) :
  (∀ x a', x ∈ l → f a' x = g a' x) → foldl f a l = foldl g a l.
Proof.
  revert a. induction l as [|x l IH]; intros a Hfg; simpl; [done|].
  rewrite Hfg by (by left). apply IH. intros y a' Hy. apply Hfg. by right.
Qed.

Lemma lstrip_by_Forall (P : N → Prop) f s : Forall P s → Forall P (lstrip_by f s).
Proof.
  induction 1 as [|c s Hc Hs IH]; simpl; [done|].
  destruct (f c); [done|by constructor].
Qed.

Lemma strip_by_Forall (P : N → Prop) f s : Forall P s → Forall P (strip_by f s).
Proof.
  intros Hs. unfold strip_by.
  by apply Forall_reverse, lstrip_by_Forall, Forall_reverse, lstrip_by_Forall.
Qed.

Lemma word_char_ascii c : word_char c → is_ascii c.
Proof.
  unfold word_char, is_alpha, is_joiner, is_ascii.
  intros [Hc|Hc].
  - apply orb_true_iff in Hc as [Hc|Hc]; apply andb_true_iff in Hc as [_ Hc];
      apply N.leb_le in Hc; lia.
  - apply orb_true_iff in Hc as [Hc|Hc]; apply N.eqb_eq in Hc; lia.
Qed.

Lemma flush_Forall (P : str → Prop) cur found :
  P cur → Forall P found → Forall P (flush cur found).
Proof.
  intros Hcur Hfound. unfold flush. case_bool_decide; [|done].
  apply Forall_app. split; [done|]. by constructor.
Qed.

Lemma findall_from_chars s : ∀ cur found,
  Forall word_char cur → Forall (Forall word_char) found →
  Forall (Forall word_char) (findall_from cur found s).
Proof.
  induction s as [|c s IH]; intros cur found Hcur Hfound; simpl.
  - by apply flush_Forall.
  - destruct (is_alpha c) eqn:Halpha.
    + apply IH; [|done]. apply Forall_app. split; [done|].
      constructor; [by left|done].
    + destruct (is_joiner c) eqn:Hjoin; simpl.
      * destruct (_ && _).
        -- apply IH; [|done]. apply Forall_app. split; [done|].
           constructor; [by right|done].
        -- apply IH; [done|]. by apply flush_Forall.
      * apply IH; [done|]. by apply flush_Forall.
Qed.

Lemma findall_words_ascii part word :
  word ∈ findall_words part → Forall is_ascii (strip_by is_joiner word).
Proof.
  intros Hword. apply strip_by_Forall.
  assert (Forall (Forall word_char) (findall_words part)) as Hall
    by (by apply findall_from_chars).
  rewrite Forall_forall in Hall. specialize (Hall word Hword).
  eapply Forall_impl; [exact Hall|]. apply word_char_ascii.
Qed.

Section ImporterFacts.
Context `{L : Lowering}.

Lemma exists_lower_empty word_lower : exists_lower ∅ word_lower = false.
Proof. unfold exists_lower. by rewrite map_to_list_empty. Qed.

(** On an empty store the extractor asks [lower] for the matches of
    [findall], which are ASCII, and for the phrases.  When the phrases of
    the text are ASCII too, the result is the one ASCII lowering gives. *)
Lemma take_word_agree acc word :
  Forall is_ascii (strip_by is_joiner word) →
  @take_word L ∅ acc word = @take_word ascii_lowering ∅ acc word.
Proof.
  intros Hword. unfold take_word.
  rewrite !exists_lower_empty, !(lower_ascii _ Hword). reflexivity.
Qed.

Lemma take_part_agree acc part :
  (is_phrase (strip part) = true → Forall is_ascii (strip part)) →
  @take_part L ∅ acc part = @take_part ascii_lowering ∅ acc part.
Proof.
  intros Hphrase. unfold take_part.
  case_bool_decide; [done|].
  destruct (is_phrase (strip part)).
  - rewrite !exists_lower_empty, !(lower_ascii _ (Hphrase eq_refl)). reflexivity.
  - apply foldl_agree. intros word acc' Hword.
    by eapply take_word_agree, findall_words_ascii.
Qed.

Lemma import_words_set_agree text :
  Forall (Forall is_ascii) (phrases_of text) →
  @import_words_set L ∅ text = @import_words_set ascii_lowering ∅ text.
Proof.
  intros Hphrases. unfold import_words_set.
  apply foldl_agree. intros line acc Hline. unfold take_line.
  case_bool_decide; [done|].
  apply foldl_agree. intros part acc' Hpart.
  apply take_part_agree. intros Hphrase.
  rewrite Forall_forall in Hphrases. apply Hphrases.
  unfold phrases_of. apply list_elem_of_bind. exists line. split; [|done].
  apply list_elem_of_bind. exists part. split; [|done].
  rewrite Hphrase. by left.
Qed.
End ImporterFacts.

(** C9, as the code has it.  On an empty store the text [apple, 苹果],
    line feed, [apple,duplicate] gives two candidates, [apple] and
    [duplicate]: [apple], met on both lines, is kept once, [duplicate] is a
    run of letters and is kept, and [苹果] gives nothing. *)
Theorem import_scenario `{Lowering} :
  import_words_set ∅ scenario_text = {[ py "apple"; py "duplicate" ]}
  ∧ (∀ w, w ∈ import_words_only ∅ scenario_text ↔ w = py "apple" ∨ w = py "duplicate")
  ∧ length (import_words_only ∅ scenario_text) = 2%nat
  ∧ NoDup (import_words_only ∅ scenario_text).
Proof.
  assert (import_words_set ∅ scenario_text
          = ({[ py "apple"; py "duplicate" ]} : gset str)) as Hset.
  { rewrite import_words_set_agree; [by vm_compute|]. by vm_compute. }
  unfold import_words_only. rewrite Hset.
  split; [done|]. split; [|split].
  - intros w. by rewrite elem_of_elements, elem_of_union, !elem_of_singleton.
  - by vm_compute.
  - apply NoDup_elements.
Qed.

Lemma import_scenario_witness :
  @import_words_set ascii_lowering ∅ scenario_text = {[ py "apple"; py "duplicate" ]}.
Proof. exact (proj1 (@import_scenario ascii_lowering)). Defined.

(** C9 as the specification words it fails: the candidates are not one
    word, [duplicate] is among them. *)
Lemma import_scenario_counterexample :
  length (import_words_only ∅ scenario_text) ≠ 1%nat
  ∧ py "duplicate" ∈ import_words_only ∅ scenario_text.
Proof. split; run. Qed.

(** Within one text the candidates are told apart as written: [Apple] and
    [apple] are two candidates. *)
Example import_keeps_case :
  import_words_set ∅ (py "Apple" ++ [LF] ++ py "apple") = {[ py "Apple"; py "apple" ]}.
Proof. by vm_compute. Qed.

(** A word of the store, in any case, is not a candidate. *)
Example import_skips_stored :
  import_words_set {[ py "Apple" := entry 0 [] ]} (py "apple,pear") = {[ py "pear" ]}.
Proof. by vm_compute. Qed.

(** ** The order of the due words, on an example *)

(** A word with six reviews is sorted ahead of a word with seven, and two
    words with the same count go by their text. *)
Example lucid_sorted_first :
  let ws : gmap str WordRecord :=
    {[ py "apex" := entry 7 []; py "lucid" := entry 6 []; py "keen" := entry 6 [] ]} in
  sorted_by_count ws [py "apex"; py "lucid"; py "keen"] = [py "keen"; py "lucid"; py "apex"].
Proof. by vm_compute. Qed.

(** * Further properties of the code *)

(** ** Dates written by [strftime] are read back by [strptime] *)

Lemma digit_val_digit n : digit_val (digit n) = Some (n mod 10).
Proof.
  unfold digit_val, digit.
  pose proof (Z.mod_pos_bound n 10 eq_refl) as Hk.
  remember (n mod 10) as k eqn:Ek. clear Ek.
  assert (k = 0 ∨ k = 1 ∨ k = 2 ∨ k = 3 ∨ k = 4 ∨ k = 5 ∨ k = 6 ∨ k = 7 ∨ k = 8 ∨ k = 9)
    as Hcases by lia.
  repeat (destruct Hcases as [->|Hcases]; [reflexivity|]). by subst.
Qed.

Lemma digit_ascii n : (48 ≤ digit n ≤ 57)%N.
Proof. unfold digit. pose proof (Z.mod_pos_bound n 10 eq_refl). lia. Qed.

Lemma decimal_digit `{Decimals} n : decimal (digit n) = Some (n mod 10).
Proof.
  rewrite decimal_ascii by apply digit_ascii. f_equal.
  unfold digit. pose proof (Z.mod_pos_bound n 10 eq_refl). lia.
Qed.

Lemma re_year_pad4 `{Decimals} y rest :
  0 ≤ y ≤ 9999 → re_year (pad4 y ++ rest) = [(y, rest)].
Proof.
  intros Hy. unfold re_year, pad4. cbn [app]. rewrite !decimal_digit.
  do 2 f_equal. Z.div_mod_to_equations. lia.
Qed.

(** On the two digits [strftime] writes, [[1-2]\d] reads what [[1-2][0-9]]
    reads. *)
Lemma range_then_decimal_pad2 `{Decimals} lo hi d :
  range_then_decimal lo hi (pad2 d) = two_digits lo hi 0 9 (pad2 d).
Proof.
  unfold range_then_decimal, two_digits, pad2.
  rewrite decimal_digit. unfold in_range at 3. rewrite digit_val_digit.
  pose proof (Z.mod_pos_bound d 10 eq_refl).
  destruct (Z.leb_spec 0 (d mod 10)); [|lia].
  destruct (Z.leb_spec (d mod 10) 9); [|lia]. done.
Qed.

Lemma re_month_pad2 m rest :
  1 ≤ m ≤ 12 → ∃ others, re_month (pad2 m ++ rest) = (m, rest) :: others.
Proof.
  intros Hm.
  assert (m = 1 ∨ m = 2 ∨ m = 3 ∨ m = 4 ∨ m = 5 ∨ m = 6 ∨ m = 7 ∨ m = 8 ∨ m = 9
          ∨ m = 10 ∨ m = 11 ∨ m = 12) as Hcases by lia.
  repeat (destruct Hcases as [->|Hcases]; [eexists; reflexivity|]).
  subst. eexists; reflexivity.
Qed.

Lemma re_day_pad2 `{Decimals} d :
  1 ≤ d ≤ 31 → ∃ others, re_day (pad2 d) = (d, []) :: others.
Proof.
  intros Hd. unfold re_day. rewrite range_then_decimal_pad2.
  assert (∃ n : nat, d = Z.of_nat n ∧ (1 ≤ n ≤ 31)%nat) as (n & -> & Hn)
    by (exists (Z.to_nat d); lia).
  do 32 (destruct n as [|n]; [try lia; eexists; reflexivity|]). lia.
Qed.

Lemma days_in_month_le y m : days_in_month y m ≤ 31.
Proof.
  unfold days_in_month. destruct (_ && _); [lia|].
  destruct (decide (m - 1 < 0)).
  - replace (Z.to_nat (m - 1)) with 0%nat by lia. simpl. lia.
  - remember (Z.to_nat (m - 1)) as k. clear.
    do 13 (destruct k as [|k]; [simpl; lia|]). simpl. destruct k; lia.
Qed.

Lemma strptime_strftime `{Decimals} d :
  valid_date d = true → strptime_ymd (strftime_ymd d) = Some d.
Proof.
  intros Hvalid. pose proof Hvalid as Hv. unfold valid_date in Hv.
  repeat (apply andb_true_iff in Hv as [Hv ?]).
  repeat match goal with H : (_ <=? _) = true |- _ => apply Z.leb_le in H end.
  pose proof (days_in_month_le (year d) (month d)).
  destruct (re_month_pad2 (month d) ([HYPHEN] ++ pad2 (day d))) as [om Hm]; [lia|].
  destruct (re_day_pad2 (day d)) as [od Hd]; [lia|].
  unfold strptime_ymd, re_ymd, strftime_ymd.
  rewrite re_year_pad4 by lia. simpl.
  simpl in Hm. rewrite Hm. simpl. rewrite Hd. simpl.
  destruct d as [y m dd]; simpl in *. by rewrite Hvalid.
Qed.

Lemma strftime_not_empty d : strftime_ymd d ≠ [].
Proof. done. Qed.

Lemma required_interval_bounds rc : 2 ≤ required_interval rc ≤ 30.
Proof.
  rewrite required_interval_table.
  repeat (destruct (_ =? _); [lia|]). lia.
Qed.

(** A mastered word dated today is not due. *)
Lemma dated_today_not_due `{Decimals} today rc :
  valid_date today = true → is_due today rc (strftime_ymd today) = false.
Proof.
  intros Hvalid. unfold is_due. rewrite bool_decide_true by done.
  rewrite strptime_strftime by done. unfold days_between.
  pose proof (required_interval_bounds rc). apply Z.leb_gt. lia.
Qed.

(** ** What the loop marks as completed *)

Section Marks.
Context `{Decimals} (ws : gmap str WordRecord) (today : date).

(** A word is marked in the loop only if its date is today's text. *)
Lemma foldl_marked_dated l : ∀ b,
  (∀ x, x ∈ completed b → date_of ws x = strftime_ymd today) →
  (∀ i, i ∈ l → ws !! i.1 = Some i.2) →
  ∀ x, x ∈ completed (foldl (classify today) b l) → date_of ws x = strftime_ymd today.
Proof.
  induction l as [|[w r] l IH]; intros b Hb Hl; simpl; [done|].
  apply IH; [|intros i Hi; apply Hl; by right].
  assert (ws !! w = Some r) as Hw by (apply (Hl (w, r)); by left).
  assert (∀ x, x ∈ mark_if_today today (last_review_date r) w (completed b) →
               date_of ws x = strftime_ymd today) as Hmark.
  { intros x. unfold mark_if_today. case_bool_decide as Hd; [|apply Hb].
    intros [->%elem_of_singleton|Hx]%elem_of_union; [|by apply Hb].
    unfold date_of. by rewrite Hw. }
  unfold classify.
  repeat (first [case_bool_decide | destruct (_ =? _) | destruct (_ <? _)
                | destruct (_ <=? _) | destruct (strptime_ymd _)]); simpl; done.
Qed.

(** The loop never takes a mark back. *)
Lemma classify_keeps_marks b i x : x ∈ completed b → x ∈ completed (classify today b i).
Proof.
  destruct i as [w r]. unfold classify, mark_if_today. intros Hx.
  repeat (first [case_bool_decide | destruct (_ =? _) | destruct (_ <? _)
                | destruct (_ <=? _) | destruct (strptime_ymd _)]); simpl;
    set_solver.
Qed.

Lemma foldl_keeps_marks l : ∀ b x,
  x ∈ completed b → x ∈ completed (foldl (classify today) b l).
Proof.
  induction l as [|i l IH]; intros b x Hx; simpl; [done|].
  by apply IH, classify_keeps_marks.
Qed.

(** A word with fewer than three reviews dated today is marked. *)
Lemma foldl_marks_low l : ∀ b w r,
  (w, r) ∈ l → review_count r < 3 → last_review_date r = strftime_ymd today →
  w ∈ completed (foldl (classify today) b l).
Proof.
  induction l as [|i l IH]; intros b w r Hin Hrc Hd; [by apply elem_of_nil in Hin|].
  simpl. apply elem_of_cons in Hin as [<-|Hin]; [|by eapply IH].
  apply foldl_keeps_marks. unfold classify, mark_if_today.
  destruct (review_count r =? 0); simpl.
  - rewrite bool_decide_true by done. set_solver.
  - destruct (Z.ltb_spec (review_count r) 3); [|lia]. simpl.
    rewrite bool_decide_true by done. set_solver.
Qed.

Lemma mark_sampled_keeps sampled : ∀ c x,
  x ∈ c → x ∈ mark_sampled ws today sampled c.
Proof.
  unfold mark_sampled.
  induction sampled as [|w l IH]; intros c x Hx; simpl; [done|].
  apply IH. unfold mark_if_today. case_bool_decide; set_solver.
Qed.

Lemma mark_sampled_marks sampled : ∀ c x,
  x ∈ sampled → date_of ws x = strftime_ymd today →
  x ∈ mark_sampled ws today sampled c.
Proof.
  induction sampled as [|w l IH]; intros c x Hx Hd; [by apply elem_of_nil in Hx|].
  apply elem_of_cons in Hx as [->|Hx].
  - unfold mark_sampled. simpl. apply (mark_sampled_keeps l).
    unfold mark_if_today. rewrite bool_decide_true by done. set_solver.
  - unfold mark_sampled. simpl. by apply IH.
Qed.

Lemma mark_sampled_dated sampled : ∀ c x,
  x ∈ mark_sampled ws today sampled c →
  x ∈ c ∨ date_of ws x = strftime_ymd today.
Proof.
  unfold mark_sampled.
  induction sampled as [|w l IH]; intros c x; simpl; [by left|].
  intros [Hx|Hx]%IH; [|by right].
  unfold mark_if_today in Hx. case_bool_decide as Hd; [|by left].
  apply elem_of_union in Hx as [->%elem_of_singleton|Hx]; [by right|by left].
Qed.
End Marks.

(** ** The daily tasks, further *)

Section Tasks.
Context `{Decimals} `{Random} (today : date) (ambient entropy : rng) (m : WordManager).

Let built := init_today_tasks today ambient entropy m.
Let b := partition_words (words m) today.

Lemma elem_init_tasks w :
  w ∈ today_tasks built ↔
  w ∈ unreviewed b ∨ w ∈ reviewing b ∨ w ∈ mastered_due b
  ∨ w ∈ sampled_of (words m) today b.
Proof. unfold built. by rewrite init_tasks_perm, elem_tasks_in_order. Qed.

Lemma init_tasks_stored w : w ∈ today_tasks built → is_Some (words m !! w).
Proof.
  rewrite elem_init_tasks.
  intros [(r & -> & _)%elem_unreviewed
         |[(r & -> & _)%elem_reviewing
          |[(r & -> & _)%elem_mastered_due
           |[(r & -> & _)%elem_mastered _]%sampled_not_due]]]; done.
Qed.

Lemma NoDup_init_tasks : NoDup (today_tasks built).
Proof. unfold built. rewrite init_tasks_perm. apply NoDup_tasks_in_order. Qed.

Lemma init_completed_dated w :
  w ∈ today_completed built → date_of (words m) w = strftime_ymd today.
Proof.
  unfold built; simpl. intros [Hw|Hw]%mark_sampled_dated; [|done].
  revert w Hw. apply foldl_marked_dated.
  - intros x Hx. by apply elem_of_empty in Hx.
  - intros [w r] Hi. by apply elem_of_map_to_list.
Qed.

Lemma init_marks_dated w :
  valid_date today = true →
  w ∈ today_tasks built → date_of (words m) w = strftime_ymd today →
  w ∈ today_completed built.
Proof.
  intros Hvalid Hw Hd. unfold built; simpl.
  apply elem_init_tasks in Hw as [Hw|[Hw|[Hw|Hw]]].
  - apply elem_unreviewed in Hw as (r & Hr & Hrc).
    apply mark_sampled_keeps. unfold date_of in Hd. rewrite Hr in Hd.
    eapply foldl_marks_low; [by apply elem_of_map_to_list|lia|done].
  - apply elem_reviewing in Hw as (r & Hr & _ & Hrc).
    apply mark_sampled_keeps. unfold date_of in Hd. rewrite Hr in Hd.
    eapply foldl_marks_low; [by apply elem_of_map_to_list|lia|done].
  - apply elem_mastered_due in Hw as (r & Hr & _ & Hdue).
    unfold date_of in Hd. rewrite Hr in Hd. simpl in Hd.
    rewrite Hd, dated_today_not_due in Hdue; done.
  - by apply mark_sampled_marks.
Qed.
End Tasks.

(** X1. [init_today_tasks] schedules stored words only, and none twice:
    every task is a key of the store.  The store itself is not touched. *)
Theorem tasks_are_stored_words `{Decimals} `{Random} (today : date) (ambient entropy : rng)
    (m : WordManager) :
  let built := init_today_tasks today ambient entropy m in
  (∀ w, w ∈ today_tasks built → is_Some (words m !! w))
  ∧ NoDup (today_tasks built)
  ∧ words built = words m
  ∧ (length (today_tasks built) ≤ size (words m))%nat.
Proof.
  intros built.
  assert (∀ w, w ∈ today_tasks built → is_Some (words m !! w)) as Hstored
    by apply init_tasks_stored.
  assert (NoDup (today_tasks built)) as Hnd by apply NoDup_init_tasks.
  repeat split; try done.
  rewrite <-length_map_to_list, <-(length_fmap fst).
  apply submseteq_length, NoDup_submseteq; [done|].
  intros w [r Hr]%Hstored. apply list_elem_of_fmap. exists (w, r).
  split; [done|]. by apply elem_of_map_to_list.
Qed.

(** X2. The cap of ten bears on the draw only: every mastered word that is
    due is a task, however many are due.  A mastered word is due when its
    date is unset or does not parse, and whatever its count once thirty days
    have passed; it is not due within a day of its review, and then it is a
    task only as one of the drawn words, which needs fewer than ten due. *)
Theorem mastered_words_schedule `{Decimals} `{Random} (today : date) (ambient entropy : rng)
    (m : WordManager) (w : str) (r : WordRecord) :
  words m !! w = Some r →
  3 ≤ review_count r →
  let tasks := today_tasks (init_today_tasks today ambient entropy m) in
  let b := partition_words (words m) today in
  (w ∈ mastered_due b → w ∈ tasks)
  ∧ (last_review_date r = [] → w ∈ tasks)
  ∧ (strptime_ymd (last_review_date r) = None → w ∈ tasks)
  ∧ (∀ d, strptime_ymd (last_review_date r) = Some d →
       30 ≤ days_between today d → w ∈ tasks)
  ∧ (∀ d, strptime_ymd (last_review_date r) = Some d →
       days_between today d < 2 →
       (w ∉ mastered_due b)
       ∧ (w ∈ tasks → w ∈ sampled_of (words m) today b
                      ∧ (length (mastered_due b) < 10)%nat)).
Proof.
  intros Hw Hrc tasks b.
  assert (w ∈ mastered_due b ↔
          is_due today (review_count r) (last_review_date r) = true) as Hin_due.
  { unfold b. rewrite elem_mastered_due. split.
    - intros (r' & Hr' & _ & Hd). by simplify_eq.
    - intros Hd. by exists r. }
  rewrite is_due_cases in Hin_due.
  assert (last_review_date r = [] → w ∈ mastered_due b) as Hunset
    by (intros ?; apply Hin_due; by left).
  assert (strptime_ymd (last_review_date r) = None → w ∈ mastered_due b) as Hbad
    by (intros ?; apply Hin_due; by right; left).
  assert (∀ d, strptime_ymd (last_review_date r) = Some d →
            (w ∈ mastered_due b ↔ required_interval (review_count r) ≤ days_between today d))
    as Hiff.
  { intros d Hd. rewrite Hin_due. split.
    - intros [Hnil|[?|(d' & ? & ?)]]; [|congruence|by simplify_eq].
      by rewrite Hnil in Hd.
    - intros ?. right; right. by exists d. }
  pose proof (required_interval_bounds (review_count r)) as Hbounds.
  assert (w ∈ mastered_due b → w ∈ tasks) as Hdue.
  { intros Hin. apply elem_init_tasks. fold b. tauto. }
  split; [done|]. split; [auto|]. split; [auto|]. split.
  - intros d Hd Hdays. apply Hdue, (Hiff d Hd). lia.
  - intros d Hd Hdays.
    assert (w ∉ mastered_due b) as Hnot by (rewrite (Hiff d Hd); lia).
    split; [done|]. intros Hin.
    apply elem_init_tasks in Hin. fold b in Hin.
    destruct Hin as [(r' & ? & ?)%elem_unreviewed
                    |[(r' & ? & ? & ?)%elem_reviewing|[?|Hs]]];
      [simplify_eq; lia|simplify_eq; lia|done|].
    split; [done|]. apply (sampled_only_below_ten (words m) today).
    intros Hnil. fold b in Hnil. rewrite Hnil in Hs. by apply elem_of_nil in Hs.
Qed.

Lemma mastered_words_schedule_witness :
  py "lucid" ∈ today_tasks (init_today_tasks march_16 0%nat 0%nat (start lucid_store)).
Proof.
  refine (proj1 (@mastered_words_schedule unicode_decimals turning_random march_16 0%nat 0%nat
                   (start lucid_store) (py "lucid") (entry 6 (py "2024-03-01")) _ _) _);
    [reflexivity | by compute | run].
Defined.

(** X3. For a date of the calendar, the words [init_today_tasks] leaves in
    [today_completed] are exactly the tasks whose [last_review_date] is the
    text of today's date. *)
Theorem completed_are_tasks_dated_today `{Decimals} `{Random} (today : date)
    (ambient entropy : rng)
    (m : WordManager) (w : str) :
  valid_date today = true →
  1000 ≤ year today →
  let built := init_today_tasks today ambient entropy m in
  w ∈ today_completed built ↔
  w ∈ today_tasks built ∧ date_of (words m) w = strftime_ymd today.
Proof.
  intros Hvalid _ built. split.
  - intros Hw. split; [by apply init_completed_in_tasks|by eapply init_completed_dated].
  - intros [Hw Hd]. by apply init_marks_dated.
Qed.

Lemma completed_are_tasks_dated_today_witness :
  let ws : gmap str WordRecord := {[ py "weak" := entry 2 (py "2024-03-16") ]} in
  py "weak" ∈ today_completed (init_today_tasks march_16 0%nat 0%nat (start ws)).
Proof.
  intros ws.
  apply (@completed_are_tasks_dated_today unicode_decimals turning_random march_16 0%nat 0%nat
           (start ws) (py "weak")); [reflexivity | by compute |].
  split; [run | reflexivity].
Defined.

(** ** Grading and the words left to review *)

Lemma grade_stored o t1 t2 w m r :
  words m !! w = Some r →
  today_tasks (grade o t1 t2 w m) = today_tasks m
  ∧ today_completed (grade o t1 t2 w m) = {[w]} ∪ today_completed m
  ∧ date_of (words (grade o t1 t2 w m)) w = strftime_ymd (dt_date t2)
  ∧ dom (words (grade o t1 t2 w m)) = dom (words m).
Proof.
  intros Hw. destruct o; simpl;
    unfold review_word, mark_reviewed_without_count, date_of;
    rewrite Hw; simpl; rewrite lookup_insert_eq; simpl;
    (repeat split; try done);
    by apply dom_insert_lookup_L.
Qed.

Lemma grade_not_stored o t1 t2 w m :
  words m !! w = None → grade o t1 t2 w m = m.
Proof.
  intros Hw. destruct o; simpl;
    unfold review_word, mark_reviewed_without_count; by rewrite Hw.
Qed.

Lemma filter_out_one (l : list str) w :
  NoDup l → w ∈ l → (length (filter (λ x, x ≠ w) l) + 1 = length l)%nat.
Proof.
  intros Hnd Hw.
  rewrite <-(Permutation_length (filter_app_complement (λ x, x ≠ w) l)), length_app.
  f_equal. rewrite <-(count_once l w Hnd Hw). f_equal.
  apply list_filter_iff. intros x. split.
  - intros -> Hne. by apply Hne.
  - intros Hx. destruct (decide (x = w)); [done|by destruct Hx].
Qed.

(** X4. Grading a stored word that is among the words to review takes that
    word, and no other, out of them: one word fewer is left.  The tasks are
    the same list as before and the store has the same keys.  A word that
    is not stored cannot be graded: the call changes nothing. *)
Theorem grading_takes_one_word (o : outcome) (t1 t2 : datetime) (w : str) (m : WordManager) :
  NoDup (today_tasks m) →
  w ∈ get_words_to_review m →
  is_Some (words m !! w) →
  let after := grade o t1 t2 w m in
  get_words_to_review after = filter (λ x, x ≠ w) (get_words_to_review m)
  ∧ (length (get_words_to_review after) + 1 = length (get_words_to_review m))%nat
  ∧ today_tasks after = today_tasks m
  ∧ NoDup (today_tasks after)
  ∧ dom (words after) = dom (words m)
  ∧ (∀ o' t1' t2' w', words m !! w' = None → grade o' t1' t2' w' m = m).
Proof.
  intros Hnd Hw [r Hr] after.
  destruct (grade_stored o t1 t2 w m r Hr) as (Htasks & Hdone & _ & Hdom).
  fold after in Htasks, Hdone, Hdom.
  assert (get_words_to_review after = filter (λ x, x ≠ w) (get_words_to_review m)) as Heq.
  { unfold get_words_to_review. rewrite Htasks, Hdone, list_filter_filter.
    apply list_filter_iff. intros x.
    rewrite elem_of_union, elem_of_singleton. tauto. }
  split; [done|]. split.
  - rewrite Heq. apply filter_out_one; [|done].
    unfold get_words_to_review. by apply NoDup_filter.
  - split; [done|]. split; [by rewrite Htasks|]. split; [done|].
    intros. by apply grade_not_stored.
Qed.

Lemma grading_takes_one_word_witness :
  let m := init_today_tasks march_16 0%nat 0%nat (start lucid_store) in
  get_words_to_review (grade Unknown (noon march_16) (noon march_16) (py "lucid") m)
  = filter (λ x, x ≠ py "lucid") (get_words_to_review m).
Proof.
  intros m.
  refine (proj1 (grading_takes_one_word Unknown (noon march_16) (noon march_16)
                   (py "lucid") m _ _ _)).
  - exact (@NoDup_init_tasks unicode_decimals turning_random march_16 0%nat 0%nat (start lucid_store)).
  - run.
  - apply (@init_tasks_stored unicode_decimals turning_random march_16 0%nat 0%nat (start lucid_store)).
    run.
Defined.

(** X5. A word graded today, Known or Unknown, is not offered again today,
    also when the tasks are built anew: after [init_today_tasks] on the
    date of the grading it is not among the words to review. *)
Theorem graded_word_not_offered_again `{Decimals} `{Random} (o : outcome) (t1 t2 : datetime)
    (today : date) (ambient entropy : rng) (w : str) (m : WordManager) :
  is_Some (words m !! w) →
  dt_date t2 = today →
  valid_date today = true →
  1000 ≤ year today →
  w ∉ get_words_to_review (init_today_tasks today ambient entropy (grade o t1 t2 w m)).
Proof.
  intros [r Hr] Ht2 Hvalid _.
  destruct (grade_stored o t1 t2 w m r Hr) as (_ & _ & Hdate & _).
  unfold get_words_to_review. rewrite list_elem_of_filter. intros [Hnot Hin].
  apply Hnot. apply init_marks_dated; [done|done|].
  simpl. by rewrite Hdate, Ht2.
Qed.

Lemma graded_word_not_offered_again_witness :
  py "lucid" ∉ get_words_to_review
    (init_today_tasks march_16 3%nat 4%nat
       (grade Known (noon march_16) (noon march_16) (py "lucid") (start lucid_store))).
Proof.
  apply (@graded_word_not_offered_again unicode_decimals turning_random);
    [by eexists | reflexivity | reflexivity | by compute].
Defined.

(** ** Adding a word *)

Lemma strip_by_nil f : strip_by f [] = [].
Proof. reflexivity. Qed.

(** X6. [add_word] stores the stripped word with a fresh record (no review,
    no date) when it is not empty and not a key yet, and touches no other
    record; otherwise it changes nothing, so a stored word is never
    overwritten.  After the tasks are built anew, the new word is among the
    words to review. *)
Theorem added_word_is_offered `{Decimals} `{Random} (today : date) (ambient entropy : rng)
    (word meaning_text : str) (exs : list (str * str)) (m : WordManager) :
  let w := strip word in
  let added := add_word word meaning_text exs m in
  (is_Some (words m !! w) ∨ w = [] → added = m)
  ∧ (w ≠ [] → words m !! w = None →
       words added !! w
         = Some {| meaning := strip meaning_text; examples := exs; review_count := 0;
                   last_review := []; last_review_date := []; today_reviewed := false |}
       ∧ (∀ w', w' ≠ w → (words added !! w') = (words m !! w'))
       ∧ size (words added) = S (size (words m))
       ∧ w ∈ get_words_to_review (init_today_tasks today ambient entropy added)).
Proof.
  intros w added. split.
  - intros Hno. unfold added, add_word. fold w.
    destruct Hno as [[r Hr]| ->].
    + rewrite Hr. rewrite (bool_decide_false (Some r = None)) by done.
      by rewrite andb_false_r.
    + by rewrite (bool_decide_false ([] ≠ [])) by (intros Hne; by apply Hne).
  - intros Hne Hnew.
    assert (added = {| words := <[w := {| meaning := strip meaning_text; examples := exs;
                                         review_count := 0; last_review := [];
                                         last_review_date := []; today_reviewed := false |}]>
                                  (words m);
                       today_tasks := today_tasks m;
                       today_completed := today_completed m |}) as ->.
    { unfold added, add_word. fold w.
      by rewrite (bool_decide_true (w ≠ [])), (bool_decide_true (words m !! w = None)). }
    simpl. split; [by rewrite lookup_insert_eq|].
    split; [by intros w' Hw'; rewrite lookup_insert_ne|].
    split; [by apply map_size_insert_None|].
    unfold get_words_to_review. apply list_elem_of_filter. split.
    + intros Hdone%init_completed_dated. simpl in Hdone.
      unfold date_of in Hdone. by rewrite lookup_insert_eq in Hdone.
    + apply elem_init_tasks. left. apply elem_unreviewed. simpl.
      eexists. split; [apply lookup_insert_eq|done].
Qed.

Lemma added_word_is_offered_witness :
  py "keen" ∈ get_words_to_review
    (init_today_tasks march_16 0%nat 0%nat
       (add_word (py " keen ") (py "sharp") [] (start lucid_store))).
Proof.
  refine (proj2 (proj2 (proj2 (proj2
    (@added_word_is_offered unicode_decimals turning_random march_16 0%nat 0%nat (py " keen ") (py "sharp")
       [] (start lucid_store)) _ _))));
    [by compute | reflexivity].
Defined.

(** ** The matcher, further *)

Lemma split_head_spaces sep pre s :
  Forall (λ c, c = SPACE) pre → sep ≠ SPACE →
  split_head sep (pre ++ s) = pre ++ split_head sep s.
Proof.
  intros Hpre Hsep. induction Hpre as [|c pre -> _ IH]; [done|].
  cbn [app split_head].
  destruct (N.eqb_spec SPACE sep) as [Heq|_]; [congruence|]. by rewrite IH.
Qed.

Ltac distinct := let E := fresh in intros E; vm_compute in E; discriminate E.

Lemma split_head_all_spaces sep pre :
  Forall (λ c, c = SPACE) pre → sep ≠ SPACE → split_head sep pre = pre.
Proof.
  intros Hpre Hsep.
  rewrite <-(app_nil_r pre) at 1. rewrite split_head_spaces by done.
  simpl. apply app_nil_r.
Qed.

Lemma split_head_at_separator pre sep rest :
  Forall (λ c, c = SPACE) pre → sep ≠ SPACE →
  split_head sep (pre ++ sep :: rest) = pre.
Proof.
  intros Hpre Hsep. rewrite split_head_spaces by done.
  cbn [split_head]. rewrite N.eqb_refl. apply app_nil_r.
Qed.

Lemma split_head_past_separator pre sep other rest :
  Forall (λ c, c = SPACE) pre → sep ≠ SPACE → other ≠ sep →
  split_head sep (pre ++ other :: rest) = pre ++ other :: split_head sep rest.
Proof.
  intros Hpre Hsep Hother. rewrite split_head_spaces by done.
  cbn [split_head]. by destruct (N.eqb_spec other sep).
Qed.

Lemma remove_spaces_spaces pre : Forall (λ c, c = SPACE) pre → remove_spaces pre = [].
Proof.
  unfold remove_spaces. induction 1 as [|c pre -> _ IH]; [done|].
  rewrite filter_cons. by rewrite decide_False by (intros Hne; by apply Hne).
Qed.

Lemma startswith_elem s p x : startswith s p = true → x ∈ p → x ∈ s.
Proof.
  revert s. induction p as [|y p IH]; intros [|z s]; simpl; try done.
  - by intros _ ?%elem_of_nil.
  - intros [Hyz Hrest]%andb_true_iff [->|Hx]%elem_of_cons.
    + apply N.eqb_eq in Hyz as ->. by left.
    + right. by apply IH.
Qed.

Lemma contains_elem hay needle x : contains hay needle = true → x ∈ needle → x ∈ hay.
Proof.
  induction hay as [|c hay IH]; cbn [contains].
  - rewrite orb_false_r. apply startswith_elem.
  - intros [Hstart|Hlater]%orb_true_iff Hx.
    + by eapply startswith_elem.
    + right. by apply IH.
Qed.

Lemma lstrip_by_snoc f l c : f c = false → lstrip_by f (l ++ [c]) = lstrip_by f l ++ [c].
Proof.
  intros Hc. induction l as [|x l IH]; simpl; [by rewrite Hc|].
  by destruct (f x).
Qed.

Lemma lstrip_by_head f s : lstrip_by f s = [] ∨ ∃ c t, lstrip_by f s = c :: t ∧ f c = false.
Proof.
  induction s as [|x s IH]; simpl; [by left|].
  destruct (f x) eqn:Hx; [done|]. right. by exists x, s.
Qed.

Lemma lstrip_by_all f s : lstrip_by f s = [] ↔ Forall (λ c, f c = true) s.
Proof.
  induction s as [|x s IH]; simpl; [done|].
  destruct (f x) eqn:Hx.
  - rewrite IH. split; [by constructor|by inversion 1].
  - split; [done|]. inversion 1; congruence.
Qed.

(** What [strip] leaves is empty, when the text is white space, or begins
    with a character that is not white space. *)
Lemma strip_by_head f s :
  (strip_by f s = [] ∧ Forall (λ c, f c = true) s)
  ∨ (∃ c t, strip_by f s = c :: t ∧ f c = false).
Proof.
  unfold strip_by. destruct (lstrip_by_head f s) as [Hnil|(c & t & Hs & Hc)].
  - left. rewrite Hnil. split; [done|]. by apply lstrip_by_all.
  - right. rewrite Hs. rewrite reverse_cons, lstrip_by_snoc by done.
    rewrite reverse_app. simpl. by eexists _, _.
Qed.

Section MatcherEdges.
Context `{Lowering}.

Lemma keywords_of_separator pre sep rest :
  Forall (λ c, c = SPACE) pre →
  sep ∈ [FULLWIDTH_SEMICOLON; FULLWIDTH_COMMA; IDEOGRAPHIC_COMMA; SEMICOLON] →
  keywords_of (pre ++ sep :: rest) = [].
Proof.
  intros Hpre Hsep. unfold keywords_of.
  repeat (apply elem_of_cons in Hsep as [->|Hsep]);
    [| | | |by apply elem_of_nil in Hsep];
    repeat (first [ rewrite (split_head_at_separator pre) by (done || distinct)
                  | rewrite (split_head_past_separator pre) by (done || distinct)
                  | rewrite (split_head_all_spaces _ pre) by (done || distinct) ]);
    rewrite remove_spaces_spaces by done; apply lower_nil.
Qed.

Lemma fuzzy_match_no_keywords user_input correct :
  keywords_of correct = [] → fuzzy_match user_input correct = true.
Proof.
  intros Hk. unfold fuzzy_match, keywords_test, either_contains.
  rewrite Hk, contains_nil, orb_true_r. by destruct (whole_test _ _).
Qed.

Lemma fuzzy_match_unrelated user_input correct :
  normalize user_input ≠ [] → normalize correct ≠ [] → keywords_of correct ≠ [] →
  (∀ x, x ∈ normalize user_input → x ∉ normalize correct) →
  (∀ x, x ∈ normalize user_input → x ∉ keywords_of correct) →
  fuzzy_match user_input correct = false.
Proof.
  intros Hu Hc Hk Hcorrect Hkeywords.
  assert (∀ a b, a ≠ [] → b ≠ [] → (∀ x, x ∈ a → x ∉ b) → either_contains a b = false)
    as Hneither.
  { intros a b Ha Hb Hab. unfold either_contains. apply orb_false_iff. split.
    - destruct (contains b a) eqn:Hin; [|done].
      destruct a as [|x a]; [done|].
      destruct (Hab x); [by left|]. eapply contains_elem; [done|by left].
    - destruct (contains a b) eqn:Hin; [|done].
      destruct b as [|x b]; [done|].
      destruct (Hab x); [|by left]. eapply contains_elem; [done|by left]. }
  unfold fuzzy_match, whole_test, keywords_test.
  rewrite !Hneither by done.
  destruct (bigram_test user_input correct) eqn:Hbigram; [|done].
  unfold bigram_test in Hbigram.
  apply andb_true_iff in Hbigram as [_ Hsome].
  apply existsb_exists in Hsome as (i & Hi & Hin).
  apply in_seq in Hi.
  destruct (drop i (normalize correct)) as [|x rest] eqn:Hdrop.
  { apply (f_equal length) in Hdrop. rewrite length_drop in Hdrop. simpl in Hdrop. lia. }
  destruct (Hcorrect x).
  - eapply contains_elem; [exact Hin|]. unfold slice2. rewrite Hdrop. by left.
  - eapply elem_of_sublist; [|apply (sublist_drop _ i)]. rewrite Hdrop. by left.
Qed.
End MatcherEdges.

(** X7. A reference whose first separator (one of [；], [，], [、], [;])
    comes before any character other than a space has no key words, and
    then [fuzzy_match] accepts every answer: the empty key words are in
    every text. *)
Theorem separator_first_accepts_every_answer `{Lowering}
    (pre rest user_input : str) (sep : N) :
  Forall (λ c, c = SPACE) pre →
  sep ∈ [FULLWIDTH_SEMICOLON; FULLWIDTH_COMMA; IDEOGRAPHIC_COMMA; SEMICOLON] →
  keywords_of (pre ++ sep :: rest) = []
  ∧ fuzzy_match user_input (pre ++ sep :: rest) = true.
Proof.
  intros Hpre Hsep.
  assert (keywords_of (pre ++ sep :: rest) = []) as Hk
    by (by apply keywords_of_separator).
  split; [done|]. by apply fuzzy_match_no_keywords.
Qed.

Lemma separator_first_accepts_every_answer_witness :
  fuzzy_match (py "zebra") (py " ;fruit") = true.
Proof.
  refine (proj2 (@separator_first_accepts_every_answer ascii_lowering
                   (py " ") (py "fruit") (py "zebra") SEMICOLON _ _)).
  - by repeat constructor.
  - run.
Defined.

(** X8. [fuzzy_match] rejects an answer that has no character in common
    with the reference: when the answer, the reference and the key words
    are not empty once normalized, and no character of the answer is in the
    reference or in the key words, the result is false. *)
Theorem unrelated_answer_rejected `{Lowering} (user_input correct : str) :
  normalize user_input ≠ [] →
  normalize correct ≠ [] →
  keywords_of correct ≠ [] →
  (∀ x, x ∈ normalize user_input → x ∉ normalize correct) →
  (∀ x, x ∈ normalize user_input → x ∉ keywords_of correct) →
  fuzzy_match user_input correct = false.
Proof. apply fuzzy_match_unrelated. Qed.

Lemma unrelated_answer_rejected_witness :
  fuzzy_match (py "zzz") (py "a dog; pet") = false.
Proof.
  apply (@unrelated_answer_rejected ascii_lowering); try done.
  - intros x Hx. revert x Hx. apply Forall_forall.
    repeat constructor; run.
  - intros x Hx. revert x Hx. apply Forall_forall.
    repeat constructor; run.
Defined.

Lemma strip_blank answer :
  strip answer = [] ↔ Forall (λ c, isspace c = true) answer.
Proof.
  destruct (strip_by_head isspace answer) as [[Hnil Hall]|(c & t & Hs & Hc)];
    fold (strip answer) in *.
  - by rewrite Hnil.
  - rewrite Hs. split; [done|]. intros Hall. exfalso.
    assert (Forall (λ c, isspace c = true) (strip answer)) as Hstrip
      by (by apply strip_by_Forall).
    rewrite Hs in Hstrip. inversion Hstrip; congruence.
Qed.

Lemma normalize_strip_ascii `{Lowering} answer :
  all_ascii answer = true → strip answer ≠ [] → normalize (strip answer) ≠ [].
Proof.
  intros Hascii Hne.
  destruct (strip_by_head isspace answer) as [[Hnil Hall]|(c & t & Hs & Hc)];
    fold (strip answer) in *; [done|].
  assert (Forall is_ascii (c :: t)) as Hct.
  { rewrite <-Hs. by apply strip_by_Forall, all_ascii_Forall. }
  rewrite Hs. unfold normalize. rewrite (lower_ascii _ Hct). simpl.
  unfold remove_spaces. rewrite filter_cons.
  rewrite decide_True; [done|].
  unfold ascii_lower, SPACE. intros Hspace.
  destruct ((65 <=? c) && (c <=? 90))%N eqn:Hupper.
  - apply andb_true_iff in Hupper as [Hlo _]. apply N.leb_le in Hlo. lia.
  - subst c. done.
Qed.

(** X9. What [check_answer] comes to, case by case.  With no current word
    (none, or the empty text) it shows the hint, whatever the answer.  With
    a current word it returns silently exactly when the answer is white
    space only; otherwise it looks the word up, which fails when the word
    is not a key of the store, and gives the verdict of [fuzzy_match] on
    the stripped answer and the stored meaning.  So a verdict is given
    exactly for a current word that is stored and an answer that is not
    white space only, and an ASCII answer that gets one is not empty once
    normalized: the matcher is never asked about the empty text. *)
Theorem check_answer_guards_matcher `{Lowering} (current_word : option str)
    (ws : gmap str WordRecord) (answer : str) :
  let blank := Forall (λ c, isspace c = true) answer in
  let result := check_answer current_word ws answer in
  (result = NoCurrentWord ↔ current_word = None ∨ current_word = Some [])
  ∧ (result = NoAnswer ↔ (∃ word, current_word = Some word ∧ word ≠ []) ∧ blank)
  ∧ (result = NotStored ↔
       ∃ word, current_word = Some word ∧ word ≠ [] ∧ ¬ blank ∧ (ws !! word) = None)
  ∧ (∀ is_correct, result = Verdict is_correct ↔
       ∃ word word_data, current_word = Some word ∧ word ≠ [] ∧ ¬ blank
         ∧ (ws !! word) = Some word_data
         ∧ is_correct = fuzzy_match (strip answer) (meaning word_data))
  ∧ (all_ascii answer = true → ¬ blank → normalize (strip answer) ≠ []).
Proof.
  intros blank result. subst blank result. unfold check_answer.
  pose proof (strip_blank answer) as Hiff.
  split_and!; [| | | |intros Hascii Hne; apply normalize_strip_ascii; tauto].
  - destruct current_word as [[|c word]|]; [split; auto| |split; auto].
    split; [|intros [?|?]; done].
    case_bool_decide; [done|]. by destruct (ws !! (c :: word)).
  - destruct current_word as [[|c word]|].
    + split; [done|]. by intros [(word & [= <-] & Hne) _].
    + case_bool_decide as Hblank.
      * split; [|done]. intros _. split; [by exists (c :: word)|tauto].
      * split; [by destruct (ws !! (c :: word))|]. intros [_ Hb]. tauto.
    + split; [done|]. by intros [(word & [=] & _) _].
  - destruct current_word as [[|c word]|].
    + split; [done|]. by intros (word & [= <-] & Hne & _).
    + case_bool_decide as Hblank.
      * split; [done|]. intros (w & _ & _ & Hnb & _). tauto.
      * destruct (ws !! (c :: word)) as [data|] eqn:Hlook.
        -- split; [done|]. intros (w & [= <-] & _ & _ & Hnone). congruence.
        -- split; [|done]. intros _. exists (c :: word). split_and!; [done|done|tauto|done].
    + split; [done|]. by intros (word & [=] & _).
  - intros v. destruct current_word as [[|c word]|].
    + split; [done|]. by intros (word & data & [= <-] & Hne & _).
    + case_bool_decide as Hblank.
      * split; [done|]. intros (w & d & _ & _ & Hnb & _). tauto.
      * destruct (ws !! (c :: word)) as [data|] eqn:Hlook.
        -- split.
           ++ intros [= <-]. exists (c :: word), data. split_and!; [done|done|tauto|done|done].
           ++ intros (w & d & [= <-] & _ & _ & Hd & ->). congruence.
        -- split; [done|]. intros (w & d & [= <-] & _ & _ & Hd & _). congruence.
    + split; [done|]. by intros (word & data & [=] & _).
Qed.

Lemma check_answer_guards_matcher_witness :
  let ws : gmap str WordRecord := {[ py "azure" := fresh_record (py "blue") [] ]} in
  check_answer (Some (py "azure")) ws (py "  Blue ")
    = Verdict (fuzzy_match (py "Blue") (py "blue"))
  ∧ normalize (strip (py "  Blue ")) ≠ [].
Proof.
  intros ws.
  destruct (@check_answer_guards_matcher ascii_lowering (Some (py "azure")) ws
              (py "  Blue ")) as (_ & _ & _ & Hverdict & Hnormal).
  split.
  - apply Hverdict. exists (py "azure"), (fresh_record (py "blue") []).
    split_and!; [reflexivity|done|run|reflexivity|reflexivity].
  - apply Hnormal; [reflexivity|run].
Defined.

(** At the start and when the tasks are done no word is current: the
    answer is not looked at. *)
Example check_answer_no_word :
  check_answer None lucid_store (py "clear") = NoCurrentWord
  ∧ check_answer (Some []) lucid_store (py "clear") = NoCurrentWord
  ∧ check_answer (Some (py "keen")) lucid_store (py "sharp") = NotStored.
Proof. by split_and!. Qed.

(** ** The extractor, further *)

Section ImporterGuarantees.
Context `{Lowering} (ws : gmap str WordRecord).

Lemma exists_lower_false word_lower :
  exists_lower ws word_lower = false →
  ∀ k, is_Some (ws !! k) → lower k ≠ word_lower.
Proof.
  unfold exists_lower. intros Hnone k [r Hk] Heq.
  assert (existsb (λ w, bool_decide (lower w = word_lower)) (map_to_list ws).*1 = true)
    as Hsome; [|congruence].
  apply existsb_exists. exists k. split; [|by apply bool_decide_eq_true].
  apply list_elem_of_In, list_elem_of_fmap. exists (k, r).
  split; [done|]. by apply elem_of_map_to_list.
Qed.

(** What a candidate is sure to satisfy. *)
Let new_word (w : str) : Prop :=
  (2 ≤ length w)%nat ∧ (lower w ∉ skip_words)
  ∧ ∀ k, is_Some (ws !! k) → lower k ≠ lower w.

Lemma take_word_new acc word :
  (∀ w, w ∈ acc → new_word w) → ∀ w, w ∈ take_word ws acc word → new_word w.
Proof.
  intros Hacc w. unfold take_word.
  destruct (_ && _) eqn:Hcond; [|apply Hacc].
  intros [->%elem_of_singleton|Hw]%elem_of_union; [|by apply Hacc].
  repeat (apply andb_true_iff in Hcond as [Hcond ?]).
  split; [by apply Nat.leb_le|]. split; [by eapply bool_decide_eq_true|].
  apply exists_lower_false. by apply negb_true_iff.
Qed.

Lemma take_part_new acc part :
  (∀ w, w ∈ acc → new_word w) → ∀ w, w ∈ take_part ws acc part → new_word w.
Proof.
  intros Hacc. unfold take_part.
  case_bool_decide; [done|].
  destruct (is_phrase (strip part)).
  - destruct (_ && _) eqn:Hcond; [|done].
    intros w [->%elem_of_singleton|Hw]%elem_of_union; [|by apply Hacc].
    repeat (apply andb_true_iff in Hcond as [Hcond ?]).
    split; [apply Nat.leb_le in Hcond; lia|]. split; [by eapply bool_decide_eq_true|].
    apply exists_lower_false. by apply negb_true_iff.
  - generalize (findall_words (strip part)). intros l. revert acc Hacc.
    induction l as [|word l IH]; intros acc Hacc; simpl; [done|].
    apply IH. by apply take_word_new.
Qed.

Lemma take_line_new acc line :
  (∀ w, w ∈ acc → new_word w) → ∀ w, w ∈ take_line ws acc line → new_word w.
Proof.
  intros Hacc. unfold take_line. case_bool_decide; [done|].
  generalize (re_split (strip line)). intros l. revert acc Hacc.
  induction l as [|part l IH]; intros acc Hacc; simpl; [done|].
  apply IH. by apply take_part_new.
Qed.

Lemma import_words_set_new text w :
  w ∈ import_words_set ws text → new_word w.
Proof.
  unfold import_words_set.
  generalize (split_on LF (replace_cr (replace_crlf text))). intros l.
  assert (∀ x, x ∈ (∅ : gset str) → new_word x) as Hacc by set_solver.
  revert Hacc. generalize (∅ : gset str). revert w.
  induction l as [|line l IH]; intros w acc Hacc; simpl; [apply Hacc|].
  apply IH. by apply take_line_new.
Qed.
End ImporterGuarantees.

(** X10. Whatever the text and the store, every candidate of
    [import_words_only] has two characters or more, is not a stop word once
    lowered, and differs, once lowered, from every key of the store once
    lowered; so no candidate is a key, in any case of letters, and the list
    holds no candidate twice. *)
Theorem candidates_are_new_words `{Lowering} (ws : gmap str WordRecord) (text w : str) :
  w ∈ import_words_only ws text →
  (2 ≤ length w)%nat
  ∧ (lower w ∉ skip_words)
  ∧ (∀ k, is_Some (ws !! k) → lower k ≠ lower w)
  ∧ ws !! w = None
  ∧ NoDup (import_words_only ws text).
Proof.
  unfold import_words_only. rewrite elem_of_elements.
  intros (Hlen & Hskip & Hnew)%import_words_set_new.
  repeat split; try done.
  - destruct (ws !! w) as [r|] eqn:Hw; [|done].
    by destruct (Hnew w (mk_is_Some _ _ Hw)).
  - apply NoDup_elements.
Qed.

Lemma candidates_are_new_words_witness :
  let ws : gmap str WordRecord := {[ py "Apple" := entry 0 [] ]} in
  ws !! py "pear" = None.
Proof.
  intros ws.
  refine (proj1 (proj2 (proj2 (proj2
    (@candidates_are_new_words ascii_lowering ws (py "apple,pear") (py "pear") _))))).
  run.
Defined.

(** ** Text without letters *)

Lemma replace_crlf_no_letter s : Forall no_letter s → Forall no_letter (replace_crlf s).
Proof.
  induction 1 as [|c s Hc Hs IH]; simpl; [done|].
  destruct (_ && _); [done|by constructor].
Qed.

Lemma replace_cr_no_letter s : Forall no_letter s → Forall no_letter (replace_cr s).
Proof.
  unfold replace_cr. induction 1 as [|c s Hc Hs IH]; simpl; [done|].
  constructor; [|done]. by destruct (c =? CR)%N.
Qed.

Lemma split_on_Forall (P : N → Prop) sep s :
  Forall P s → Forall (Forall P) (split_on sep s).
Proof.
  induction 1 as [|c s Hc Hs IH]; simpl; [by repeat constructor|].
  destruct (c =? sep)%N; [by constructor|].
  destruct (split_on sep s) as [|piece more]; [by repeat constructor|].
  inversion IH; subst. constructor; [by constructor|done].
Qed.

Lemma re_split_from_Forall (P : N → Prop) s : ∀ in_run,
  Forall P s → Forall (Forall P) (re_split_from in_run s).
Proof.
  induction s as [|c s IH]; intros in_run Hs; simpl; [by repeat constructor|].
  inversion Hs as [|? ? Hc Hs']; subst.
  destruct (is_delimiter c).
  - destruct in_run; [by apply IH|]. constructor; [done|by apply IH].
  - specialize (IH false Hs').
    destruct (re_split_from false s) as [|piece more]; [by repeat constructor|].
    inversion IH; subst. constructor; [by constructor|done].
Qed.

Lemma phrase_rejected s : foldl phrase_step Rejected s = Rejected.
Proof. by induction s. Qed.

Lemma is_phrase_no_letter part : Forall no_letter part → is_phrase part = false.
Proof.
  unfold is_phrase. intros [|c s Hc _]; [done|]. simpl.
  unfold no_letter in Hc. by rewrite Hc, phrase_rejected.
Qed.

Lemma findall_words_no_letter part : Forall no_letter part → findall_words part = [].
Proof.
  unfold findall_words. induction 1 as [|c s Hc _ IH]; [done|].
  simpl. unfold no_letter in Hc. rewrite Hc.
  by rewrite andb_false_r.
Qed.

Section NoLetter.
Context `{Lowering} (ws : gmap str WordRecord).

Lemma take_part_no_letter acc part :
  Forall no_letter part → take_part ws acc part = acc.
Proof.
  intros Hpart. unfold take_part.
  assert (Forall no_letter (strip part)) as Hstrip by (by apply strip_by_Forall).
  case_bool_decide; [done|].
  by rewrite is_phrase_no_letter, findall_words_no_letter.
Qed.

Lemma take_line_no_letter acc line :
  Forall no_letter line → take_line ws acc line = acc.
Proof.
  intros Hline. unfold take_line. case_bool_decide; [done|].
  assert (Forall (Forall no_letter) (re_split (strip line))) as Hparts
    by (by apply re_split_from_Forall, strip_by_Forall).
  induction Hparts as [|part l Hpart _ IH]; simpl; [done|].
  by rewrite take_part_no_letter.
Qed.
End NoLetter.

(** X11. A text that holds no letter of [A-Z] and [a-z] gives no candidate,
    whatever the store: digits, punctuation and words written in other
    scripts are never taken. *)
Theorem text_without_letters_gives_nothing `{Lowering}
    (ws : gmap str WordRecord) (text : str) :
  Forall no_letter text → import_words_only ws text = [].
Proof.
  intros Htext. unfold import_words_only, import_words_set.
  assert (Forall (Forall no_letter) (split_on LF (replace_cr (replace_crlf text))))
    as Hlines by (by apply split_on_Forall, replace_cr_no_letter, replace_crlf_no_letter).
  assert (foldl (take_line ws) ∅ (split_on LF (replace_cr (replace_crlf text))) = ∅)
    as ->; [|apply elements_empty].
  induction Hlines as [|line l Hline _ IH]; simpl; [done|].
  by rewrite take_line_no_letter.
Qed.

Lemma text_without_letters_gives_nothing_witness :
  import_words_only (∅ : gmap str WordRecord)
    ([0x82F9; 0x679C]%N ++ py ", 123; 4-5" ++ [LF; 0x5355; 0x8BCD]%N) = [].
Proof.
  apply (@text_without_letters_gives_nothing ascii_lowering).
  repeat constructor.
Defined.

(** ** Deleting *)

Lemma delete_words_store l : ∀ m,
  words (delete_words l m) = foldl (λ ws w, delete w ws) (words m) l
  ∧ today_tasks (delete_words l m) = today_tasks m
  ∧ today_completed (delete_words l m) = today_completed m.
Proof.
  unfold delete_words. induction l as [|w l IH]; intros m; simpl; [done|].
  destruct (IH (delete_word w m)) as (-> & -> & ->). done.
Qed.

Lemma delete_counting_fold l : ∀ ws c,
  let after := foldl delete_counting (ws, c) l in
  after.1 = foldl (λ ws w, delete w ws) ws l
  ∧ after.2 - c = Z.of_nat (size ws) - Z.of_nat (size after.1)
  ∧ c ≤ after.2 ≤ c + Z.of_nat (length l).
Proof.
  induction l as [|w l IH]; intros ws c; cbv zeta; simpl;
    [split; [done|lia]|].
  destruct (decide (is_Some (ws !! w))) as [Hw|Hw].
  - assert (delete_counting (ws, c) w = (delete w ws, c + 1)) as ->
      by (unfold delete_counting; simpl; by rewrite bool_decide_true).
    destruct (IH (delete w ws) (c + 1)) as (-> & Hcount & Hle).
    pose proof (map_size_delete_Some w ws Hw) as Hsize.
    assert (size ws ≠ 0%nat) as Hpos.
    { intros Hzero%map_size_empty_inv. subst ws.
      destruct Hw as [r Hr]. by rewrite lookup_empty in Hr. }
    split; [done|]. lia.
  - assert (delete_counting (ws, c) w = (ws, c)) as ->
      by (unfold delete_counting; simpl; by rewrite bool_decide_false).
    destruct (IH ws c) as (-> & Hcount & Hle).
    assert (ws !! w = None) as Hnone.
    { destruct (ws !! w) eqn:Hlook; [|done]. destruct Hw. by eexists. }
    rewrite (delete_id ws w Hnone). split; [done|]. lia.
Qed.

Lemma foldl_delete_lookup l : ∀ (ws : gmap str WordRecord) w,
  foldl (λ ws w, delete w ws) ws l !! w = if decide (w ∈ l) then None else ws !! w.
Proof.
  induction l as [|x l IH]; intros ws w; cbn [foldl].
  - destruct (decide (w ∈ [])) as [Hin|_]; [by apply elem_of_nil in Hin|done].
  - rewrite IH. destruct (decide (w ∈ l)) as [Hin|Hout].
    + rewrite decide_True; [done|by right].
    + destruct (decide (w = x)) as [->|Hne].
      * rewrite decide_True by (by left). apply lookup_delete_eq.
      * rewrite decide_False by (intros [?|?]%elem_of_cons; done).
        by apply lookup_delete_ne.
Qed.

(** X12. [delete_words] removes every listed word and no other, and the
    number it returns is the number of words the store has lost, which the
    length of the list bounds: a word listed twice, or not stored, is
    counted once, or not at all.  [delete_word] returns true exactly for a
    stored word, and changes nothing otherwise.  Neither touches the tasks
    or the completed words. *)
Theorem delete_words_counts (l : list str) (m : WordManager) :
  let after := delete_words l m in
  let count := delete_words_count l m in
  count = Z.of_nat (size (words m)) - Z.of_nat (size (words after))
  ∧ 0 ≤ count ≤ Z.of_nat (length l)
  ∧ (∀ w, w ∈ l → words after !! w = None)
  ∧ (∀ w, w ∉ l → (words after !! w) = (words m !! w))
  ∧ today_tasks after = today_tasks m
  ∧ today_completed after = today_completed m
  ∧ (∀ w, delete_word_result w m = true ↔ is_Some (words m !! w))
  ∧ (∀ w, delete_word_result w m = false → delete_word w m = m).
Proof.
  intros after count.
  destruct (delete_words_store l m) as (Hstore & Htasks & Hdone).
  destruct (delete_counting_fold l (words m) 0) as (Hfold & Hcount & Hle).
  fold after in Hstore, Htasks, Hdone. unfold count, delete_words_count.
  rewrite Hstore, <-Hfold.
  split; [lia|]. split; [lia|]. rewrite Hfold.
  split; [intros w Hw; rewrite foldl_delete_lookup; by rewrite decide_True|].
  split; [intros w Hw; rewrite foldl_delete_lookup; by rewrite decide_False|].
  split; [done|]. split; [done|]. split.
  - intros w. unfold delete_word_result. apply bool_decide_eq_true.
  - intros w Hw. unfold delete_word_result in Hw.
    apply bool_decide_eq_false in Hw.
    assert (words m !! w = None) as Hnone.
    { destruct (words m !! w) eqn:Hlook; [|done]. destruct Hw. by eexists. }
    unfold delete_word. rewrite delete_id by done. by destruct m.
Qed.

(** ** The numbers of the label *)

Lemma size_filter_items (ws : gmap str WordRecord) (P : str * WordRecord → Prop)
    `{!∀ i, Decision (P i)} :
  size (filter P ws) = length (filter P (map_to_list ws)).
Proof.
  rewrite map_filter_alt, <-length_map_to_list.
  apply Permutation_length, map_to_list_to_map.
  apply (NoDup_filter_items ws P).
Qed.

Lemma filter_iff_on {A} (P1 P2 : A → Prop)
    `{!∀ x, Decision (P1 x), !∀ x, Decision (P2 x)} (l : list A) :
  (∀ x, x ∈ l → (P1 x ↔ P2 x)) → filter P1 l = filter P2 l.
Proof.
  induction l as [|a l IH]; intros Hiff; [done|].
  rewrite !filter_cons.
  assert (filter P1 l = filter P2 l) as -> by (apply IH; intros x Hx; apply Hiff; by right).
  destruct (decide (P1 a)) as [H1|H1].
  - rewrite decide_True; [done|]. by apply (Hiff a); [left|].
  - rewrite decide_False; [done|]. intros H2. apply H1. by apply (Hiff a); [left|].
Qed.

Lemma three_way_count (l : list (str * WordRecord)) :
  (length (filter (λ i, review_count i.2 = 0%Z) l)
   + length (filter (λ i, review_count i.2 ≠ 0%Z ∧ (review_count i.2 < 3)%Z) l)
   + length (filter (λ i, (3 ≤ review_count i.2)%Z) l) = length l)%nat.
Proof.
  induction l as [|i l IH]; [done|].
  rewrite !filter_cons.
  destruct (decide (review_count i.2 = 0)); destruct (decide (3 ≤ review_count i.2));
    destruct (decide (review_count i.2 ≠ 0 ∧ review_count i.2 < 3)); simpl; lia.
Qed.

(** X13. The three numbers of the label count the words as
    [init_today_tasks] sorts them: not reviewed, reviewed but fewer than
    three times, mastered; they are not negative and add up to the total.
    When no count is negative, the middle number is the number of rows the
    table shows for "reviewed once or twice".  After [init_today_tasks] the
    number of tasks done is at most the number of tasks. *)
Theorem stats_count_the_buckets `{Decimals} `{Random} (today : date) (ambient entropy : rng)
    (m : WordManager) :
  let s := update_stats m in
  let b := partition_words (words m) today in
  unreviewed_total s = Z.of_nat (length (unreviewed b))
  ∧ reviewing_total s = Z.of_nat (length (reviewing b))
  ∧ mastered_total s = Z.of_nat (length (mastered b))
  ∧ unreviewed_total s + reviewing_total s + mastered_total s = total s
  ∧ (counts_nonneg (words m) →
       reviewing_total s = Z.of_nat (size (table_words 2 m)))
  ∧ today_done (update_stats (init_today_tasks today ambient entropy m))
    ≤ today_total (update_stats (init_today_tasks today ambient entropy m)).
Proof.
  intros s b.
  pose proof (three_way_count (map_to_list (words m))) as Hsum.
  assert (unreviewed_total s = Z.of_nat (length (unreviewed b))) as Hu.
  { unfold s, update_stats, get_unreviewed_words, b; simpl.
    by rewrite size_filter_items, unreviewed_items, length_fmap. }
  assert (mastered_total s = Z.of_nat (length (mastered b))) as Hm.
  { unfold s, update_stats, get_mastered_words, b; simpl.
    by rewrite size_filter_items, mastered_items, length_fmap. }
  assert (reviewing_total s = Z.of_nat (length (reviewing b))) as Hr.
  { unfold b. rewrite reviewing_items, length_fmap.
    unfold s, update_stats, get_unreviewed_words, get_mastered_words; simpl.
    rewrite !size_filter_items, <-length_map_to_list. lia. }
  split; [done|]. split; [done|]. split; [done|].
  split; [unfold s, update_stats; simpl; lia|]. split.
  - intros Hnonneg. rewrite Hr. unfold b. rewrite reviewing_items, length_fmap.
    unfold table_words; simpl. rewrite size_filter_items. do 2 f_equal.
    apply filter_iff_on. intros [w r] Hin%elem_of_map_to_list; simpl.
    specialize (Hnonneg w r Hin). lia.
  - unfold update_stats; simpl.
    assert (size (mark_sampled (words m) today
                    (sampled_of (words m) today (partition_words (words m) today))
                    (completed (partition_words (words m) today)))
            ≤ length (today_tasks (init_today_tasks today ambient entropy m)))%nat;
      [|simpl in *; lia].
    rewrite <-(size_list_to_set (C:=gset str)) by apply NoDup_init_tasks.
    apply subseteq_size. intros w Hw. apply elem_of_list_to_set.
    by apply (init_completed_in_tasks today ambient entropy m).
Qed.

Lemma stats_count_the_buckets_witness :
  reviewing_total (update_stats (start lucid_store))
  = Z.of_nat (size (table_words 2 (start lucid_store))).
Proof.
  refine (proj1 (proj2 (proj2 (proj2 (proj2
    (@stats_count_the_buckets unicode_decimals turning_random march_16 0%nat 0%nat (start lucid_store))))))
    _).
  intros w r Hw. unfold lucid_store in Hw. simpl in Hw.
  apply lookup_singleton_Some in Hw as [_ <-]. by compute.
Defined.

(** ** The counts *)

(** X14. No operation of the manager makes a count negative: the store of a
    new manager has no negative count, and [add_word], grading,
    [delete_word], [delete_words] and [init_today_tasks] keep it so. *)
Theorem counts_stay_nonneg `{Decimals} `{Random} (m : WordManager) :
  counts_nonneg ∅
  ∧ (counts_nonneg (words m) →
     (∀ word meaning_text exs, counts_nonneg (words (add_word word meaning_text exs m)))
     ∧ (∀ o t1 t2 w, counts_nonneg (words (grade o t1 t2 w m)))
     ∧ (∀ w, counts_nonneg (words (delete_word w m)))
     ∧ (∀ l, counts_nonneg (words (delete_words l m)))
     ∧ (∀ today ambient entropy,
          counts_nonneg (words (init_today_tasks today ambient entropy m)))).
Proof.
  split; [intros w r Hw; by rewrite lookup_empty in Hw|].
  intros Hm. repeat split.
  - intros word meaning_text exs w r. unfold add_word.
    destruct (_ && _); [|apply Hm]. simpl.
    destruct (decide (strip word = w)) as [->|Hne].
    + rewrite lookup_insert_eq. by intros [= <-].
    + rewrite lookup_insert_ne by done. apply Hm.
  - intros o t1 t2 w x r.
    destruct (words m !! w) as [r0|] eqn:Hw;
      [|by rewrite grade_not_stored; [apply Hm|]].
    destruct o; simpl; unfold review_word, mark_reviewed_without_count;
      rewrite Hw; simpl;
      (destruct (decide (w = x)) as [->|Hne];
       [rewrite lookup_insert_eq; intros [= <-]; simpl;
        specialize (Hm x r0 Hw); lia
       |rewrite lookup_insert_ne by done; apply Hm]).
  - intros w x r. simpl. intros [_ Hx]%lookup_delete_Some. by eapply Hm.
  - intros l x r. destruct (delete_words_store l m) as (-> & _).
    rewrite foldl_delete_lookup. case_decide; [done|apply Hm].
  - intros today ambient entropy. apply Hm.
Qed.

Lemma counts_stay_nonneg_witness :
  counts_nonneg
    (words (grade Known (noon march_16) (noon march_16) (py "lucid") (start lucid_store))).
Proof.
  refine (proj1 (proj2 (proj2 (@counts_stay_nonneg unicode_decimals turning_random (start lucid_store)) _))
            Known (noon march_16) (noon march_16) (py "lucid")).
  intros w r Hw. unfold lucid_store in Hw. simpl in Hw.
  apply lookup_singleton_Some in Hw as [_ <-]. by compute.
Defined.

(** ** Loading older files *)

Lemma strftime_ymd_hm_date t : take 10 (strftime_ymd_hm t) = strftime_ymd (dt_date t).
Proof. reflexivity. Qed.

Lemma migrate_twice info : migrate (migrate info) = migrate info.
Proof.
  unfold migrate; simpl.
  destruct (raw_last_review_date info), (raw_today_reviewed info); simpl;
    try done; by destruct (_ && _).
Qed.

(** X15. [load_data] keeps every word and gives every record the keys
    [last_review_date] and [today_reviewed]: a date that is there is kept,
    a flag that is there is kept, a flag that is missing becomes false, the
    count, the meaning, the examples and [last_review] are not changed, and
    loading again changes nothing.  A record the program wrote is left as it
    is.  A record without date gets the first ten characters of its
    [last_review] when that has ten or more, whatever they are, and the
    empty text when it has fewer or is missing.  When [last_review] was
    written by a grading, the ten characters are the date text the grading
    writes. *)
Theorem load_data_fills_the_keys (data : gmap str RawRecord) (w : str) (info : RawRecord) :
  data !! w = Some info →
  load_data data !! w = Some (migrate info)
  ∧ dom (load_data data) = dom data
  ∧ load_data (load_data data) = load_data data
  ∧ is_Some (raw_last_review_date (migrate info))
  ∧ is_Some (raw_today_reviewed (migrate info))
  ∧ (∀ d, raw_last_review_date info = Some d → raw_last_review_date (migrate info) = Some d)
  ∧ (∀ f, raw_today_reviewed info = Some f → raw_today_reviewed (migrate info) = Some f)
  ∧ (raw_today_reviewed info = None → raw_today_reviewed (migrate info) = Some false)
  ∧ raw_review_count (migrate info) = raw_review_count info
  ∧ raw_meaning (migrate info) = raw_meaning info
  ∧ raw_examples (migrate info) = raw_examples info
  ∧ raw_last_review (migrate info) = raw_last_review info
  ∧ (∀ r, info = to_raw r → migrate info = info)
  ∧ (∀ text, raw_last_review_date info = None →
       raw_last_review info = Some text → (10 ≤ length text)%nat →
       raw_last_review_date (migrate info) = Some (take 10 text))
  ∧ (∀ t, raw_last_review_date info = None →
       raw_last_review info = Some (strftime_ymd_hm t) →
       raw_last_review_date (migrate info) = Some (strftime_ymd (dt_date t)))
  ∧ (∀ text, raw_last_review_date info = None →
       raw_last_review info = Some text → (length text < 10)%nat →
       raw_last_review_date (migrate info) = Some [])
  ∧ (raw_last_review_date info = None → raw_last_review info = None →
       raw_last_review_date (migrate info) = Some []).
Proof.
  intros Hw. unfold load_data.
  split; [by rewrite lookup_fmap, Hw|].
  split; [apply dom_fmap_L|].
  split.
  { rewrite <-map_fmap_compose. apply map_fmap_ext. intros k x _. apply migrate_twice. }
  repeat split; unfold migrate;
    cbn [raw_last_review_date raw_today_reviewed raw_review_count raw_meaning
         raw_examples raw_last_review].
  - destruct (raw_last_review_date info); [done|]. by destruct (_ && _).
  - by destruct (raw_today_reviewed info).
  - by intros d ->.
  - by intros f ->.
  - by intros ->.
  - by intros r ->.
  - intros text -> -> Hlong. cbn [default from_option id].
    destruct (Nat.leb_spec 10 (length text)) as [_|?]; [|lia].
    rewrite bool_decide_true; [done|]. intros ->. simpl in Hlong. lia.
  - intros t -> ->. reflexivity.
  - intros text -> -> Hshort. cbn [default from_option id].
    destruct (Nat.leb_spec 10 (length text)) as [?|_]; [lia|]. by rewrite andb_false_r.
  - by intros -> ->.
Qed.

Lemma load_data_fills_the_keys_witness :
  let legacy :=
    {| raw_meaning := py "clear"; raw_examples := []; raw_review_count := 4;
       raw_last_review := Some (py "2024-03-01 09:30");
       raw_last_review_date := None; raw_today_reviewed := None |} in
  load_data {[ py "lucid" := legacy ]} !! py "lucid" = Some (migrate legacy)
  ∧ raw_last_review_date (migrate legacy) = Some (py "2024-03-01").
Proof.
  intros legacy.
  pose proof (load_data_fills_the_keys {[ py "lucid" := legacy ]} (py "lucid") legacy
                (lookup_singleton_eq _ _))
    as (Hlook & _ & _ & _ & _ & _ & _ & _ & _ & _ & _ & _ & _ & Htake & _).
  split; [exact Hlook|].
  apply (Htake (py "2024-03-01 09:30")); [reflexivity|reflexivity|simpl; lia].
Defined.

(** The ten characters are taken as they are, date or not. *)
Example migrate_any_text :
  raw_last_review_date
    (migrate {| raw_meaning := []; raw_examples := []; raw_review_count := 0;
                raw_last_review := Some (py "yesterday at noon");
                raw_last_review_date := None; raw_today_reviewed := None |})
  = Some (py "yesterday ").
Proof. reflexivity. Qed.

(** ** The flag of the daily backup *)

Lemma isspace_digit n : isspace (digit n) = false.
Proof.
  unfold digit.
  pose proof (Z.mod_pos_bound n 10 eq_refl) as Hk.
  remember (n mod 10) as k eqn:Ek. clear Ek.
  assert (k = 0 ∨ k = 1 ∨ k = 2 ∨ k = 3 ∨ k = 4 ∨ k = 5 ∨ k = 6 ∨ k = 7 ∨ k = 8 ∨ k = 9)
    as Hcases by lia.
  repeat (destruct Hcases as [->|Hcases]; [reflexivity|]). by subst.
Qed.

(** [strip] leaves a text that neither begins nor ends with a character it
    removes. *)
Lemma strip_by_fixed f s :
  (∀ c t, s = c :: t → f c = false) →
  (∀ e t, reverse s = e :: t → f e = false) →
  strip_by f s = s.
Proof.
  intros Hfirst Hlast. unfold strip_by.
  destruct s as [|c t]; [done|].
  assert (lstrip_by f (c :: t) = c :: t) as ->
    by (simpl; by rewrite (Hfirst c t eq_refl)).
  destruct (reverse (c :: t)) as [|e t'] eqn:Hrev.
  { apply (f_equal length) in Hrev. rewrite length_reverse in Hrev. done. }
  assert (lstrip_by f (e :: t') = e :: t') as ->
    by (simpl; by rewrite (Hlast e t' eq_refl)).
  by rewrite <-Hrev, reverse_involutive.
Qed.

Lemma strip_strftime d : strip (strftime_ymd d) = strftime_ymd d.
Proof.
  apply strip_by_fixed.
  - intros c t [= <- _]. apply isspace_digit.
  - intros e t [= <- _]. apply isspace_digit.
Qed.

Lemma strftime_inj d1 d2 :
  valid_date d1 = true → valid_date d2 = true →
  strftime_ymd d1 = strftime_ymd d2 → d1 = d2.
Proof.
  intros H1 H2 Heq.
  assert (Some d1 = Some d2) as [= ->]; [|done].
  by rewrite <-(strptime_strftime d1 H1), Heq, strptime_strftime.
Qed.

(** X16. The backup is due when the flag file is missing or unreadable.
    Once a backup has written the text of its date in the file, no backup is
    due on that day and one is due on any other day (dates of the calendar,
    years 1000 to 9999). *)
Theorem backup_at_most_once_a_day (last today : date) :
  valid_date last = true → 1000 ≤ year last →
  valid_date today = true → 1000 ≤ year today →
  should_backup_today None today = true
  ∧ should_backup_today (backup_flag today) today = false
  ∧ (should_backup_today (backup_flag last) today = false ↔ last = today).
Proof.
  intros Hlast _ Htoday _. unfold should_backup_today, backup_flag.
  rewrite !strip_strftime.
  split; [done|]. split; [by rewrite bool_decide_false by (intros Hne; by apply Hne)|].
  rewrite bool_decide_eq_false. split.
  - intros Hsame. apply strftime_inj; [done|done|].
    by destruct (decide (strftime_ymd last = strftime_ymd today)).
  - intros -> Hne. by apply Hne.
Qed.

Lemma backup_at_most_once_a_day_witness :
  should_backup_today (backup_flag (Date 2024 3 15)) march_16 ≠ false.
Proof.
  destruct (backup_at_most_once_a_day (Date 2024 3 15) march_16) as (_ & _ & Hiff);
    [reflexivity | by compute | reflexivity | by compute |].
  intros Hfalse. apply Hiff in Hfalse. discriminate Hfalse.
Defined.

(** ** Importing words with their meanings *)

Lemma strip_by_twice f s : strip_by f (strip_by f s) = strip_by f s.
Proof.
  apply strip_by_fixed.
  - intros c t Hs. destruct (strip_by_head f s) as [[Hnil _]|(c' & t' & Hs' & Hc)];
      [congruence|]. rewrite Hs' in Hs. by simplify_eq.
  - unfold strip_by. rewrite reverse_involutive. intros e t He.
    destruct (lstrip_by_head f (reverse (lstrip_by f s))) as [Hnil|(e' & t' & He' & Hc)];
      [congruence|]. rewrite He' in He. by simplify_eq.
Qed.

Lemma add_word_ok_stores word meaning_text exs m :
  add_word_ok word m = true →
  strip word ≠ [] ∧ words m !! strip word = None
  ∧ add_word word meaning_text exs m
    = {| words := <[strip word := fresh_record (strip meaning_text) exs]> (words m);
         today_tasks := today_tasks m; today_completed := today_completed m |}.
Proof.
  unfold add_word_ok, add_word. intros Hok. rewrite Hok.
  apply andb_true_iff in Hok as [Hne Hnew].
  apply bool_decide_eq_true in Hne, Hnew. done.
Qed.

Section TextImportFacts.
Context `{Lowering} (m : WordManager).

(** What holds of the state of the loop of [import_from_text], whatever
    lines have been read. *)
Let inv (st : import_result) : Prop :=
  (∀ w r, words m !! w = Some r → words (imported st) !! w = Some r)
  ∧ import_count st = Z.of_nat (length (added_words st))
  ∧ size (words (imported st)) = (size (words m) + length (added_words st))%nat
  ∧ today_tasks (imported st) = today_tasks m
  ∧ today_completed (imported st) = today_completed m
  ∧ 0 ≤ import_skipped st
  ∧ (∀ w mn, (w, mn) ∈ added_words st →
       words m !! w = None ∧ w ≠ [] ∧ w ≠ HEADER_WORD ∧ strip w = w
       ∧ words (imported st) !! w = Some (fresh_record (strip mn) []))
  ∧ (∀ w, is_Some (words (imported st) !! w) →
       is_Some (words m !! w) ∨ ∃ mn, (w, mn) ∈ added_words st)
  ∧ (lower_distinct (words m) → lower_distinct (words (imported st))).

Lemma import_line_inv st line : inv st → inv (import_line st line).
Proof.
  intros Hst. unfold import_line.
  destruct (split_once COMMA line) as [[first second]|]; [|done].
  case_bool_decide as Hheader; [|done].
  destruct Hst as (Hold & Hcount & Hsize & Htasks & Hdone & Hskip & Hadded & Hkeys & Hdist).
  destruct (exists_lower _ _) eqn:Hexists.
  { unfold inv; simpl. split_and!; try done. lia. }
  destruct (add_word_ok _ _) eqn:Hok; [|unfold inv; by split_and!].
  apply add_word_ok_stores with (meaning_text := second) (exs := [])
    in Hok as (Hne & Hnew & ->).
  fold (strip (strip first)) in Hne, Hnew |- *.
  unfold strip in Hne, Hnew |- *. rewrite strip_by_twice in Hne, Hnew |- *.
  fold (strip first) in *. fold (strip second).
  assert (words m !! strip first = None) as Hfresh.
  { destruct (words m !! strip first) as [r|] eqn:Hlook; [|done].
    apply Hold in Hlook. congruence. }
  assert (∀ w mn, (w, mn) ∈ added_words st ++ [(strip first, second)] →
            (w, mn) ∈ added_words st ∨ (w = strip first ∧ mn = second)) as Hcases.
  { intros w mn [Hin|Hin%list_elem_of_singleton]%elem_of_app; [by left|].
    right. by simplify_eq. }
  unfold inv; simpl. split_and!; try done.
  - intros w r Hw. rewrite lookup_insert_ne; [by apply Hold|]. congruence.
  - rewrite length_app. simpl. lia.
  - rewrite map_size_insert_None by done. rewrite length_app. simpl. lia.
  - intros w mn [Hin|[-> ->]]%Hcases.
    + destruct (Hadded w mn Hin) as (? & ? & ? & ? & Hw). split_and!; try done.
      rewrite lookup_insert_ne; [done|]. congruence.
    + split_and!; try done; [apply strip_by_twice|apply lookup_insert_eq].
  - intros w Hw. destruct (decide (w = strip first)) as [->|Hother].
    + right. exists second. apply elem_of_app. right. by left.
    + rewrite lookup_insert_ne in Hw by done.
      destruct (Hkeys w Hw) as [?|[mn Hmn]]; [by left|].
      right. exists mn. apply elem_of_app. by left.
  - intros Hm k1 k2 Hk1 Hk2 Hlow.
    specialize (Hdist Hm).
    pose proof (exists_lower_false _ _ Hexists) as Hnone.
    destruct (decide (k1 = strip first)) as [->|Hne1];
      destruct (decide (k2 = strip first)) as [->|Hne2]; [done| | |].
    + rewrite lookup_insert_ne in Hk2 by done. by destruct (Hnone k2 Hk2).
    + rewrite lookup_insert_ne in Hk1 by done. by destruct (Hnone k1 Hk1).
    + rewrite lookup_insert_ne in Hk1, Hk2 by done. by apply Hdist.
Qed.

Lemma import_from_text_inv text : inv (import_from_text text m).
Proof.
  unfold import_from_text.
  generalize (split_on LF (strip text)). intros l.
  assert (inv {| imported := m; import_count := 0; added_words := [];
                 import_skipped := 0 |}) as Hstart.
  { unfold inv; simpl. split_and!; try done.
    - intros w mn Hin. by apply elem_of_nil in Hin.
    - intros w Hw. by left. }
  revert Hstart. generalize {| imported := m; import_count := 0; added_words := [];
                               import_skipped := 0 |}.
  induction l as [|line l IH]; intros st Hst; simpl; [done|].
  by apply IH, import_line_inv.
Qed.
End TextImportFacts.

(** X17. [import_from_text] never changes a record that is there, nor the
    tasks: the count it returns is the number of pairs it reports and the
    number of words the store has gained; every reported word is stripped,
    not empty, not the header word, was not a key, and is stored with a
    fresh record whose meaning is the stripped text after the comma; every
    key afterwards is an old key or a reported word.  If the keys were told
    apart by their lowered text before, they still are. *)
Theorem import_from_text_adds_only `{Lowering} (text : str) (m : WordManager) :
  let result := import_from_text text m in
  (∀ w r, words m !! w = Some r → words (imported result) !! w = Some r)
  ∧ import_count result = Z.of_nat (length (added_words result))
  ∧ size (words (imported result))
    = (size (words m) + length (added_words result))%nat
  ∧ today_tasks (imported result) = today_tasks m
  ∧ today_completed (imported result) = today_completed m
  ∧ 0 ≤ import_skipped result
  ∧ (∀ w mn, (w, mn) ∈ added_words result →
       words m !! w = None ∧ w ≠ [] ∧ w ≠ HEADER_WORD ∧ strip w = w
       ∧ words (imported result) !! w = Some (fresh_record (strip mn) []))
  ∧ (∀ w, is_Some (words (imported result) !! w) →
       is_Some (words m !! w) ∨ ∃ mn, (w, mn) ∈ added_words result)
  ∧ (lower_distinct (words m) → lower_distinct (words (imported result))).
Proof. intros result. apply import_from_text_inv. Qed.

(** The header of an export is not taken for a word, a known word is
    skipped in any case of letters, and a new one is stored. *)
Example import_from_text_example :
  let text := HEADER_LINE ++ [LF] ++ py "Lucid,clear" ++ [LF] ++ py " keen , sharp " in
  let result := import_from_text text (start lucid_store) in
  import_count result = 1 ∧ import_skipped result = 1
  ∧ added_words result = [(py "keen", py " sharp")]
  ∧ words (imported result) !! py "keen" = Some (fresh_record (py "sharp") []).
Proof. repeat split; by vm_compute. Qed.

(** ** Looking the candidates up *)

Lemma strip_by_none f s : Forall (λ c, f c = false) s → strip_by f s = s.
Proof.
  intros Hs. apply strip_by_fixed.
  - intros c t ->. by inversion Hs.
  - intros e t He. rewrite Forall_forall in Hs. apply Hs.
    apply elem_of_reverse. rewrite He. by left.
Qed.

Lemma isspace_printable c : (33 ≤ c < 128)%N → isspace c = false.
Proof.
  intros Hc. unfold isspace.
  assert ((c <=? 13)%N = false) as -> by (apply N.leb_gt; lia).
  assert ((c <=? 32)%N = false) as -> by (apply N.leb_gt; lia).
  assert ((c =? 133)%N = false) as -> by (apply N.eqb_neq; lia).
  assert ((c =? 160)%N = false) as -> by (apply N.eqb_neq; lia).
  assert ((c =? 5760)%N = false) as -> by (apply N.eqb_neq; lia).
  assert ((8192 <=? c)%N = false) as -> by (apply N.leb_gt; lia).
  assert ((c =? 8232)%N = false) as -> by (apply N.eqb_neq; lia).
  assert ((c =? 8233)%N = false) as -> by (apply N.eqb_neq; lia).
  assert ((c =? 8239)%N = false) as -> by (apply N.eqb_neq; lia).
  assert ((c =? 8287)%N = false) as -> by (apply N.eqb_neq; lia).
  assert ((c =? 12288)%N = false) as -> by (apply N.eqb_neq; lia).
  by rewrite !andb_false_r.
Qed.

Lemma word_char_not_space c : word_char c → isspace c = false.
Proof.
  intros Hc. apply isspace_printable.
  unfold word_char, is_alpha, is_joiner in Hc.
  destruct Hc as [Hc|Hc].
  - apply orb_true_iff in Hc as [Hc|Hc]; apply andb_true_iff in Hc as [Hlo Hhi];
      apply N.leb_le in Hlo, Hhi; lia.
  - apply orb_true_iff in Hc as [Hc|Hc]; apply N.eqb_eq in Hc; lia.
Qed.

Section CandidatesStripped.
Context `{Lowering} (ws : gmap str WordRecord).

Let stripped (w : str) : Prop := strip w = w ∧ w ≠ [].

Lemma take_word_stripped acc word :
  Forall word_char word →
  (∀ w, w ∈ acc → stripped w) → ∀ w, w ∈ take_word ws acc word → stripped w.
Proof.
  intros Hword Hacc w. unfold take_word.
  destruct (_ && _) eqn:Hcond; [|apply Hacc].
  intros [->%elem_of_singleton|Hw]%elem_of_union; [|by apply Hacc].
  repeat (apply andb_true_iff in Hcond as [Hcond ?]).
  apply Nat.leb_le in Hcond. split.
  - apply strip_by_none. eapply Forall_impl; [by apply strip_by_Forall|].
    apply word_char_not_space.
  - intros Hnil. rewrite Hnil in Hcond. simpl in Hcond. lia.
Qed.

Lemma take_part_stripped acc part :
  (∀ w, w ∈ acc → stripped w) → ∀ w, w ∈ take_part ws acc part → stripped w.
Proof.
  intros Hacc. unfold take_part.
  case_bool_decide as Hpart; [done|].
  destruct (is_phrase (strip part)).
  - destruct (_ && _); [|done].
    intros w [->%elem_of_singleton|Hw]%elem_of_union; [|by apply Hacc].
    split; [apply strip_by_twice|done].
  - assert (Forall (Forall word_char) (findall_words (strip part))) as Hwords
      by (by apply findall_from_chars).
    revert acc Hacc.
    induction Hwords as [|word l Hword _ IH]; intros acc Hacc; simpl; [done|].
    apply IH. by apply take_word_stripped.
Qed.

Lemma import_words_set_stripped text w :
  w ∈ import_words_set ws text → stripped w.
Proof.
  unfold import_words_set.
  generalize (split_on LF (replace_cr (replace_crlf text))). intros lines.
  assert (∀ x, x ∈ (∅ : gset str) → stripped x) as Hacc
    by (intros x Hx; by apply elem_of_empty in Hx).
  revert Hacc. generalize (∅ : gset str). revert w.
  induction lines as [|line lines IH]; intros w acc Hacc; simpl; [apply Hacc|].
  apply IH. unfold take_line. case_bool_decide; [done|].
  generalize (re_split (strip line)). intros parts. revert acc Hacc.
  induction parts as [|part parts IHp]; intros acc Hacc; simpl; [done|].
  apply IHp. by apply take_part_stripped.
Qed.
End CandidatesStripped.

Section Fetching.
Context (fetch : str → str * list (str * str)).

Lemma add_word_auto_new w m :
  strip w = w → w ≠ [] → words m !! w = None →
  ∃ text, add_word_auto fetch w m
          = ({| words := <[w := fresh_record text (fetch w).2]> (words m);
                today_tasks := today_tasks m;
                today_completed := today_completed m |}, (true, text))
          ∧ text ≠ []
          ∧ ((fetch w).1 ≠ [] → text = (fetch w).1)
          ∧ ((fetch w).1 = [] → text = NOT_FOUND).
Proof.
  intros Hstrip Hne Hnew. unfold add_word_auto. rewrite Hstrip.
  rewrite (bool_decide_false (w = [])) by done.
  rewrite (bool_decide_false (is_Some (words m !! w)))
    by (rewrite Hnew; by intros [? ?]).
  simpl. destruct (fetch w) as [found exs]. simpl.
  case_bool_decide as Hfound.
  - exists NOT_FOUND. by split_and!.
  - exists found. by split_and!.
Qed.

Lemma add_word_auto_refused w m :
  strip w = [] ∨ is_Some (words m !! strip w) →
  add_word_auto fetch w m = (m, (false, [])).
Proof.
  intros Hno. unfold add_word_auto.
  destruct Hno as [->|Hthere].
  - by rewrite (bool_decide_true ([] = [])).
  - by rewrite (bool_decide_true (is_Some _)), orb_true_r.
Qed.

(** The loop of [run] over new, stripped, different words. *)
Lemma fetch_loop l : ∀ st,
  NoDup l →
  (∀ w, w ∈ l → strip w = w ∧ w ≠ [] ∧ words (fetched_into st) !! w = None) →
  let result := foldl (fetch_one fetch) st l in
  fetch_count result = fetch_count st + Z.of_nat (length l)
  ∧ (fetched_words result).*1 = (fetched_words st).*1 ++ l
  ∧ today_tasks (fetched_into result) = today_tasks (fetched_into st)
  ∧ today_completed (fetched_into result) = today_completed (fetched_into st)
  ∧ (∀ w, w ∉ l →
       (words (fetched_into result) !! w) = (words (fetched_into st) !! w))
  ∧ (∀ w, w ∈ l →
       ∃ text, words (fetched_into result) !! w = Some (fresh_record text (fetch w).2)
               ∧ text ≠ []
               ∧ ((fetch w).1 ≠ [] → text = (fetch w).1)
               ∧ ((fetch w).1 = [] → text = NOT_FOUND)
               ∧ (w, text) ∈ fetched_words result).
Proof.
  induction l as [|w l IH]; intros st Hnd Hl; cbv zeta; cbn [foldl].
  - simpl. split_and!;
      first [ done | lia | by rewrite app_nil_r
            | intros w Hw; by apply elem_of_nil in Hw ].
  - apply NoDup_cons in Hnd as [Hw Hnd].
    destruct (Hl w) as (Hstrip & Hne & Hnew); [by left|].
    destruct (add_word_auto_new w (fetched_into st) Hstrip Hne Hnew)
      as (text & Hadd & Htext & Hfound & Hnone).
    set (st1 := {| fetched_into :=
                     {| words := <[w := fresh_record text (fetch w).2]>
                                   (words (fetched_into st));
                        today_tasks := today_tasks (fetched_into st);
                        today_completed := today_completed (fetched_into st) |};
                   fetch_count := fetch_count st + 1;
                   fetched_words := fetched_words st ++ [(w, text)] |}).
    assert (fetch_one fetch st w = st1) as ->
      by (unfold fetch_one; by rewrite Hadd).
    destruct (IH st1 Hnd) as (Hcount & Hwords & Htasks & Hdone & Hother & Hin).
    { intros x Hx. destruct (Hl x) as (? & ? & ?); [by right|].
      split_and!; try done. simpl. rewrite lookup_insert_ne; [done|].
      intros ->. done. }
    subst st1. simpl in *. split_and!.
    + rewrite Hcount. lia.
    + rewrite Hwords, fmap_app. simpl. by rewrite <-app_assoc.
    + done.
    + done.
    + intros x Hx. rewrite Hother by (intros ?; apply Hx; by right).
      apply lookup_insert_ne. intros ->. apply Hx. by left.
    + intros x [Hxw|Hx]%elem_of_cons; [subst x|by apply Hin].
      exists text. split_and!; try done.
      * rewrite Hother by done. apply lookup_insert_eq.
      * assert (∀ l' st', (w, text) ∈ fetched_words st' →
                  (w, text) ∈ fetched_words (foldl (fetch_one fetch) st' l')) as Hkeep.
        { induction l' as [|y l' IHl]; intros st' Hst'; simpl; [done|].
          apply IHl. unfold fetch_one.
          destruct (add_word_auto fetch y (fetched_into st')) as [m' [[] t]]; simpl;
            [apply elem_of_app; by left|done]. }
        apply Hkeep. simpl. apply elem_of_app. right. by left.
Qed.
End Fetching.

(** X18. Every candidate of [import_words_only] is stored when [run] looks
    the candidates up: if the flag [cancelled] is never found set, the
    count returned is the number of candidates, each candidate is a key
    with a fresh record whose meaning is not empty (the text looked up, or
    the mark [(未找到释义)] when the look-up gives none), and no other
    record changes.  When the flag is found set after [seen] words, the
    same holds of the [seen] first candidates. *)
Theorem candidates_are_all_stored `{Lowering} (fetch : str → str * list (str * str))
    (seen : nat) (text : str) (m : WordManager) :
  let candidates := import_words_only (words m) text in
  let handled := take seen candidates in
  let result := run fetch seen candidates m in
  fetch_count result = Z.of_nat (length handled)
  ∧ (length handled = Nat.min seen (length candidates))
  ∧ (fetched_words result).*1 = handled
  ∧ today_tasks (fetched_into result) = today_tasks m
  ∧ today_completed (fetched_into result) = today_completed m
  ∧ (∀ w, w ∉ handled → (words (fetched_into result) !! w) = (words m !! w))
  ∧ (∀ w, w ∈ handled →
       ∃ meaning_text,
         words (fetched_into result) !! w
           = Some (fresh_record meaning_text (fetch w).2)
         ∧ meaning_text ≠ []
         ∧ ((fetch w).1 ≠ [] → meaning_text = (fetch w).1)
         ∧ ((fetch w).1 = [] → meaning_text = NOT_FOUND)
         ∧ (w, meaning_text) ∈ fetched_words result).
Proof.
  intros candidates handled result.
  assert (NoDup handled) as Hnd.
  { eapply sublist_NoDup; [|apply sublist_take]. apply NoDup_elements. }
  assert (∀ w, w ∈ handled → strip w = w ∧ w ≠ [] ∧ words m !! w = None) as Hnew.
  { intros w Hw.
    assert (w ∈ candidates) as Hc
      by (eapply elem_of_sublist; [exact Hw|apply sublist_take]).
    unfold candidates, import_words_only in Hc. apply elem_of_elements in Hc.
    destruct (import_words_set_stripped _ _ _ Hc) as [Hs Hne].
    destruct (import_words_set_new _ _ _ Hc) as (_ & _ & Hkeys).
    split_and!; try done.
    destruct (words m !! w) as [r|] eqn:Hlook; [|done].
    by destruct (Hkeys w (mk_is_Some _ _ Hlook)). }
  destruct (fetch_loop fetch handled
              {| fetched_into := m; fetch_count := 0; fetched_words := [] |} Hnd Hnew)
    as (Hcount & Hwords & Htasks & Hdone & Hother & Hin).
  fold result in Hcount, Hwords, Htasks, Hdone, Hother, Hin. simpl in *.
  split_and!; try done. unfold handled. apply length_take.
Qed.

Lemma candidates_are_all_stored_witness :
  let fetch := λ w : str, (@nil N, @nil (str * str)) in
  words (fetched_into (run fetch 5 (import_words_only ∅ scenario_text) (start ∅)))
    !! py "apple"
  = Some (fresh_record NOT_FOUND []).
Proof.
  intros fetch.
  destruct (@candidates_are_all_stored ascii_lowering fetch 5 scenario_text (start ∅))
    as (_ & _ & _ & _ & _ & _ & Hin).
  destruct (Hin (py "apple")) as (text & Hlook & _ & _ & Hnone & _); [run|].
  rewrite (Hnone eq_refl) in Hlook. exact Hlook.
Defined.

(** ** Exporting and importing again *)

Lemma lstrip_by_app_keep f x c y :
  f c = false → lstrip_by f (x ++ c :: y) = lstrip_by f x ++ c :: y.
Proof.
  intros Hc. induction x as [|a x IH]; simpl; [by rewrite Hc|].
  by destruct (f a).
Qed.

Lemma rstrip_by_app_keep f a c s :
  f c = false → rstrip_by f (a ++ c :: s) = a ++ c :: rstrip_by f s.
Proof.
  intros Hc. unfold rstrip_by.
  rewrite reverse_app, reverse_cons, <-app_assoc. simpl.
  rewrite lstrip_by_app_keep by done.
  rewrite reverse_app, reverse_cons, reverse_involutive, <-app_assoc. done.
Qed.

Lemma strip_by_rstrip_lstrip f s : strip_by f s = rstrip_by f (lstrip_by f s).
Proof. reflexivity. Qed.

Lemma lstrip_by_split f s :
  ∃ pre, s = pre ++ lstrip_by f s ∧ Forall (λ c, f c = true) pre.
Proof.
  induction s as [|c s (pre & Hs & Hpre)]; simpl; [by exists []|].
  destruct (f c) eqn:Hc; [|by exists []].
  exists (c :: pre). split; [by rewrite Hs at 1|by constructor].
Qed.

Lemma lstrip_by_twice f s : lstrip_by f (lstrip_by f s) = lstrip_by f s.
Proof.
  destruct (lstrip_by_head f s) as [->|(c & t & -> & Hc)]; [done|].
  simpl. by rewrite Hc.
Qed.

Lemma rstrip_by_all f s : Forall (λ c, f c = true) s → rstrip_by f s = [].
Proof.
  intros Hs. unfold rstrip_by.
  assert (lstrip_by f (reverse s) = []) as ->; [|done].
  by apply lstrip_by_all, Forall_reverse.
Qed.

Lemma lstrip_rstrip_commute f s :
  lstrip_by f (rstrip_by f s) = rstrip_by f (lstrip_by f s).
Proof.
  destruct (lstrip_by_split f s) as (pre & Hs & Hpre).
  destruct (lstrip_by_head f s) as [Hnil|(c & t & Ht & Hc)].
  - rewrite Hnil in Hs |- *. rewrite app_nil_r in Hs. subst pre.
    by rewrite rstrip_by_all.
  - rewrite Ht in Hs |- *. rewrite Hs at 1.
    rewrite rstrip_by_app_keep by done.
    rewrite lstrip_by_app_keep by done.
    assert (lstrip_by f pre = []) as -> by (by apply lstrip_by_all).
    simpl. symmetry. apply (rstrip_by_app_keep f [] c t Hc).
Qed.

Lemma strip_by_rstrip f s : strip_by f (rstrip_by f s) = strip_by f s.
Proof.
  rewrite !strip_by_rstrip_lstrip, lstrip_rstrip_commute.
  unfold rstrip_by. by rewrite reverse_involutive, lstrip_by_twice.
Qed.

Lemma rstrip_by_Forall (P : N → Prop) f s : Forall P s → Forall P (rstrip_by f s).
Proof.
  intros Hs. unfold rstrip_by.
  by apply Forall_reverse, lstrip_by_Forall, Forall_reverse.
Qed.

Lemma join_lines_snoc xs y : xs ≠ [] → join_lines (xs ++ [y]) = join_lines xs ++ LF :: y.
Proof.
  induction xs as [|x [|x' xs] IH]; intros Hne; [done|done|].
  change (join_lines ((x :: x' :: xs) ++ [y]))
    with (x ++ LF :: join_lines ((x' :: xs) ++ [y])).
  rewrite IH by done.
  change (join_lines (x :: x' :: xs)) with (x ++ LF :: join_lines (x' :: xs)).
  by rewrite <-app_assoc.
Qed.

Lemma split_on_line sep l : sep ∉ l → split_on sep l = [l].
Proof.
  induction l as [|c l IH]; intros Hl; simpl; [done|].
  destruct (N.eqb_spec c sep) as [->|_]; [destruct Hl; by left|].
  rewrite IH; [done|]. intros ?. apply Hl. by right.
Qed.

Lemma split_on_app sep l rest :
  sep ∉ l → split_on sep (l ++ sep :: rest) = l :: split_on sep rest.
Proof.
  induction l as [|c l IH]; intros Hl; simpl; [by rewrite N.eqb_refl|].
  destruct (N.eqb_spec c sep) as [->|_]; [destruct Hl; by left|].
  rewrite IH; [done|]. intros ?. apply Hl. by right.
Qed.

Lemma split_on_join ls :
  ls ≠ [] → Forall (λ l, LF ∉ l) ls → split_on LF (join_lines ls) = ls.
Proof.
  induction ls as [|l [|l' ls] IH]; intros Hne Hls; [done| |].
  - simpl. apply split_on_line. by inversion Hls.
  - change (join_lines (l :: l' :: ls)) with (l ++ LF :: join_lines (l' :: ls)).
    inversion Hls as [|? ? Hl Hrest]; subst.
    rewrite split_on_app by done. by rewrite IH.
Qed.

Lemma split_once_app sep a b : sep ∉ a → split_once sep (a ++ sep :: b) = Some (a, b).
Proof.
  induction a as [|c a IH]; intros Ha; simpl; [by rewrite N.eqb_refl|].
  destruct (N.eqb_spec c sep) as [->|_]; [destruct Ha; by left|].
  rewrite IH; [done|]. intros ?. apply Ha. by right.
Qed.

Section RoundTrip.
Context `{Lowering}.

Lemma import_line_header st : import_line st HEADER_LINE = st.
Proof. reflexivity. Qed.

(** Lines written for new words that differ by their lowered text are all
    imported, in their order. *)
Lemma import_lines_of_pairs pairs : ∀ st,
  (∀ p, p ∈ pairs → strip p.1 = p.1 ∧ p.1 ≠ [] ∧ p.1 ≠ HEADER_WORD ∧ COMMA ∉ p.1) →
  NoDup pairs.*1 →
  (∀ p q, p ∈ pairs → q ∈ pairs → lower p.1 = lower q.1 → p.1 = q.1) →
  (∀ w p, is_Some (words (imported st) !! w) → p ∈ pairs → lower w ≠ lower p.1) →
  added_words (foldl import_line st (map export_line pairs)) = added_words st ++ pairs
  ∧ import_skipped (foldl import_line st (map export_line pairs)) = import_skipped st.
Proof.
  induction pairs as [|[k mn] pairs IH]; intros st Hkeys Hnd Hlow Hold; simpl.
  { by rewrite app_nil_r. }
  destruct (Hkeys (k, mn)) as (Hstrip & Hne & Hhead & Hcomma); [by left|].
  simpl in *. apply NoDup_cons in Hnd as [Hk Hnd].
  assert (exists_lower (words (imported st)) (lower k) = false) as Hnone.
  { destruct (exists_lower _ _) eqn:Hsome; [|done].
    unfold exists_lower in Hsome. apply existsb_exists in Hsome as (w & Hw & Hwk).
    apply bool_decide_eq_true in Hwk.
    apply list_elem_of_In, list_elem_of_fmap in Hw as ([w' r] & -> & Hin).
    apply elem_of_map_to_list in Hin.
    destruct (Hold w' (k, mn)); [by eexists|by left|done]. }
  assert (words (imported st) !! k = None) as Hnew.
  { destruct (words (imported st) !! k) as [r|] eqn:Hlook; [|done].
    destruct (Hold k (k, mn)); [by eexists|by left|done]. }
  assert (import_line st (export_line (k, mn))
          = {| imported := {| words := <[k := fresh_record (strip mn) []]>
                                         (words (imported st));
                              today_tasks := today_tasks (imported st);
                              today_completed := today_completed (imported st) |};
               import_count := import_count st + 1;
               added_words := added_words st ++ [(k, mn)];
               import_skipped := import_skipped st |}) as ->.
  { unfold import_line, export_line. simpl. rewrite split_once_app by done.
    fold (strip k). rewrite Hstrip. rewrite bool_decide_true by done. rewrite Hnone.
    assert (add_word_ok k (imported st) = true) as Hok.
    { unfold add_word_ok. fold (strip k). rewrite Hstrip.
      by rewrite !bool_decide_true. }
    rewrite Hok.
    destruct (add_word_ok_stores k mn [] (imported st) Hok) as (_ & _ & ->).
    fold (strip k). by rewrite Hstrip. }
  destruct (IH {| imported := {| words := <[k := fresh_record (strip mn) []]>
                                            (words (imported st));
                                 today_tasks := today_tasks (imported st);
                                 today_completed := today_completed (imported st) |};
                  import_count := import_count st + 1;
                  added_words := added_words st ++ [(k, mn)];
                  import_skipped := import_skipped st |}) as [-> ->].
  - intros p Hp. apply Hkeys. by right.
  - done.
  - intros p q Hp Hq. apply Hlow; by right.
  - simpl. intros w p Hw Hp Hsame.
    destruct (decide (w = k)) as [->|Hother].
    + assert (k = p.1) as Heq by (apply (Hlow (k, mn) p); [by left|by right|done]).
      apply Hk. rewrite Heq. by apply list_elem_of_fmap_2.
    + rewrite lookup_insert_ne in Hw by done.
      destruct (Hold w p); [done|by right|done].
  - simpl. by rewrite <-app_assoc.
Qed.
End RoundTrip.

Lemma rstrip_last_keys pairs : (rstrip_last pairs).*1 = pairs.*1.
Proof.
  induction pairs as [|p [|q pairs] IH]; [done|done|].
  change (rstrip_last (p :: q :: pairs)) with (p :: rstrip_last (q :: pairs)).
  by rewrite !fmap_cons, IH.
Qed.

Lemma rstrip_last_elem pairs p :
  p ∈ rstrip_last pairs →
  ∃ mn, (p.1, mn) ∈ pairs ∧ strip p.2 = strip mn
        ∧ (∀ c, c ∈ p.2 → c ∈ mn).
Proof.
  induction pairs as [|q [|q' pairs] IH]; [by intros ?%elem_of_nil| |].
  - intros ->%list_elem_of_singleton. exists q.2. simpl. split_and!.
    + destruct q. by left.
    + apply strip_by_rstrip.
    + intros c Hc. unfold rstrip_by in Hc. rewrite elem_of_reverse in Hc.
      apply elem_of_reverse.
      destruct (lstrip_by_split isspace (reverse q.2)) as (pre & Hpre & _).
      rewrite Hpre. apply elem_of_app. by right.
  - change (rstrip_last (q :: q' :: pairs)) with (q :: rstrip_last (q' :: pairs)).
    intros [->|Hp]%elem_of_cons.
    + exists q.2. split_and!; [destruct q; by left|done|done].
    + destruct (IH Hp) as (mn & Hin & Hs & Hsub). exists mn. split_and!; try done.
      by right.
Qed.

Lemma elem_rstrip_last pairs k mn :
  (k, mn) ∈ pairs → ∃ mn', (k, mn') ∈ rstrip_last pairs ∧ strip mn' = strip mn.
Proof.
  induction pairs as [|q [|q' pairs] IH]; [by intros ?%elem_of_nil| |].
  - intros Hq%list_elem_of_singleton. subst q. exists (rstrip_by isspace mn). simpl.
    split; [by left|apply strip_by_rstrip].
  - change (rstrip_last (q :: q' :: pairs)) with (q :: rstrip_last (q' :: pairs)).
    intros [Hq|Hp]%elem_of_cons.
    + subst q. exists mn. split; [by left|done].
    + destruct (IH Hp) as (mn' & Hin & Hs). exists mn'. split; [by right|done].
Qed.

Lemma join_export_lines_head p pairs :
  ∃ rest, join_lines (map export_line (p :: pairs)) = p.1 ++ COMMA :: rest.
Proof.
  destruct pairs as [|q pairs].
  - by exists p.2.
  - exists (p.2 ++ LF :: join_lines (map export_line (q :: pairs))).
    change (join_lines (map export_line (p :: q :: pairs)))
      with (export_line p ++ LF :: join_lines (map export_line (q :: pairs))).
    unfold export_line at 1. by rewrite <-app_assoc.
Qed.

(** The end of an export is stripped within its last line only. *)
Lemma rstrip_before_lines x p pairs :
  rstrip_by isspace (x ++ LF :: join_lines (map export_line (p :: pairs)))
  = x ++ LF :: rstrip_by isspace (join_lines (map export_line (p :: pairs))).
Proof.
  destruct (join_export_lines_head p pairs) as [rest ->].
  rewrite (rstrip_by_app_keep isspace p.1 COMMA rest eq_refl).
  replace (x ++ LF :: p.1 ++ COMMA :: rest) with ((x ++ LF :: p.1) ++ COMMA :: rest)
    by (by rewrite <-app_assoc).
  rewrite (rstrip_by_app_keep isspace _ COMMA rest eq_refl).
  by rewrite <-app_assoc.
Qed.

Lemma rstrip_export_lines pairs : ∀ p,
  rstrip_by isspace (join_lines (map export_line (p :: pairs)))
  = join_lines (map export_line (rstrip_last (p :: pairs))).
Proof.
  induction pairs as [|q pairs IH]; intros p.
  - simpl. apply (rstrip_by_app_keep isspace p.1 COMMA p.2 eq_refl).
  - change (join_lines (map export_line (p :: q :: pairs)))
      with (export_line p ++ LF :: join_lines (map export_line (q :: pairs))).
    rewrite rstrip_before_lines, IH.
    change (rstrip_last (p :: q :: pairs)) with (p :: rstrip_last (q :: pairs)).
    destruct pairs; reflexivity.
Qed.

Lemma strip_export_text pairs :
  strip (join_lines (HEADER_LINE :: map export_line pairs))
  = join_lines (HEADER_LINE :: map export_line (rstrip_last pairs)).
Proof.
  destruct pairs as [|p pairs]; [reflexivity|].
  change (join_lines (HEADER_LINE :: map export_line (p :: pairs)))
    with (HEADER_LINE ++ LF :: join_lines (map export_line (p :: pairs))).
  unfold strip. rewrite strip_by_rstrip_lstrip.
  assert (∀ t, lstrip_by isspace (HEADER_LINE ++ t) = HEADER_LINE ++ t) as ->
    by reflexivity.
  rewrite rstrip_before_lines, rstrip_export_lines.
  change (rstrip_last (p :: pairs)) with (rstrip_last (p :: pairs)).
  destruct pairs; reflexivity.
Qed.

Lemma export_to_text_lines items :
  export_to_text items
  = join_lines (HEADER_LINE :: map export_line ((λ i, (i.1, meaning i.2)) <$> items)).
Proof.
  unfold export_to_text. do 2 f_equal.
  induction items as [|i items IH]; [done|]. simpl. by rewrite IH.
Qed.

Lemma header_line_no_feed : LF ∉ HEADER_LINE.
Proof. run. Qed.

(** X19. What is exported can be imported again: when the keys of the items
    are stripped, not empty, not the header word, hold no comma and no line
    feed and differ by their lowered text, and the meanings hold no line
    feed, then importing the exported text into an empty store adds every
    word, in the order of the export, and skips none; the store that results
    has the same keys, each with a fresh record whose meaning is the stripped
    meaning exported: the review counts and dates are not carried over. *)
Theorem export_import_round_trip `{Lowering} (items : list (str * WordRecord)) :
  NoDup items.*1 →
  (∀ k r, (k, r) ∈ items →
     strip k = k ∧ k ≠ [] ∧ k ≠ HEADER_WORD ∧ (COMMA ∉ k) ∧ (LF ∉ k)
     ∧ (LF ∉ meaning r)) →
  (∀ k1 r1 k2 r2, (k1, r1) ∈ items → (k2, r2) ∈ items →
     lower k1 = lower k2 → k1 = k2) →
  let result := import_from_text (export_to_text items) (start ∅) in
  import_count result = Z.of_nat (length items)
  ∧ import_skipped result = 0
  ∧ (added_words result).*1 = items.*1
  ∧ words (imported result)
    = (λ r, fresh_record (strip (meaning r)) []) <$> list_to_map items.
Proof.
  intros Hnd Hitems Hlow result.
  set (pairs := (λ i : str * WordRecord, (i.1, meaning i.2)) <$> items).
  assert (pairs.*1 = items.*1) as Hfst.
  { unfold pairs. rewrite <-list_fmap_compose. by apply list_fmap_ext. }
  assert (∀ p, p ∈ rstrip_last pairs →
            ∃ r, (p.1, r) ∈ items ∧ ∀ c, c ∈ p.2 → c ∈ meaning r) as Hback.
  { intros p (mn & Hin & _ & Hsub)%rstrip_last_elem.
    apply list_elem_of_fmap in Hin as ([k r] & Heq & Hin). simplify_eq/=.
    by exists r. }
  assert (Forall (λ l, LF ∉ l) (HEADER_LINE :: map export_line (rstrip_last pairs)))
    as Hfeed.
  { constructor; [apply header_line_no_feed|].
    apply Forall_forall. intros l Hl.
    apply list_elem_of_In, in_map_iff in Hl as (p & <- & Hp%list_elem_of_In).
    destruct (Hback p Hp) as (r & Hin & Hsub).
    destruct (Hitems _ _ Hin) as (_ & _ & _ & _ & Hk & Hmn).
    unfold export_line.
    intros [Hc|[Hc|Hc]%elem_of_cons]%elem_of_app; [done|done|].
    by apply Hmn, Hsub. }
  assert (result = foldl import_line
            {| imported := start ∅; import_count := 0; added_words := [];
               import_skipped := 0 |}
            (map export_line (rstrip_last pairs))) as Hresult.
  { unfold result, import_from_text.
    rewrite export_to_text_lines. fold pairs.
    rewrite strip_export_text, split_on_join by done.
    cbn [foldl]. by rewrite import_line_header. }
  destruct (import_lines_of_pairs (rstrip_last pairs)
              {| imported := start ∅; import_count := 0; added_words := [];
                 import_skipped := 0 |}) as [Hadded Hskip].
  { intros p Hp. destruct (Hback p Hp) as (r & Hin & _).
    destruct (Hitems _ _ Hin) as (? & ? & ? & ? & _). done. }
  { by rewrite rstrip_last_keys, Hfst. }
  { intros p q Hp Hq.
    destruct (Hback p Hp) as (r1 & Hin1 & _), (Hback q Hq) as (r2 & Hin2 & _).
    by apply (Hlow _ r1 _ r2). }
  { simpl. intros w p [r Hw]. by rewrite lookup_empty in Hw. }
  rewrite <-Hresult in Hadded, Hskip. simpl in Hadded, Hskip.
  destruct (import_from_text_inv (start ∅) (export_to_text items))
    as (_ & Hcount & _ & _ & _ & _ & Hstored & Hkeys & _).
  fold result in Hcount, Hstored, Hkeys. rewrite Hadded in Hcount, Hstored, Hkeys.
  assert ((rstrip_last pairs).*1 = items.*1) as Hsame
    by (by rewrite rstrip_last_keys).
  split_and!.
  - rewrite Hcount. f_equal.
    by rewrite <-(length_fmap fst (rstrip_last pairs)), Hsame, length_fmap.
  - done.
  - by rewrite Hadded.
  - apply map_eq. intros k. rewrite lookup_fmap.
    destruct (list_to_map (M:=gmap str WordRecord) items !! k) as [r|] eqn:Hk; simpl.
    + apply elem_of_list_to_map in Hk; [|done].
      assert ((k, meaning r) ∈ pairs) as Hin.
      { unfold pairs. apply list_elem_of_fmap. by exists (k, r). }
      apply elem_rstrip_last in Hin as (mn' & Hin & <-).
      by destruct (Hstored _ _ Hin) as (_ & _ & _ & _ & ->).
    + apply not_elem_of_list_to_map in Hk.
      destruct (words (imported result) !! k) as [r|] eqn:Hlook; [|done].
      destruct (Hkeys k) as [[? Hold]|[mn Hin]]; [by eexists| |].
      * simpl in Hold. by rewrite lookup_empty in Hold.
      * destruct Hk. rewrite <-Hsame. apply list_elem_of_fmap. by exists (k, mn).
Qed.

Lemma export_import_round_trip_witness :
  let items :=
    [ (py "Lucid", {| meaning := py " clear "; examples := []; review_count := 6;
                      last_review := py "2024-03-01 12:00";
                      last_review_date := py "2024-03-01"; today_reviewed := false |});
      (py "keen", {| meaning := py "sharp, cutting  "; examples := [];
                     review_count := 2; last_review := []; last_review_date := [];
                     today_reviewed := true |}) ] in
  let result := import_from_text (export_to_text items) (start ∅) in
  import_count result = 2
  ∧ words (imported result) !! py "Lucid" = Some (fresh_record (py "clear") [])
  ∧ words (imported result) !! py "keen" = Some (fresh_record (py "sharp, cutting") []).
Proof.
  intros items result.
  destruct (@export_import_round_trip ascii_lowering items) as (Hcount & _ & _ & Hwords).
  - run.
  - intros k r Hin.
    repeat (apply elem_of_cons in Hin as [Heq|Hin]; [simplify_eq; split_and!; run|]).
    by apply elem_of_nil in Hin.
  - intros k1 r1 k2 r2 Hin1 Hin2 Hsame.
    repeat (apply elem_of_cons in Hin1 as [Heq|Hin1]; [simplify_eq|]);
      try (by apply elem_of_nil in Hin1);
      repeat (apply elem_of_cons in Hin2 as [Heq|Hin2]; [simplify_eq|]);
      try (by apply elem_of_nil in Hin2);
      try reflexivity; vm_compute in Hsame; discriminate Hsame.
  - fold result in Hcount, Hwords. rewrite Hwords.
    split_and!; [exact Hcount|by vm_compute|by vm_compute].
Defined.
